(** * stress-ng: the page-remap and user-syscall-dispatch stressors

    A shallow embedding of [stress-remap.c] and [stress-usersyscall.c].
    The C code is sequential and talks to the kernel through system calls;
    every call whose outcome the program cannot determine (mlock,
    remap_file_pages, prctl, syscall, the clock, the random number
    generator, keep_stressing) is answered by an oracle, indexed by the
    number of calls of that kind made so far.  Program state is threaded
    explicitly and every external call is recorded in a trace. *)

From Stdlib Require Import ZArith Lia String Ascii Floats.
From mathcomp Require Import ssreflect ssrfun ssrbool eqtype ssrnat seq.
From mathcomp Require Import choice fintype tuple bigop div prime binomial finset.

Set Implicit Arguments.
Unset Strict Implicit.
Unset Printing Implicit Defensive.

#[local] Set Warnings "-rewrite-rw".

(** ** Shared plugin contract *)

(** Modelled from the spec: the exit codes of [stress-ng.h] (section 6,
    [ExitStatus]); the header is not part of the sources. *)
Inductive exit_status := EXIT_SUCCESS | EXIT_NO_RESOURCE | EXIT_NOT_IMPLEMENTED.

(** A system call returns 0 on success and -1 (with errno set) on failure. *)
Definition ret_of (ok : bool) : Z := if ok then 0%Z else (-1)%Z.

(** * stress-remap.c *)
Module Remap.

Definition N_PAGES : nat := 512.

(** [(stress_mapdata_t)i]: truncation to [uint16_t]. *)
Definition to_mapdata (i : nat) : nat := i %% 65536.

(** Addresses handed to the kernel: page [i] of [data], the address that
    was mapped and unmapped again, and the page after [mapped]. *)
Inductive addr :=
| Data_page of nat
| Unmapped
| Mapped_end.

(** [~0] as an [int] argument. *)
Definition all_ones : Z := (-1)%Z.

Inductive event :=
| Mlock of addr & Z
| Munlock of addr
| Remap_file_pages of addr & Z & nat & Z & Z   (* addr prot pgoff flags ret *)
| Pr_fail of string
| Pr_inf_skip of string
| Inc_counter
| Metric of string & float.

(** The answers of the environment. *)
Record oracle := Oracle {
  mmap_data_ok : bool;          (* mmap of the data region *)
  unmapped_ok : bool;           (* stress_get_umapped_addr gave an address *)
  mmap_mapped_ok : bool;        (* mmap of the two-page probe region *)
  munmap_tail_ok : bool;        (* munmap of its second page *)
  mlock_ok : nat -> bool;       (* n-th mlock *)
  remap_ok : nat -> bool;       (* n-th remap_file_pages *)
  time_now : nat -> float;      (* n-th stress_time_now *)
  mwc32modn : nat -> nat;       (* n-th stress_mwc32modn(N_PAGES) *)
  keep_stressing : nat -> bool  (* n-th keep_stressing *)
}.

(** The data region is a shared anonymous mapping: [shmem] is the backing
    object, one [uint16_t] per element, and [pgtab] gives, for each virtual
    page of [data], the page of the object it shows. *)
Record state := State {
  pgtab : seq nat;
  shmem : seq nat;
  duration : float;
  count : float;
  n_mlock : nat;
  n_remap : nat;
  n_time : nat;
  n_rand : nat;
  n_keep : nat;
  trace : seq event
}.

Definition log (e : event) (st : state) : state :=
  State (pgtab st) (shmem st) (duration st) (count st)
        (n_mlock st) (n_remap st) (n_time st) (n_rand st) (n_keep st)
        (rcons (trace st) e).

Definition pr_fail (msg : string) (st : state) : state := log (Pr_fail msg) st.

Section Stressor.

Variable HAVE_MLOCK : bool.
Variable o : oracle.
Variable page_size : nat.

(** [stride = page_size / sizeof( *data )]. *)
Definition stride : nat := page_size %/ 2.

(** [data[idx]]: the element is looked up through the page table. *)
Definition data_get (st : state) (idx : nat) : nat :=
  nth 0 (shmem st) (nth 0 (pgtab st) (idx %/ stride) * stride + idx %% stride).

Definition data_set (st : state) (idx : nat) (v : nat) : state :=
  State (pgtab st)
        (set_nth 0 (shmem st)
                 (nth 0 (pgtab st) (idx %/ stride) * stride + idx %% stride) v)
        (duration st) (count st)
        (n_mlock st) (n_remap st) (n_time st) (n_rand st) (n_keep st)
        (trace st).

(** ** External calls *)

Definition mlock (a : addr) (st : state) : Z * state :=
  let r := ret_of (mlock_ok o (n_mlock st)) in
  (r, State (pgtab st) (shmem st) (duration st) (count st)
            (n_mlock st).+1 (n_remap st) (n_time st) (n_rand st) (n_keep st)
            (rcons (trace st) (Mlock a r))).

Definition munlock (a : addr) (st : state) : state := log (Munlock a) st.

(** [remap_file_pages(addr, page_size, prot, pgoff, flags)].  A successful
    call on a page of [data] makes that page show page [pgoff] of the
    backing object; a call on another address never touches [data]. *)
Definition remap_file_pages (a : addr) (prot : Z) (pgoff : nat) (flags : Z)
    (st : state) : Z * state :=
  let ok := remap_ok o (n_remap st) in
  let pt := if a is Data_page i then
              if ok then set_nth 0 (pgtab st) i pgoff else pgtab st
            else pgtab st in
  (ret_of ok,
   State pt (shmem st) (duration st) (count st)
         (n_mlock st) (n_remap st).+1 (n_time st) (n_rand st) (n_keep st)
         (rcons (trace st) (Remap_file_pages a prot pgoff flags (ret_of ok)))).

Definition stress_time_now (st : state) : float * state :=
  (time_now o (n_time st),
   State (pgtab st) (shmem st) (duration st) (count st)
         (n_mlock st) (n_remap st) (n_time st).+1 (n_rand st) (n_keep st)
         (trace st)).

Definition stress_mwc32modn_N_PAGES (st : state) : nat * state :=
  (mwc32modn o (n_rand st),
   State (pgtab st) (shmem st) (duration st) (count st)
         (n_mlock st) (n_remap st) (n_time st) (n_rand st).+1 (n_keep st)
         (trace st)).

Definition keep_stressing_call (st : state) : bool * state :=
  (keep_stressing o (n_keep st),
   State (pgtab st) (shmem st) (duration st) (count st)
         (n_mlock st) (n_remap st) (n_time st) (n_rand st) (n_keep st).+1
         (trace st)).

Definition add_sample (elapsed : float) (st : state) : state :=
  State (pgtab st) (shmem st)
        (duration st + elapsed)%float (count st + 1)%float
        (n_mlock st) (n_remap st) (n_time st) (n_rand st) (n_keep st)
        (trace st).

(** ** check_order *)

(** The [for] loop of [check_order], from index [i] with [n] indices left:
    [true] when it leaves with [failed] set. *)
Fixpoint check_order_from (st : state) (order : seq nat) (n i : nat) : bool :=
  if n is n'.+1 then
    if data_get st (i * stride) != nth 0 order i then true
    else check_order_from st order n' i.+1
  else false.

Definition check_order_msg (ordering : string) : string :=
  ("remap " ++ ordering ++ " order pages failed")%string.

Definition check_order (order : seq nat) (ordering : string) (st : state)
    : state :=
  if check_order_from st order N_PAGES 0
  then pr_fail (check_order_msg ordering) st
  else st.

(** ** remap_order *)

(** Lines 97-103: the timed call. *)
Definition timed_remap (order : seq nat) (i : nat) (st : state) : Z * state :=
  let: (t, st) := stress_time_now st in
  let: (ret, st) := remap_file_pages (Data_page i) 0 (nth 0 order i) 0 st in
  if (ret =? 0)%Z then
    let: (t', st) := stress_time_now st in
    (ret, add_sample (t' - t)%float st)
  else (ret, st).

(** One turn of the loop body up to the final test of [ret]. *)
Definition remap_page (order : seq nat) (i : nat) (st : state) : Z * state :=
  if HAVE_MLOCK then
    let: (lock_ret, st) := mlock (Data_page i) st in
    let: (ret, st) := timed_remap order i st in
    let st := if (lock_ret =? 0)%Z then munlock (Data_page i) st else st in
    if (ret =? 0)%Z then (ret, st)
    else remap_file_pages (Data_page i) 0 (nth 0 order i) 0 st
  else timed_remap order i st.

Definition remap_fail_msg : string := "remap_file_pages failed".

(** The loop of [remap_order] from index [i] with [n] indices left. *)
Fixpoint remap_order_from (order : seq nat) (n i : nat) (st : state)
    : Z * state :=
  if n is n'.+1 then
    let: (ret, st) := remap_page order i st in
    if (ret <? 0)%Z then ((-1)%Z, pr_fail remap_fail_msg st)
    else remap_order_from order n' i.+1 st
  else (0%Z, st).

Definition remap_order (order : seq nat) (st : state) : Z * state :=
  remap_order_from order N_PAGES 0 st.

(** ** The orders built by stress_remap *)

(** [for (i = 0; i < N_PAGES; i++) order[i] = f(i);] *)
Definition fill_order (f : nat -> nat) (order : seq nat) : seq nat :=
  foldl (fun ord i => set_nth 0 ord i (f i)) order (iota 0 N_PAGES).

Definition order_reverse := fill_order (fun i => N_PAGES - 1 - i).
Definition order_forward := fill_order (fun i => i).
Definition order_all_to_1 := fill_order (fun _ => 0).

(** Lines 191-193: exchange [order[i]] and [order[j]]. *)
Definition swap (order : seq nat) (i j : nat) : seq nat :=
  let tmp := nth 0 order i in
  let order := set_nth 0 order i (nth 0 order j) in
  set_nth 0 order j tmp.

(** Lines 188-194, from index [i] with [n] indices left. *)
Fixpoint shuffle_from (n i : nat) (order : seq nat) (st : state)
    : seq nat * state :=
  if n is n'.+1 then
    let: (j, st) := stress_mwc32modn_N_PAGES st in
    shuffle_from n' i.+1 (swap order i j) st
  else (order, st).

Definition order_random (order : seq nat) (st : state) : seq nat * state :=
  shuffle_from N_PAGES 0 (order_forward order) st.

(** ** stress_remap *)

Inductive flow := Continue | Break.

(** Lines 217-234: the calls that are meant to fail; results are dropped. *)
Definition illegal_remaps (a : addr) (order : seq nat) (st : state) : state :=
  let st := (remap_file_pages a 0 0 0 st).2 in
  let st := (remap_file_pages a 0 0 all_ones st).2 in
  (remap_file_pages a all_ones (nth 0 order 0) 0 st).2.

(** The body of the [do ... while] loop.  [order] is a fresh local array
    in every turn; each pass overwrites all of it before it is read. *)
Definition iteration (unmapped mapped : bool) (st : state) : flow * state :=
  let order := nseq N_PAGES 0 in
  let order := order_reverse order in
  let: (ret, st) := remap_order order st in
  if (ret <? 0)%Z then (Break, st) else
  let st := check_order order "reverse" st in
  let: (order, st) := order_random order st in
  let: (ret, st) := remap_order order st in
  if (ret <? 0)%Z then (Break, st) else
  let st := check_order order "random" st in
  let order := order_all_to_1 order in
  let: (ret, st) := remap_order order st in
  if (ret <? 0)%Z then (Break, st) else
  let st := check_order order "all-to-1" st in
  let order := order_forward order in
  let: (ret, st) := remap_order order st in
  if (ret <? 0)%Z then (Break, st) else
  let st := check_order order "forward" st in
  let st := if unmapped then illegal_remaps Unmapped order st else st in
  let st := if mapped then illegal_remaps Mapped_end order st else st in
  (Continue, log Inc_counter st).

(** [do { ... } while (keep_stressing(args));] with a bound on the number
    of turns. *)
Fixpoint stress_loop (unmapped mapped : bool) (fuel : nat) (st : state)
    : option state :=
  if fuel is fuel'.+1 then
    let: (fl, st) := iteration unmapped mapped st in
    if fl is Break then Some st else
    let: (k, st) := keep_stressing_call st in
    if k then stress_loop unmapped mapped fuel' st else Some st
  else None.

(** Lines 147-148: [data[i * stride] = (stress_mapdata_t)i]. *)
Definition init_tags (st : state) : state :=
  foldl (fun st i => data_set st (i * stride) (to_mapdata i)) st
        (iota 0 N_PAGES).

(** The state right after the first [mmap]: zero-filled, pages in order. *)
Definition fresh : state :=
  State (iota 0 N_PAGES) (nseq (N_PAGES * stride) 0) 0 0 0 0 0 0 0 [::].

Definition metric_label : string := "nanosecs per page remap".

(** Lines 240-241. *)
Definition report_rate (st : state) : state :=
  let rate := if (0 <? count st)%float
              then (duration st / count st)%float else 0%float in
  log (Metric metric_label (rate * 1000000000)%float) st.

Definition stress_remap (fuel : nat) : option (exit_status * state) :=
  if ~~ mmap_data_ok o then
    Some (EXIT_NO_RESOURCE, log (Pr_inf_skip "mmap failed") fresh)
  else
    let st := init_tags fresh in
    let unmapped := unmapped_ok o in
    let mapped := mmap_mapped_ok o && munmap_tail_ok o in
    if stress_loop unmapped mapped fuel st is Some st
    then Some (EXIT_SUCCESS, report_rate st)
    else None.

(** The four passes of one turn of the loop, each with the state it
    leaves, as long as the turn gets that far: reverse, random,
    collapse and identity. *)
Definition passes (st : state) : seq (Z * state) :=
  let order1 := order_reverse (nseq N_PAGES 0) in
  let r1 := remap_order order1 st in
  let s1 := check_order order1 "reverse" r1.2 in
  let or2 := order_random order1 s1 in
  let r2 := remap_order or2.1 or2.2 in
  let s2 := check_order or2.1 "random" r2.2 in
  let order3 := order_all_to_1 or2.1 in
  let r3 := remap_order order3 s2 in
  let s3 := check_order order3 "all-to-1" r3.2 in
  let order4 := order_forward order3 in
  let r4 := remap_order order4 s3 in
  [:: r1; r2; r3; r4].

(** The orders of the four passes of a turn, and the names under which
    [check_order] is called on them. *)
Definition orders (st : state) : seq (seq nat) :=
  let order1 := order_reverse (nseq N_PAGES 0) in
  let r1 := remap_order order1 st in
  let s1 := check_order order1 "reverse" r1.2 in
  let or2 := order_random order1 s1 in
  let order3 := order_all_to_1 or2.1 in
  let order4 := order_forward order3 in
  [:: order1; or2.1; order3; order4].

Definition orderings : seq string :=
  [:: "reverse"%string; "random"%string; "all-to-1"%string;
      "forward"%string].

(** The state in which a turn goes on after pass [k]: the call of
    [check_order] on the order of that pass. *)
Definition checked (st : state) (k : nat) : state :=
  check_order (nth [::] (orders st) k) (nth ""%string orderings k)
              (nth (0%Z, st) (passes st) k).2.

(** The state at the end of a turn in which no pass failed: lines
    213-235 after the last check. *)
Definition turn_end (unmapped mapped : bool) (st : state) : state :=
  let order4 := nth [::] (orders st) 3 in
  let st := checked st 3 in
  let st := if unmapped then illegal_remaps Unmapped order4 st else st in
  let st := if mapped then illegal_remaps Mapped_end order4 st else st in
  log Inc_counter st.

(** How a turn with the passes [ps] ends: with the first pass that
    failed, or else with [y]. *)
Fixpoint first_fail (ps : seq (Z * state)) (y : flow * state)
    : flow * state :=
  if ps is p :: ps' then
    if (p.1 <? 0)%Z then (Break, p.2) else first_fail ps' y
  else y.

(** [st'] is [st] after some more events. *)
Definition extends (st st' : state) : Prop :=
  exists tl, trace st' = trace st ++ tl.

(** The calls a turn of the loop of [remap_order] makes for page [i], in
    order, with their results. *)
Definition page_calls (order : seq nat) (i : nat) (st : state) : seq event :=
  let a := Data_page i in
  let lock_ret := ret_of (mlock_ok o (n_mlock st)) in
  let ret := ret_of (remap_ok o (n_remap st)) in
  let ret' := ret_of (remap_ok o (n_remap st).+1) in
  if HAVE_MLOCK then
    [:: Mlock a lock_ret; Remap_file_pages a 0 (nth 0 order i) 0 ret]
    ++ (if (lock_ret =? 0)%Z then [:: Munlock a] else [::])
    ++ (if (ret =? 0)%Z then [::]
        else [:: Remap_file_pages a 0 (nth 0 order i) 0 ret'])
  else [:: Remap_file_pages a 0 (nth 0 order i) 0 ret].

(** The value of [ret] when the loop body reaches its final test. *)
Definition page_ret (st : state) : Z :=
  let ret := ret_of (remap_ok o (n_remap st)) in
  if HAVE_MLOCK && ~~ (ret =? 0)%Z then ret_of (remap_ok o (n_remap st).+1)
  else ret.

(** The contents of the backing object that [check_order] relies on:
    page [k] of the object carries tag [k] in its first slot. *)
Definition tagged (st : state) : bool :=
  all (fun k => nth 0 (shmem st) (k * stride) == k) (iota 0 N_PAGES).

End Stressor.

(** Every entry of an order names a page of the region. *)
Definition in_range (order : seq nat) : Prop :=
  forall i, i < N_PAGES -> nth 0 order i < N_PAGES.

(** An environment in which every call succeeds, the clock ticks once
    per reading and the loop is asked to stop after its first turn. *)
Definition calm : oracle :=
  Oracle true true true true (fun _ => true) (fun _ => true)
         (fun n => PrimFloat.of_uint63 (Uint63.of_nat n))
         (fun n => n %% N_PAGES) (fun _ => false).

(** An environment in which no page can be pinned and the very first
    remap call fails. *)
Definition flaky : oracle :=
  Oracle true true true true (fun _ => false) (fun n => n != 0)
         (fun n => PrimFloat.of_uint63 (Uint63.of_nat n))
         (fun n => n %% N_PAGES) (fun _ => true).

(** An environment in which remap_file_pages never works. *)
Definition stuck : oracle :=
  Oracle true true true true (fun _ => true) (fun _ => false)
         (fun n => PrimFloat.of_uint63 (Uint63.of_nat n))
         (fun n => n %% N_PAGES) (fun _ => true).

(** The metrics a run has reported so far. *)
Definition is_metric (e : event) : bool :=
  if e is Metric _ _ then true else false.

Definition metrics (st : state) : seq event :=
  [seq e <- trace st | is_metric e].

(** The number of remap_file_pages calls in a trace. *)
Definition remap_calls (tr : seq event) : nat :=
  seq.count (fun e => if e is Remap_file_pages _ _ _ _ _ then true else false) tr.

(** An environment whose random number generator returns the entries of
    [d] in turn. *)
Definition with_draws (d : seq nat) : oracle :=
  Oracle true true true true (fun _ => true) (fun _ => true)
         (fun _ => 0%float) (nth 0 d) (fun _ => false).

(** The random order produced in a first turn of the loop when the draws
    are [d]. *)
Definition shuffled (d : seq nat) : seq nat :=
  (order_random (with_draws d) (nseq N_PAGES 0) (fresh 4096)).1.

(** The draws of one shuffle are [N_PAGES] independent uniform values
    below [N_PAGES], so all sequences of draws are equally likely and the
    probability of an order is the number of sequences that produce it
    over [N_PAGES ^ N_PAGES].  All permutations are equally likely when
    that number is the same for each of them. *)
Definition equiprobable : Prop :=
  exists c : nat, forall p : seq nat, perm_eq p (iota 0 N_PAGES) ->
    #|[set d : N_PAGES.-tuple 'I_N_PAGES | shuffled [seq val j | j <- d] == p]| = c.

(** An order over [m.+1] pages as a tuple of page indices. *)
Definition pack (m : nat) (sh : m.+1.-tuple 'I_m.+1 -> seq nat)
    (d : m.+1.-tuple 'I_m.+1) : m.+1.-tuple 'I_m.+1 :=
  [tuple inord (nth 0 (sh d) i) | i < m.+1].

(** The index read by cell [k] of an array after cells [i] and [j] have
    been exchanged. *)
Definition exch (i j k : nat) : nat :=
  if k == j then i else if k == i then j else k.

(** ** Vocabulary for the properties of a whole run *)

(** A call on the data region is well formed: it names one of the
    [N_PAGES] pages, and a remap call has a file offset inside the backing
    object with [prot] and [flags] zero.  Calls on the two probe
    addresses and the other events are not restricted. *)
Definition sane (e : event) : bool :=
  match e with
  | Mlock (Data_page i) _ | Munlock (Data_page i) => i < N_PAGES
  | Mlock _ _ | Munlock _ => false
  | Remap_file_pages (Data_page i) prot pgoff flags _ =>
      [&& i < N_PAGES, pgoff < N_PAGES, (prot =? 0)%Z & (flags =? 0)%Z]
  | _ => true
  end.

(** A failure other than the fatal one of [remap_order]: the failures
    [check_order] reports. *)
Definition order_failure (e : event) : bool :=
  if e is Pr_fail msg then ~~ String.eqb msg remap_fail_msg else false.

(** The pages pinned by a successful mlock, and the munlock calls. *)
Definition pins_taken (tr : seq event) : nat :=
  seq.count (fun e => if e is Mlock _ r then (r =? 0)%Z else false) tr.

Definition pins_released (tr : seq event) : nat :=
  seq.count (fun e => if e is Munlock _ then true else false) tr.

(** The bogo-op counter: the number of [inc_counter] calls so far. *)
Definition is_inc (e : event) : bool :=
  if e is Inc_counter then true else false.

Definition bogo_ops (st : state) : nat :=
  seq.count (fun e => if e is Inc_counter then true else false) (trace st).

(** What a turn of the loop keeps: the tags in the backing object and
    [P] of every event so far. *)
Definition kept (page_size : nat) (P : pred event) (st : state) : Prop :=
  tagged page_size st /\ all P (trace st).

Arguments remap_order : simpl never.
Arguments check_order : simpl never.
Arguments order_reverse : simpl never.
Arguments order_forward : simpl never.
Arguments order_all_to_1 : simpl never.
Arguments order_random : simpl never.
Arguments init_tags : simpl never.
Arguments fresh : simpl never.
Arguments illegal_remaps : simpl never.

End Remap.

(** * stress-usersyscall.c *)
Module Usersyscall.

Local Open Scope Z_scope.

Definition PR_SYS_DISPATCH_OFF : Z := 0.
Definition PR_SYS_DISPATCH_ON : Z := 1.
Definition SYSCALL_DISPATCH_FILTER_ALLOW : Z := 0.
Definition SYSCALL_DISPATCH_FILTER_BLOCK : Z := 1.
Definition SYS_USER_DISPATCH : Z := 2.

(** From the system headers of Linux on x86-64: [ENOSYS] of errno.h and
    [__NR_getpid] of unistd.h. *)
Definition ENOSYS : Z := 38.
Definition NR_getpid : Z := 39.

(** [~(uintptr_t)0]; the library scan is only built for x86-64. *)
Definition UINTPTR_MAX : Z := 2 ^ 64 - 1.

(** The conversion of a [long] to [int]. *)
Definition to_int (z : Z) : Z := (z + 2 ^ 31) mod 2 ^ 32 - 2 ^ 31.

(** The fields of [siginfo_t] the stressor looks at. *)
Record siginfo_t := Siginfo { si_code : Z; si_errno : Z }.

(** What the kernel and the C library make of one system call: whether
    SIGSYS was delivered on the way (with the [info] pointer handed to the
    handler, which may be NULL), the value that comes back, and the value
    the C library stores in errno, if it stores one. *)
Record sysres := Sysres {
  sigsys : option (option siginfo_t);
  value : Z;
  new_errno : option Z
}.

(** One line of /proc/self/maps as [sscanf] converts it: the number of
    fields converted and those of them the scan reads. *)
Record maps_line := Maps_line {
  n_conv : Z;
  map_begin : Z;
  map_end : Z;
  perm : string;
  libc_path : string
}.

Inductive event :=
| Sigaction of Z
| Prctl of Z & Z & Z & bool & Z    (* mode, offset, length, selector given, ret *)
| Syscall of Z & Z                 (* number, selector byte at the call *)
| Raw_syscall of Z & Z
| Pr_fail of string
| Pr_inf of string
| Pr_inf_skip of string
| Inc_counter.

Record oracle := Oracle {
  proc_self_maps : option (seq maps_line);  (* None: fopen fails *)
  getpid : Z;
  sigaction_ok : bool;
  prctl_res : nat -> bool * Z;      (* n-th prctl: success, errno if not *)
  sys : nat -> sysres;              (* n-th system call *)
  keep_stressing : nat -> bool
}.

(** The two file-scope variables, errno, and the calls made so far. *)
Record state := State {
  siginfo : siginfo_t;
  selector : Z;
  errno : Z;
  n_prctl : nat;
  n_sys : nat;
  n_keep : nat;
  trace : seq event
}.

Definition log (e : event) (st : state) : state :=
  State (siginfo st) (selector st) (errno st) (n_prctl st) (n_sys st)
        (n_keep st) (rcons (trace st) e).

Definition set_selector (v : Z) (st : state) : state :=
  State (siginfo st) v (errno st) (n_prctl st) (n_sys st) (n_keep st)
        (trace st).

Definition set_siginfo (i : siginfo_t) (st : state) : state :=
  State i (selector st) (errno st) (n_prctl st) (n_sys st) (n_keep st)
        (trace st).

Definition set_errno (e : Z) (st : state) : state :=
  State (siginfo st) (selector st) e (n_prctl st) (n_sys st) (n_keep st)
        (trace st).

Definition dispatcher_off : state -> state :=
  set_selector SYSCALL_DISPATCH_FILTER_ALLOW.

Definition dispatcher_on : state -> state :=
  set_selector SYSCALL_DISPATCH_FILTER_BLOCK.

(** ** The scan of /proc/self/maps *)

(** [strstr(hay, needle) != NULL]. *)
Fixpoint strstr (hay needle : string) : bool :=
  String.prefix needle hay
  || (if hay is String _ hay' then strstr hay' needle else false).

(** [strncmp(s1, s2, n) == 0]: the strings agree on their first [n]
    characters, or on all of them when they end earlier. *)
Definition strncmp_eq (s1 s2 : string) (n : nat) : bool :=
  String.eqb (String.substring 0 n s1) (String.substring 0 n s2).

(** The body of the [while (fgets(...))] loop on [*begin] and [*end]. *)
Definition scan_line (be : Z * Z) (l : maps_line) : Z * Z :=
  if (n_conv l =? 8) && strncmp_eq (perm l) "r-xp" 4
     && strstr (libc_path l) ".so" then
    if strstr (libc_path l) "/libc-" || strstr (libc_path l) "/libc.so" then
      ((if map_begin l <? be.1 then map_begin l else be.1),
       (if be.2 <? map_end l then map_end l else be.2))
    else be
  else be.

(** The result is the return value with [*begin] and [*end]. *)
Definition stress_sigsys_libc_mapping (maps : option (seq maps_line))
    : Z * (Z * Z) :=
  if maps is Some lines then
    let be := foldl scan_line (UINTPTR_MAX, 0) lines in
    if (be.1 =? UINTPTR_MAX) || (be.2 =? 0) then (-1, (0, 0))
    else (0, be)
  else (-1, (0, 0)).

Section Stressor.

(** [__NR_syscalls] where the headers define it. *)
Variable NR_syscalls : option Z.
(** [STRESS_EXERCISE_X86_SYSCALL]. *)
Variable EXERCISE_X86_SYSCALL : bool.
Variable o : oracle.

Definition USR_SYSCALL : Z :=
  if NR_syscalls is Some n then n + 256 else 0xe000.

(** ** External calls *)

Definition prctl (mode offset len : Z) (with_selector : bool) (st : state)
    : Z * state :=
  let: (ok, e) := prctl_res o (n_prctl st) in
  let st := State (siginfo st) (selector st) (if ok then errno st else e)
                  (n_prctl st).+1 (n_sys st) (n_keep st) (trace st) in
  (ret_of ok, log (Prctl mode offset len with_selector (ret_of ok)) st).

(** [stress_sigsys_handler]; [info] is [None] for a NULL pointer. *)
Definition stress_sigsys_handler (info : option siginfo_t) (st : state)
    : state :=
  let st := dispatcher_off st in
  if info is Some i then set_siginfo i st else st.

(** The kernel's part of a system call: the call is recorded with the
    selector byte the kernel sees, and the handler runs if SIGSYS is
    delivered. *)
Definition enter_kernel (e : event) (st : state) : sysres * state :=
  let r := sys o (n_sys st) in
  let st := State (siginfo st) (selector st) (errno st) (n_prctl st)
                  (n_sys st).+1 (n_keep st) (rcons (trace st) e) in
  (r, if sigsys r is Some info then stress_sigsys_handler info st else st).

(** [syscall(number)] of the C library. *)
Definition syscall (number : Z) (st : state) : Z * state :=
  let: (r, st) := enter_kernel (Syscall number (selector st)) st in
  (value r, if new_errno r is Some e then set_errno e st else st).

(** [x86_64_syscall0]: the [syscall] instruction itself. *)
Definition x86_64_syscall0 (number : Z) (st : state) : Z * state :=
  let: (r, st) := enter_kernel (Raw_syscall number (selector st)) st in
  let ret := value r in
  if ret <? 0 then (-1, set_errno (to_int (- ret)) st) else (ret, st).

Definition keep_stressing_call (st : state) : bool * state :=
  (keep_stressing o (n_keep st),
   State (siginfo st) (selector st) (errno st) (n_prctl st) (n_sys st)
         (n_keep st).+1 (trace st)).

(** ** stress_supported *)

Definition stress_supported (st : state) : Z * state :=
  let st := dispatcher_off st in
  let: (ret, st) := prctl PR_SYS_DISPATCH_ON 0 0 true st in
  if ret =? 0 then (0, st)
  else (-1, log (Pr_inf_skip "prctl user dispatch is not working") st).

(** ** stress_usersyscall *)

(** How a stretch of the loop body ends: by falling through to the next
    statement, by [continue], by [break], or by [goto err]. *)
Inductive flow := Fall | Continue | Break | Goto_err.

Definition enosys_msg : string := "didn't get ENOSYS on user syscall".
Definition skip_msg : string := "got ENOSYS for usersyscall, skipping stressor".
Definition ret_msg : string := "didn't get USR_SYSCALL on user syscall".
Definition code_msg : string :=
  "didn't get SYS_USER_DISPATCH in siginfo.si_code".
Definition errno_msg : string := "didn't get 0x0 in siginfo.si_errno".
Definition dispatch_msg : string := "user dispatch failed".
Definition pid_msg : string := "didn't get pid on libc getpid syscall".
Definition getpid_msg : string := "didn't get __NR_getpid on user syscall".

(** Lines 235-249: the user syscall with the dispatcher disabled. *)
Definition test_case_1 (st : state) : flow * state :=
  let st := dispatcher_off st in
  let: (ret, st) := prctl PR_SYS_DISPATCH_ON 0 0 true st in
  if negb (ret =? 0) then (Break, log (Pr_inf dispatch_msg) st) else
  let st := set_errno 0 st in
  let: (_, st) := syscall USR_SYSCALL st in
  (Fall,
   if negb (errno st =? ENOSYS) then log (Pr_fail enosys_msg) st else st).

(** Lines 255-284: the user syscall with the dispatcher enabled. *)
Definition test_case_2 (st : state) : flow * state :=
  let st := set_siginfo (Siginfo 0 0) st in
  let st := dispatcher_on st in
  let: (r, st) := syscall USR_SYSCALL st in
  let ret := to_int r in
  let st := dispatcher_off st in
  if negb (ret =? USR_SYSCALL) then
    if errno st =? ENOSYS then (Goto_err, log (Pr_inf_skip skip_msg) st)
    else (Continue, log (Pr_fail ret_msg) st)
  else if negb (si_code (siginfo st) =? SYS_USER_DISPATCH) then
    (Continue, log (Pr_fail code_msg) st)
  else if negb (si_errno (siginfo st) =? 0) then
    (Continue, log (Pr_fail errno_msg) st)
  else
    (Fall, (prctl PR_SYS_DISPATCH_OFF 0 0 false st).2).

(** Lines 296-335: getpid from inside and from outside the C library;
    [begin] and [end] are the bounds found by the scan. *)
Definition test_case_3 (pid begin end_ : Z) (st : state) : state :=
  let: (ret, st) :=
    prctl PR_SYS_DISPATCH_ON begin ((end_ - begin) mod 2 ^ 64) true st in
  let st := if negb (ret =? 0) then log (Pr_inf dispatch_msg) st else st in
  let st := set_errno 0 st in
  let st := dispatcher_on st in
  let: (r, st) := syscall NR_getpid st in
  let ret_libc := to_int r in
  let st := dispatcher_off st in
  let st := set_errno 0 st in
  let st := dispatcher_on st in
  let: (r, st) := x86_64_syscall0 NR_getpid st in
  let ret_not_libc := to_int r in
  let st := dispatcher_off st in
  let st := (prctl PR_SYS_DISPATCH_OFF 0 0 false st).2 in
  let st := if negb (ret_libc =? pid) then log (Pr_fail pid_msg) st else st in
  if negb (ret_not_libc =? NR_getpid) then log (Pr_fail getpid_msg) st
  else st.

(** The body of the [do ... while] loop. *)
Definition iteration (libc_ok : bool) (pid begin end_ : Z) (st : state)
    : flow * state :=
  let: (fl, st) := test_case_1 st in
  if fl is Fall then
    let: (fl, st) := test_case_2 st in
    if fl is Fall then
      let st := if EXERCISE_X86_SYSCALL && libc_ok
                then test_case_3 pid begin end_ st else st in
      (Continue, log Inc_counter st)
    else (fl, st)
  else (fl, st).

(** The loop, with a bound on the number of turns, up to the label
    [err]: the result carries [rc]. *)
Fixpoint stress_loop (libc_ok : bool) (pid begin end_ : Z) (fuel : nat)
    (st : state) : option (exit_status * state) :=
  if fuel is fuel'.+1 then
    let: (fl, st) := iteration libc_ok pid begin end_ st in
    match fl with
    | Goto_err => Some (EXIT_NOT_IMPLEMENTED, st)
    | Break => Some (EXIT_SUCCESS, st)
    | _ =>
      let: (k, st) := keep_stressing_call st in
      if k then stress_loop libc_ok pid begin end_ fuel' st
      else Some (EXIT_SUCCESS, st)
    end
  else None.

(** The state in which the stressor is entered. *)
Definition fresh : state :=
  State (Siginfo 0 0) SYSCALL_DISPATCH_FILTER_ALLOW 0 0 0 0 [::].

Definition stress_usersyscall (fuel : nat) : option (exit_status * state) :=
  let scan := stress_sigsys_libc_mapping (proc_self_maps o) in
  let libc_ok := scan.1 =? 0 in
  let pid := getpid o in
  let st := log (Sigaction (ret_of (sigaction_ok o))) fresh in
  if ret_of (sigaction_ok o) <? 0 then
    Some (EXIT_NO_RESOURCE, log (Pr_fail "sigaction SIGSYS") st)
  else stress_loop libc_ok pid scan.2.1 scan.2.2 fuel st.

End Stressor.

(** ** Vocabulary for the properties *)

(** [needle] occurs in [hay]. *)
Definition contains (needle hay : string) : Prop :=
  exists pre post, hay = (pre ++ needle ++ post)%string.

(** A line of /proc/self/maps that describes executable code of the C
    library: all eight fields are there, the region is mapped r-xp, and
    the path names a shared object called libc. *)
Definition libc_text (l : maps_line) : Prop :=
  [/\ n_conv l = 8, perm l = "r-xp"%string,
      contains ".so" (libc_path l)
    & contains "/libc-" (libc_path l) \/ contains "/libc.so" (libc_path l)].

(** What [sscanf] and the kernel guarantee of a converted line: [%4s]
    stores at most four characters, and a region is not empty and lies
    in the address space. *)
Definition well_formed (l : maps_line) : Prop :=
  [/\ (String.length (perm l) <= 4)%N,
      0 <= map_begin l < map_end l & map_end l <= UINTPTR_MAX].

(** The test the scan applies to a line. *)
Definition matches (l : maps_line) : bool :=
  (n_conv l =? 8) && strncmp_eq (perm l) "r-xp" 4
  && strstr (libc_path l) ".so"
  && (strstr (libc_path l) "/libc-" || strstr (libc_path l) "/libc.so").

(** ** The listing behind the scan *)

(** A region as the kernel lists it in /proc/self/maps: its bounds, its
    four permission characters, the number of characters the line holds
    before the path (bounds, permissions, offset, device, inode and
    padding), and the path of the file behind the region, empty for an
    anonymous one. *)
Record mapping := Mapping {
  m_begin : Z;
  m_end : Z;
  m_perm : string;
  m_head : nat;
  m_path : string
}.

Definition PATH_MAX : nat := 4096.

(** [isspace] in the C locale. *)
Definition isspace (c : ascii) : bool :=
  let n := nat_of_ascii c in (n == 32)%N || ((9 <= n)%N && (n <= 13)%N).

(** The conversion [%Ns] of sscanf: white space is skipped, then the
    characters up to the next white space are stored, [width] of them at
    most. *)
Fixpoint skip_space (s : string) : string :=
  if s is String c s' then if isspace c then skip_space s' else s
  else EmptyString.

Fixpoint word (s : string) : string :=
  if s is String c s' then
    if isspace c then EmptyString else String c (word s')
  else EmptyString.

Definition scan_s (width : nat) (s : string) : string :=
  String.substring 0 width (word (skip_space s)).

(** Lines 139-146: what [fgets] and [sscanf] make of the line of a region,
    when the line fits the buffer.  The bounds are read back as they are
    printed; [%4s] and [%4096s] store a word each; the eighth
    conversion fails on a line without a path, and [libc_path] is then
    not looked at. *)
Definition sscanf_line (m : mapping) : maps_line :=
  let path := scan_s PATH_MAX (m_path m) in
  Maps_line (if path is EmptyString then 7 else 8) (m_begin m) (m_end m)
            (scan_s 4 (m_perm m)) path.

(** No white space in [s]. *)
Fixpoint no_space (s : string) : bool :=
  if s is String c s' then ~~ isspace c && no_space s' else true.

(** What the kernel guarantees of a line: the region is not empty and
    lies in the address space, the permissions are four characters
    without white space, and (here an assumption) the line with its
    newline fits the 1024-byte buffer of [fgets]. *)
Definition listed (m : mapping) : Prop :=
  [/\ 0 <= m_begin m < m_end m, m_end m <= UINTPTR_MAX,
      String.length (m_perm m) = 4%N, no_space (m_perm m)
    & (m_head m + String.length (m_path m) < 1023)%N].

(** A read+execute region whose backing path names the C library, in the
    words of the specification. *)
Definition names_libc (m : mapping) : Prop :=
  [/\ m_perm m = "r-xp"%string, contains ".so" (m_path m)
    & contains "/libc-" (m_path m) \/ contains "/libc.so" (m_path m)].

(** The same of the path as the scan sees it: cut at its first white
    space. *)
Definition libc_region (m : mapping) : Prop :=
  [/\ m_perm m = "r-xp"%string,
      contains ".so" (scan_s PATH_MAX (m_path m))
    & contains "/libc-" (scan_s PATH_MAX (m_path m))
      \/ contains "/libc.so" (scan_s PATH_MAX (m_path m))].

(** The scan of a listing. *)
Definition scan_listing (ms : seq mapping) : Z * (Z * Z) :=
  stress_sigsys_libc_mapping (Some [seq sscanf_line m | m <- ms]).

(** A C library installed under a directory with a space in its name. *)
Definition spaced_libc : mapping :=
  Mapping 0x7f3a10028000 0x7f3a101bd000 "r-xp" 73 "/opt/my libs/libc.so.6".

(** A listing with two executable regions of the C library and the text
    of another library. *)
Definition sample_listing : seq mapping :=
  [:: Mapping 0x7f3a10000000 0x7f3a10028000 "r--p" 73
              "/usr/lib/x86_64-linux-gnu/libc.so.6";
      Mapping 0x7f3a10028000 0x7f3a101bd000 "r-xp" 73
              "/usr/lib/x86_64-linux-gnu/libc.so.6";
      Mapping 0x7f3a10400000 0x7f3a10420000 "r-xp" 73
              "/opt/compat/lib/libc-2.31.so (deleted)";
      Mapping 0x7f3a10500000 0x7f3a10502000 "rw-p" 73 "";
      Mapping 0x7f3a10600000 0x7f3a10625000 "r-xp" 73
              "/usr/lib/x86_64-linux-gnu/ld-linux-x86-64.so.2"].

(** errno after a call of the C library's [syscall]. *)
Definition errno_after (r : sysres) (before : Z) : Z :=
  if new_errno r is Some e then e else before.

(** [st'] is [st] after some more calls. *)
Definition extends (st st' : state) : Prop :=
  exists tl, trace st' = trace st ++ tl.

(** ** Sample inputs *)

(** A listing with two executable regions of the C library. *)
Definition sample_maps : seq maps_line :=
  [:: Maps_line 8 0x7f3a10000000 0x7f3a10028000 "r--p"
                "/usr/lib/x86_64-linux-gnu/libc.so.6";
      Maps_line 8 0x7f3a10028000 0x7f3a101bd000 "r-xp"
                "/usr/lib/x86_64-linux-gnu/libc.so.6";
      Maps_line 8 0x7f3a10400000 0x7f3a10420000 "r-xp"
                "/opt/compat/lib/libc-2.31.so";
      Maps_line 7 0x7f3a10500000 0x7f3a10502000 "rw-p" "";
      Maps_line 8 0x7f3a10600000 0x7f3a10625000 "r-xp"
                "/usr/lib/x86_64-linux-gnu/ld-linux-x86-64.so.2"].

(** A kernel without the dispatch facility: every reserved system call
    fails with ENOSYS. *)
Definition no_dispatch : oracle :=
  Oracle (Some sample_maps) 4242 true (fun _ => (true, 0))
         (fun _ => Sysres None (-1) (Some ENOSYS)) (fun _ => true).

(** A kernel that answers the reserved system call with EINVAL. *)
Definition odd_errno : oracle :=
  Oracle (Some sample_maps) 4242 true (fun _ => (true, 0))
         (fun _ => Sysres None (-1) (Some 22)) (fun _ => true).

(** ** Vocabulary for the properties of a whole run *)

(** The bogo-op counter: the number of [inc_counter] calls so far. *)
Definition is_inc (e : event) : bool :=
  if e is Inc_counter then true else false.

Definition bogo_ops (st : state) : nat := seq.count is_inc (trace st).

(** [st'] has asked [keep_stressing] and counted as often as [st]. *)
Definition steady (st st' : state) : Prop :=
  n_keep st' = n_keep st /\ bogo_ops st' = bogo_ops st.

(** The kernel dispatched the call to user space: SIGSYS came with a
    siginfo that reports a user dispatch and no error, and the value that
    came back is the reserved number. *)
Definition dispatched (NR_syscalls : option Z) (r : sysres) : bool :=
  (to_int (value r) =? USR_SYSCALL NR_syscalls)
  && (if sigsys r is Some (Some i)
      then (si_code i =? SYS_USER_DISPATCH) && (si_errno i =? 0)
      else false).

(** The mode of the last prctl call in a trace. *)
Definition last_prctl (tr : seq event) : option Z :=
  foldl (fun acc e => if e is Prctl mode _ _ _ _ then Some mode else acc)
        None tr.

(** A kernel with the dispatch facility: a reserved call made with the
    selector on Allow fails with ENOSYS, one made with the selector on
    Block is dispatched; the loop is asked to stop after its fourth
    turn. *)
Definition dispatching : oracle :=
  Oracle (Some sample_maps) 4242 true (fun _ => (true, 0))
         (fun n => if odd n
                   then Sysres (Some (Some (Siginfo SYS_USER_DISPATCH 0)))
                               0xe000 None
                   else Sysres None (-1) (Some ENOSYS))
         (fun n => (n < 3)%N).

(** A kernel that refuses to switch the dispatcher on (EPERM). *)
Definition no_prctl : oracle :=
  Oracle (Some sample_maps) 4242 true (fun _ => (false, 1))
         (fun _ => Sysres None (-1) (Some ENOSYS)) (fun _ => true).

End Usersyscall.

(** * Properties of the page-remap stressor *)
Module RemapFacts.
Import Remap.

Section Arrays.

(** The [for] loops that fill an array write every cell once. *)
Lemma nth_fill_loop (f : nat -> nat) (n : nat) (order : seq nat) (k : nat) :
  nth 0 (foldl (fun ord i => set_nth 0 ord i (f i)) order (iota 0 n)) k
  = if k < n then f k else nth 0 order k.
Proof.
elim: n => [|n IH] //.
rewrite -{1}(addn1 n) iotaD add0n foldl_cat /= nth_set_nth /= IH ltnS.
by case: (ltngtP k n) => [||->].
Qed.

Lemma size_fill_loop (f : nat -> nat) (n : nat) (order : seq nat) :
  size (foldl (fun ord i => set_nth 0 ord i (f i)) order (iota 0 n))
  = maxn n (size order).
Proof.
elim: n => [|n IH]; first by rewrite max0n.
rewrite -{1}(addn1 n) iotaD add0n foldl_cat /= size_set_nth IH.
by rewrite maxnA (maxn_idPl (leqnSn n)).
Qed.

Lemma fill_loopE (f : nat -> nat) (n : nat) (order : seq nat) :
  size order <= n ->
  foldl (fun ord i => set_nth 0 ord i (f i)) order (iota 0 n) = mkseq f n.
Proof.
move=> le_sz; apply: (@eq_from_nth _ 0).
  by rewrite size_fill_loop size_mkseq; apply/maxn_idPl.
move=> k; rewrite size_fill_loop (maxn_idPl le_sz) => lt_kn.
by rewrite nth_fill_loop lt_kn nth_mkseq.
Qed.

Lemma order_reverseE (order : seq nat) :
  size order <= N_PAGES ->
  order_reverse order = mkseq (fun i => N_PAGES - 1 - i) N_PAGES.
Proof. exact: fill_loopE. Qed.

Lemma order_forwardE (order : seq nat) :
  size order <= N_PAGES -> order_forward order = iota 0 N_PAGES.
Proof. by move=> le_sz; rewrite /order_forward /fill_order fill_loopE // /mkseq map_id. Qed.

Lemma order_all_to_1E (order : seq nat) :
  size order <= N_PAGES -> order_all_to_1 order = nseq N_PAGES 0.
Proof.
by move=> le_sz; rewrite /order_all_to_1 /fill_order fill_loopE.
Qed.

Lemma mkseq_reverse (n : nat) : mkseq (fun i => n - 1 - i) n = rev (iota 0 n).
Proof.
apply: (@eq_from_nth _ 0); first by rewrite size_mkseq size_rev size_iota.
move=> i; rewrite size_mkseq => lt_i.
have lt_r : n - i.+1 < n by rewrite ltn_subrL (leq_trans _ lt_i).
rewrite nth_mkseq // nth_rev ?size_iota // nth_iota // add0n.
by rewrite subn1 subnS -!subn1 -!subnDA addnC.
Qed.

(** ** Exchanging two cells *)

Lemma exchK (i j : nat) : involutive (exch i j).
Proof.
move=> k; rewrite /exch.
case: (k =P j) => [->|/eqP nkj]; first by rewrite eqxx; case: (i =P j).
case: (k =P i) => [->|/eqP nki]; first by rewrite eqxx.
by rewrite (negbTE nkj) (negbTE nki).
Qed.

Lemma exch_lt (n i j k : nat) : i < n -> j < n -> (exch i j k < n) = (k < n).
Proof.
move=> lt_i lt_j; rewrite /exch.
case: (k =P j) => [->|_]; first by rewrite lt_i lt_j.
by case: (k =P i) => [->|_] //; rewrite lt_i lt_j.
Qed.

Lemma size_swap (order : seq nat) (i j : nat) :
  i < size order -> j < size order -> size (swap order i j) = size order.
Proof.
move=> lt_i lt_j; rewrite /swap !size_set_nth.
by rewrite (maxn_idPr lt_i) (maxn_idPr lt_j).
Qed.

Lemma nth_swap (order : seq nat) (i j k : nat) :
  nth 0 (swap order i j) k = nth 0 order (exch i j k).
Proof.
rewrite /swap /exch nth_set_nth /=; case: (k == j) => //.
by rewrite nth_set_nth /=; case: (k == i).
Qed.

Lemma swapE (order : seq nat) (i j : nat) :
  i < size order -> j < size order ->
  swap order i j = [seq nth 0 order (exch i j k) | k <- iota 0 (size order)].
Proof.
move=> lt_i lt_j; apply: (@eq_from_nth _ 0).
  by rewrite size_swap // size_map size_iota.
move=> k; rewrite size_swap // => lt_k.
by rewrite nth_swap (nth_map 0) ?size_iota // nth_iota.
Qed.

Lemma perm_exch_iota (n i j : nat) :
  i < n -> j < n -> perm_eq [seq exch i j k | k <- iota 0 n] (iota 0 n).
Proof.
move=> lt_i lt_j; apply: uniq_perm; rewrite ?iota_uniq //.
  by rewrite (map_inj_uniq (can_inj (@exchK i j))) iota_uniq.
move=> k; rewrite -{1}[k](@exchK i j) (mem_map (can_inj (@exchK i j))).
by rewrite !mem_iota !add0n /= exch_lt.
Qed.

Lemma perm_swap (order : seq nat) (i j : nat) :
  i < size order -> j < size order -> perm_eq (swap order i j) order.
Proof.
move=> lt_i lt_j; rewrite swapE // -{3}[order](mkseq_nth 0) /mkseq.
by rewrite (map_comp (nth 0 order)); apply/perm_map/perm_exch_iota.
Qed.

Lemma shuffle_from_perm (o : oracle) (n i : nat) (order : seq nat) (st : state) :
  (forall k, mwc32modn o k < size order) -> i + n <= size order ->
  perm_eq (shuffle_from o n i order st).1 order.
Proof.
move=> lt_draw; elim: n i order st lt_draw => [|n IH] i order st lt_draw le_n //=.
have lt_i : i < size order by rewrite (leq_trans _ le_n) // -addSnnS leq_addr.
have sz := size_swap lt_i (lt_draw (n_rand st)).
apply: perm_trans (perm_swap lt_i (lt_draw (n_rand st))).
by apply: IH; rewrite sz // addSnnS.
Qed.

Lemma order_random_perm (o : oracle) (order : seq nat) (st : state) :
  (forall k, mwc32modn o k < N_PAGES) -> size order <= N_PAGES ->
  perm_eq (order_random o order st).1 (iota 0 N_PAGES).
Proof.
move=> lt_draw le_sz; rewrite /order_random order_forwardE //.
by apply: shuffle_from_perm; rewrite size_iota.
Qed.

(** The state after the shuffle differs only in the number of draws. *)
Lemma shuffle_from_state (o : oracle) (n i : nat) (order : seq nat) (st : state) :
  (shuffle_from o n i order st).2
  = State (pgtab st) (shmem st) (duration st) (count st) (n_mlock st)
          (n_remap st) (n_time st) (n_rand st + n) (n_keep st) (trace st).
Proof.
elim: n i order st => [|n IH] i order st /=; first by rewrite addn0; case: st.
by rewrite IH /= addSnnS.
Qed.

End Arrays.

(** ** One remap pass *)

Section Pass.

Variable HAVE_MLOCK : bool.
Variable o : oracle.
Variable page_size : nat.
Variable order : seq nat.

Lemma ret_of_lt0 (ok : bool) : (ret_of ok <? 0)%Z = ~~ ok.
Proof. by case: ok. Qed.

Lemma ret_of_eq0 (ok : bool) : (ret_of ok =? 0)%Z = ok.
Proof. by case: ok. Qed.

(** What a turn of the loop that is not fatal leaves behind: page [i]
    shows page [order[i]] of the backing object, whose contents are
    untouched. *)
Lemma remap_page_ok (i : nat) (st : state) :
  ((remap_page HAVE_MLOCK o order i st).1 <? 0)%Z = false ->
  pgtab (remap_page HAVE_MLOCK o order i st).2
    = set_nth 0 (pgtab st) i (nth 0 order i)
  /\ shmem (remap_page HAVE_MLOCK o order i st).2 = shmem st.
Proof.
rewrite /remap_page /timed_remap /mlock /munlock /remap_file_pages /=.
rewrite !ret_of_eq0.
case: HAVE_MLOCK => /=.
  case: (remap_ok o (n_remap st)) => /=.
    by case: (mlock_ok o (n_mlock st)).
  by case: (mlock_ok o (n_mlock st)) => /=;
     case: (remap_ok o (n_remap st).+1).
by case: (remap_ok o (n_remap st)).
Qed.

Lemma remap_order_from_ok (n i : nat) (st : state) :
  ((remap_order_from HAVE_MLOCK o order n i st).1 <? 0)%Z = false ->
  shmem (remap_order_from HAVE_MLOCK o order n i st).2 = shmem st
  /\ forall k, nth 0 (pgtab (remap_order_from HAVE_MLOCK o order n i st).2) k
              = if i <= k < i + n then nth 0 order k else nth 0 (pgtab st) k.
Proof.
elim: n i st => [|n IH] i st /=.
  by move=> _; split=> // k; rewrite addn0; case: ltnP; rewrite ?andbF.
case E: (remap_page _ _ _ _ _) => [ret st1].
case: ifP => // nneg; move/IH => [-> nth_pg].
have := @remap_page_ok i st; rewrite E /= => /(_ nneg) [pg sh].
split; first by rewrite sh.
move=> k.
rewrite nth_pg pg nth_set_nth /= addSnnS.
case: (ltngtP i k) => [lt_ik|gt_ik|<-] //=.
by rewrite -addSnnS ltnS leq_addr.
Qed.

Lemma remap_order_fatal (n i : nat) (st : state) :
  ((remap_order_from HAVE_MLOCK o order n i st).1 <? 0)%Z = true ->
  exists tr, trace (remap_order_from HAVE_MLOCK o order n i st).2
             = rcons tr (Pr_fail remap_fail_msg).
Proof.
elim: n i st => [|n IH] i st //=.
case E: (remap_page _ _ _ _ _) => [ret st1].
by case: ifP => _; [exists (trace st1) | apply: IH].
Qed.

Lemma data_get_page (st : state) (k : nat) :
  0 < stride page_size ->
  data_get page_size st (k * stride page_size)
  = nth 0 (shmem st) (nth 0 (pgtab st) k * stride page_size).
Proof. by move=> gt0; rewrite /data_get mulnK // modnMl addn0. Qed.

Lemma check_order_fromE (st : state) (n i : nat) :
  check_order_from page_size st order n i
  = ~~ all (fun k => data_get page_size st (k * stride page_size)
                     == nth 0 order k) (iota i n).
Proof.
elim: n i => [|n IH] i //=.
by case: eqP => //= _; rewrite IH.
Qed.

Lemma remap_order_verified (st : state) :
  0 < stride page_size -> tagged page_size st ->
  (forall i, i < N_PAGES -> nth 0 order i < N_PAGES) ->
  ((remap_order HAVE_MLOCK o order st).1 <? 0)%Z = false ->
  forall i, i < N_PAGES ->
    data_get page_size (remap_order HAVE_MLOCK o order st).2
             (i * stride page_size) = nth 0 order i.
Proof.
move=> gt0 /allP tg lt_ord /remap_order_from_ok [sh pg] i lt_i.
rewrite data_get_page // /remap_order sh pg add0n /= lt_i.
by apply/eqP/tg; rewrite mem_iota add0n /=; apply: lt_ord.
Qed.

(** ** Initialisation *)

Lemma pgtab_init_loop (l : seq nat) (st : state) :
  pgtab (foldl (fun st i => data_set page_size st (i * stride page_size)
                                     (to_mapdata i)) st l) = pgtab st.
Proof. by elim: l st => [|x l IH] st //=; rewrite IH. Qed.

Lemma shmem_init_loop (l : seq nat) (st : state) (k : nat) :
  0 < stride page_size -> pgtab st = iota 0 N_PAGES ->
  all (fun i => i < N_PAGES) l ->
  nth 0 (shmem (foldl (fun st i => data_set page_size st (i * stride page_size)
                                            (to_mapdata i)) st l))
        (k * stride page_size)
  = if k \in l then to_mapdata k else nth 0 (shmem st) (k * stride page_size).
Proof.
move=> gt0; elim: l st => [|x l IH] st pg //= /andP [lt_x lt_l].
rewrite IH // in_cons /data_set /= pg mulnK // modnMl addn0 nth_iota // add0n.
rewrite nth_set_nth /= eqn_pmul2r //.
by case: (k \in l); rewrite ?orbT // orbF; case: eqP => // ->.
Qed.

Lemma to_mapdata_page (k : nat) : k < N_PAGES -> to_mapdata k = k.
Proof.
move=> lt_k; apply: modn_small; apply: leq_trans lt_k _.
by vm_compute.
Qed.

Lemma tagged_init : 0 < stride page_size ->
  tagged page_size (init_tags page_size (fresh page_size)).
Proof.
move=> gt0; apply/allP => k k_in; rewrite /init_tags shmem_init_loop //.
by rewrite k_in to_mapdata_page //; move: k_in; rewrite mem_iota.
Qed.

(** Nothing after the initialisation writes to the backing object. *)
Lemma tagged_shmem (st st' : state) :
  shmem st' = shmem st -> tagged page_size st' = tagged page_size st.
Proof. by rewrite /tagged => ->. Qed.

Lemma check_order_cases (ordering : string) (st : state) :
  check_order page_size order ordering st
  = if check_order_from page_size st order N_PAGES 0
    then pr_fail (check_order_msg ordering) st else st.
Proof. by []. Qed.

End Pass.

Lemma perm_in_range (order : seq nat) :
  perm_eq order (iota 0 N_PAGES) -> in_range order.
Proof.
move=> pe i lt_i; have sz : size order = N_PAGES.
  by rewrite (perm_size pe) size_iota.
have := mem_nth 0 (s := order) (n := i); rewrite sz => /(_ lt_i).
by rewrite (perm_mem pe) mem_iota.
Qed.

Lemma in_range_all_to_1 : in_range (nseq N_PAGES 0).
Proof. by move=> i _; rewrite nth_nseq; case: ifP. Qed.

(** ** The loop body *)

Section Loop.

Variable HAVE_MLOCK : bool.
Variable o : oracle.
Variable page_size : nat.
Variables unmapped mapped : bool.

(** A turn of the loop ends early only in a fatal remap failure. *)
Lemma iteration_break (st st' : state) :
  iteration HAVE_MLOCK o page_size unmapped mapped st = (Break, st') ->
  exists tr, trace st' = rcons tr (Pr_fail remap_fail_msg).
Proof.
have fatal order' s r s' :
    remap_order HAVE_MLOCK o order' s = (r, s') -> (r <? 0)%Z = true ->
    exists tr, trace s' = rcons tr (Pr_fail remap_fail_msg).
  move=> E neg; have := @remap_order_fatal HAVE_MLOCK o order' N_PAGES 0 s.
  by rewrite -/(remap_order _ _ _ _) E; apply.
rewrite /iteration.
set order1 := order_reverse _.
case E1: (remap_order _ _ _ _) => [r1 s1].
case neg: (r1 <? 0)%Z.
  by case=> <-; apply: fatal E1 neg.
case: (order_random _ _ _) => order2 s2'.
case E2: (remap_order _ _ _ _) => [r2 s2].
case neg2: (r2 <? 0)%Z.
  by case=> <-; apply: fatal E2 neg2.
set order3 := order_all_to_1 _.
case E3: (remap_order _ _ _ _) => [r3 s3].
case neg3: (r3 <? 0)%Z.
  by case=> <-; apply: fatal E3 neg3.
set order4 := order_forward _.
case E4: (remap_order _ _ _ _) => [r4 s4].
case neg4: (r4 <? 0)%Z.
  by case=> <-; apply: fatal E4 neg4.
by [].
Qed.

End Loop.

(** ** Counting the draws that lead to each order *)

Section Counting.

Variable m : nat.
Variable sh : m.+1.-tuple 'I_m.+1 -> seq nat.
Hypothesis sh_perm : forall d, perm_eq (sh d) (iota 0 m.+1).

Lemma val_pack d : [seq val j | j <- pack sh d] = sh d.
Proof.
have sz : size (sh d) = m.+1 by rewrite (perm_size (sh_perm d)) size_iota.
apply: (@eq_from_nth _ 0); first by rewrite size_map size_tuple.
move=> i; rewrite size_map size_tuple => lt_i.
rewrite (nth_map ord0) ?size_tuple // -(tnth_nth _ _ (Ordinal lt_i)).
rewrite tnth_mktuple /= inordK //.
have := mem_nth 0 (s := sh d) (n := i); rewrite sz => /(_ lt_i).
by rewrite (perm_mem (sh_perm d)) mem_iota.
Qed.

Lemma uniq_pack d : uniq (pack sh d).
Proof.
rewrite -(map_inj_uniq val_inj) val_pack (perm_uniq (sh_perm d)).
exact: iota_uniq.
Qed.

Lemma perm_val_uniq (t : m.+1.-tuple 'I_m.+1) :
  uniq t -> perm_eq [seq val j | j <- t] (iota 0 m.+1).
Proof.
move=> uq; apply: uniq_perm; rewrite ?iota_uniq ?(map_inj_uniq val_inj) //.
have [] // := @uniq_min_size _ [seq val j | j <- t] (iota 0 m.+1).
- by rewrite (map_inj_uniq val_inj).
- by move=> x /mapP [j _ ->]; rewrite mem_iota add0n /=.
- by rewrite size_iota size_map size_tuple.
Qed.

Lemma fibres_partition (c : nat) :
  (forall p, perm_eq p (iota 0 m.+1) -> #|[set d | sh d == p]| = c) ->
  m.+1 ^ m.+1 = m.+1`! * c.
Proof.
move=> eq_c.
have -> : m.+1 ^ m.+1 = #|{: m.+1.-tuple 'I_m.+1}| by rewrite card_tuple card_ord.
rewrite -sum1_card.
rewrite (partition_big (pack sh) (fun t => uniq t)) /=; first by move=> d _; apply: uniq_pack.
rewrite (eq_bigr (fun _ => c)).
  move=> t uq; rewrite sum1dep_card -(eq_c _ (perm_val_uniq uq)).
  apply: eq_card => d; rewrite !inE -val_pack.
  by rewrite (inj_eq (inj_map val_inj)).
rewrite sum_nat_const; congr (_ * _).
have := card_uniq_tuples m.+1 (mem 'I_m.+1); rewrite card_ord ffactnn => <-.
apply: eq_card => t; rewrite !inE.
suff -> : all (mem 'I_m.+1) t by [].
exact/allP.
Qed.

End Counting.

Lemma eq_in_foldl (T : eqType) (R : Type) (f g : R -> T -> R) (z : R)
    (s : seq T) :
  (forall r x, x \in s -> f r x = g r x) -> foldl f z s = foldl g z s.
Proof.
elim: s z => [|x s IH] z eq_fg //=.
rewrite eq_fg ?mem_head //; apply: IH => r y y_in.
by apply: eq_fg; rewrite in_cons y_in orbT.
Qed.

Lemma shuffle_fromE (o : oracle) (n i : nat) (order : seq nat) (st : state) :
  (shuffle_from o n i order st).1
  = foldl (fun ord k => swap ord k (mwc32modn o (n_rand st + (k - i))))
          order (iota i n).
Proof.
elim: n i order st => [|n IH] i order st //=.
rewrite IH /= subnn addn0; apply: eq_in_foldl => ord k.
rewrite mem_iota => /andP [lt_ik _].
by rewrite addSnnS -subSn // subSS.
Qed.

Lemma draws_lt (d : N_PAGES.-tuple 'I_N_PAGES) (k : nat) :
  mwc32modn (with_draws [seq val j | j <- d]) k < N_PAGES.
Proof.
rewrite /with_draws /=; case: (ltnP k (size d)) => [lt_k|ge_k].
  by rewrite (nth_map ord0).
by rewrite nth_default // size_map.
Qed.

Lemma shuffled_perm (d : N_PAGES.-tuple 'I_N_PAGES) :
  perm_eq (shuffled [seq val j | j <- d]) (iota 0 N_PAGES).
Proof.
apply: order_random_perm; first exact: draws_lt.
by rewrite size_nseq.
Qed.

Lemma not_equiprobable : ~ equiprobable.
Proof.
case=> c eq_c.
have E := @fibres_partition 511 (fun d => shuffled [seq val j | j <- d])
                            shuffled_perm c eq_c.
have : 3 %| 511.+1 ^ 511.+1.
  rewrite E; apply: dvdn_mulr; exact: dvdn_fact.
rewrite Euclid_dvdX; last by [].
by [].
Qed.

(** C2, as stated, fails: the order of the collapse pass, all of whose
    entries are page 0, is not a permutation of the page indices. *)
Lemma collapse_order_not_permutation :
  ~ perm_eq (order_all_to_1
               (order_random calm (order_reverse (nseq N_PAGES 0))
                             (fresh 4096)).1)
            (iota 0 N_PAGES).
Proof.
have lt_draw k : mwc32modn calm k < N_PAGES by apply: ltn_pmod.
have le_rev : size (order_reverse (nseq N_PAGES 0)) <= N_PAGES.
  by rewrite order_reverseE ?size_nseq // size_mkseq.
have := order_random_perm (fresh 4096) lt_draw le_rev.
move/perm_size => sz.
have -> : order_all_to_1
            (order_random calm (order_reverse (nseq N_PAGES 0))
                          (fresh 4096)).1 = nseq N_PAGES 0.
  by apply: order_all_to_1E; rewrite sz size_iota.
by move/perm_mem/(_ 1); rewrite mem_nseq mem_iota.
Qed.

(** C2, amended.  The reverse, random and identity orders are
    permutations of the page indices (the random one whenever the
    generator keeps its draws below [N_PAGES]); the collapse order is not:
    it is page 0 at every index. *)
Theorem orders_of_the_loop (o : oracle) (order0 : seq nat) (st : state) :
  size order0 <= N_PAGES -> (forall k, mwc32modn o k < N_PAGES) ->
  [/\ perm_eq (order_reverse order0) (iota 0 N_PAGES),
      perm_eq (order_random o order0 st).1 (iota 0 N_PAGES),
      order_all_to_1 order0 = nseq N_PAGES 0
    & perm_eq (order_forward order0) (iota 0 N_PAGES)].
Proof.
move=> le_sz lt_draw; split.
- rewrite (order_reverseE le_sz) mkseq_reverse perm_rev; exact: perm_refl.
- exact: order_random_perm.
- exact: order_all_to_1E.
- rewrite (order_forwardE le_sz); exact: perm_refl.
Qed.

Lemma orders_of_the_loop_witness :
  [/\ perm_eq (order_reverse (nseq N_PAGES 0)) (iota 0 N_PAGES),
      perm_eq (order_random calm (nseq N_PAGES 0) (fresh 4096)).1
              (iota 0 N_PAGES),
      order_all_to_1 (nseq N_PAGES 0) = nseq N_PAGES 0
    & perm_eq (order_forward (nseq N_PAGES 0)) (iota 0 N_PAGES)].
Proof.
apply: orders_of_the_loop; first by reflexivity.
move=> k; apply: ltn_pmod; reflexivity.
Defined.

(** C3, as stated, fails: the permutations of the page indices are not
    equally likely.  There are [N_PAGES ^ N_PAGES] sequences of draws, a
    power of two, and [N_PAGES`!] permutations, a multiple of three. *)
Lemma shuffle_not_equiprobable : ~ equiprobable.
Proof. exact: not_equiprobable. Qed.

(** C3, amended.  The random order is built by exchanging every cell [i]
    in turn with a cell drawn from the whole array, not only from the
    cells that have not been visited; the result is always a permutation
    of the page indices, but the permutations are not equally likely. *)
Theorem random_order_by_exchanges :
  [/\ forall d : seq nat,
        shuffled d = foldl (fun ord i => swap ord i (nth 0 d i))
                           (iota 0 N_PAGES) (iota 0 N_PAGES),
      forall d : N_PAGES.-tuple 'I_N_PAGES,
        perm_eq (shuffled [seq val j | j <- d]) (iota 0 N_PAGES)
    & ~ equiprobable].
Proof.
split; [move=> d | exact: shuffled_perm | exact: not_equiprobable].
have le_sz : size (nseq N_PAGES 0) <= N_PAGES by rewrite size_nseq.
rewrite /shuffled /order_random shuffle_fromE (order_forwardE le_sz).
by apply: eq_in_foldl => ord k _; rewrite /= subn0.
Qed.

(** ** Calls made for one page, and the end of a pass *)

Lemma remap_page_trace H o order i st :
  trace (remap_page H o order i st).2 = trace st ++ page_calls H o order i st
  /\ (remap_page H o order i st).1 = page_ret H o st.
Proof.
rewrite /remap_page /page_calls /page_ret /timed_remap /mlock /munlock
        /remap_file_pages /=.
case: H => /=.
  case: (mlock_ok o (n_mlock st)); case: (remap_ok o (n_remap st)) => /=;
    by rewrite -!cats1 -!catA.
by case: (remap_ok o (n_remap st)); rewrite /= -cats1.
Qed.

Lemma remap_order_from_cat H o order (k n i : nat) (st : state) :
  remap_order_from H o order (k + n) i st
  = if ((remap_order_from H o order k i st).1 <? 0)%Z
    then remap_order_from H o order k i st
    else remap_order_from H o order n (i + k) (remap_order_from H o order k i st).2.
Proof.
elim: k i st => [|k IH] i st /=; first by rewrite addn0.
case: (remap_page _ _ _ _ _) => ret st1.
case neg: (ret <? 0)%Z => /=; first by [].
by rewrite IH addSnnS.
Qed.

Lemma remap_order_abort H o order (n i : nat) (st : state) :
  i < n ->
  ((remap_order_from H o order i 0 st).1 <? 0)%Z = false ->
  ((remap_page H o order i (remap_order_from H o order i 0 st).2).1 <? 0)%Z
    = true ->
  remap_order_from H o order n 0 st
  = ((-1)%Z, pr_fail remap_fail_msg
               (remap_page H o order i (remap_order_from H o order i 0 st).2).2).
Proof.
move=> lt_in ok_pre bad.
rewrite -(subnKC (ltnW lt_in)) remap_order_from_cat ok_pre add0n.
rewrite -(subnSK lt_in) /=.
by case: (remap_page _ _ _ _ _) bad => ret st1 /= ->.
Qed.

Section LoopFatal.
Variable HAVE_MLOCK : bool.
Variable o : oracle.
Variable page_size : nat.
Variables unmapped mapped : bool.

Lemma iteration_fatal (st : state) (k : nat) :
  k < 4 ->
  (forall j, j < k ->
     ((nth (0%Z, st) (passes HAVE_MLOCK o page_size st) j).1 <? 0)%Z = false) ->
  ((nth (0%Z, st) (passes HAVE_MLOCK o page_size st) k).1 <? 0)%Z = true ->
  iteration HAVE_MLOCK o page_size unmapped mapped st
  = (Break, (nth (0%Z, st) (passes HAVE_MLOCK o page_size st) k).2).
Proof.
rewrite /iteration /passes.
set order1 := order_reverse _.
case: (remap_order HAVE_MLOCK o order1 st) => r1 s1; cbv beta iota zeta.
rewrite [(r1, s1).2]/=.
case: (order_random o order1 _) => order2 s1'; cbv beta iota zeta.
rewrite [(order2, s1').1]/= [(order2, s1').2]/=.
case: (remap_order HAVE_MLOCK o order2 s1') => r2 s2; cbv beta iota zeta.
rewrite [(r2, s2).2]/=.
set order3 := order_all_to_1 _.
case: (remap_order HAVE_MLOCK o order3 _) => r3 s3; cbv beta iota zeta.
rewrite [(r3, s3).2]/=.
set order4 := order_forward _.
case: (remap_order HAVE_MLOCK o order4 _) => r4 s4; cbv beta iota zeta.
case: k => [|[|[|[|k]]]] // _ pre bad.
- by move: bad; rewrite [nth _ _ _]/= [(r1, s1).1]/= => ->.
- have := pre 0 isT; rewrite [nth _ _ _]/= [(r1, s1).1]/= => ->.
  by move: bad; rewrite [nth _ _ _]/= [(r2, s2).1]/= => ->.
- have := pre 0 isT; rewrite [nth _ _ _]/= [(r1, s1).1]/= => ->.
  have := pre 1 isT; rewrite [nth _ _ _]/= [(r2, s2).1]/= => ->.
  by move: bad; rewrite [nth _ _ _]/= [(r3, s3).1]/= => ->.
- have := pre 0 isT; rewrite [nth _ _ _]/= [(r1, s1).1]/= => ->.
  have := pre 1 isT; rewrite [nth _ _ _]/= [(r2, s2).1]/= => ->.
  have := pre 2 isT; rewrite [nth _ _ _]/= [(r3, s3).1]/= => ->.
  by move: bad; rewrite [nth _ _ _]/= [(r4, s4).1]/= => ->.
Qed.

Lemma stress_loop_break (fuel : nat) (st : state) :
  (iteration HAVE_MLOCK o page_size unmapped mapped st).1 = Break ->
  stress_loop HAVE_MLOCK o page_size unmapped mapped fuel.+1 st
  = Some (iteration HAVE_MLOCK o page_size unmapped mapped st).2.
Proof. by rewrite /=; case: (iteration _ _ _ _ _ _) => fl st' /= ->. Qed.

End LoopFatal.

(** C4, as stated, fails: with no pin held (mlock returned -1) a failed
    remap call is retried all the same. *)
Lemma retry_without_pin :
  trace (remap_page true flaky (iota 0 N_PAGES) 0 (fresh 4096)).2
  = [:: Mlock (Data_page 0) (-1);
        Remap_file_pages (Data_page 0) 0 0 0 (-1);
        Remap_file_pages (Data_page 0) 0 0 0 0]
  /\ remap_calls (trace (remap_page true flaky (iota 0 N_PAGES) 0
                                    (fresh 4096)).2) = 2.
Proof. by split. Qed.

(** C4, amended.  In a build with mlock, the calls made for page [i] are:
    mlock, the timed remap, munlock if the pin was obtained, and, whenever
    the timed remap failed, one more remap, which therefore runs without
    a pin; this retry does not depend on whether the pin was obtained.  In
    a build without mlock there is the one remap call and no retry.  The
    value tested for a fatal failure is that of the last remap call. *)
Theorem remap_page_retry (HAVE_MLOCK : bool) (o : oracle) (order : seq nat)
    (i : nat) (st : state) :
  [/\ trace (remap_page HAVE_MLOCK o order i st).2
        = trace st ++ page_calls HAVE_MLOCK o order i st,
      (remap_page HAVE_MLOCK o order i st).1 = page_ret HAVE_MLOCK o st
    & remap_calls (page_calls HAVE_MLOCK o order i st)
      = if HAVE_MLOCK && ~~ remap_ok o (n_remap st) then 2 else 1].
Proof.
have [tr rt] := remap_page_trace HAVE_MLOCK o order i st; split=> //.
rewrite /page_calls /remap_calls {tr rt}.
by case: HAVE_MLOCK; case: (mlock_ok o _); case: (remap_ok o _).
Qed.

(** C5.  When the last remap call for page [i] fails, the pass stops
    there: [remap_order] logs the failure and returns -1 in the state that
    page left, so no later page is touched.  A turn of the loop in which a
    pass fails ends at once with that state, and the loop ends with it
    whatever [keep_stressing] would answer. *)
Theorem fatal_remap_failure (HAVE_MLOCK : bool) (o : oracle)
    (page_size : nat) :
  [/\ forall order n i st,
        i < n ->
        ((remap_order_from HAVE_MLOCK o order i 0 st).1 <? 0)%Z = false ->
        ((remap_page HAVE_MLOCK o order i
            (remap_order_from HAVE_MLOCK o order i 0 st).2).1 <? 0)%Z = true ->
        remap_order_from HAVE_MLOCK o order n 0 st
        = ((-1)%Z,
           pr_fail remap_fail_msg
             (remap_page HAVE_MLOCK o order i
                (remap_order_from HAVE_MLOCK o order i 0 st).2).2),
      forall unmapped mapped st k,
        k < 4 ->
        (forall j, j < k ->
           ((nth (0%Z, st) (passes HAVE_MLOCK o page_size st) j).1 <? 0)%Z
           = false) ->
        ((nth (0%Z, st) (passes HAVE_MLOCK o page_size st) k).1 <? 0)%Z
        = true ->
        iteration HAVE_MLOCK o page_size unmapped mapped st
        = (Break, (nth (0%Z, st) (passes HAVE_MLOCK o page_size st) k).2),
      forall unmapped mapped st st',
        iteration HAVE_MLOCK o page_size unmapped mapped st = (Break, st') ->
        exists tr, trace st' = rcons tr (Pr_fail remap_fail_msg)
    & forall unmapped mapped fuel st,
        (iteration HAVE_MLOCK o page_size unmapped mapped st).1 = Break ->
        stress_loop HAVE_MLOCK o page_size unmapped mapped fuel.+1 st
        = Some (iteration HAVE_MLOCK o page_size unmapped mapped st).2].
Proof.
split.
- by move=> order n i st; apply: remap_order_abort.
- by move=> unmapped mapped st k; apply: iteration_fatal.
- by move=> unmapped mapped st st'; apply: iteration_break.
- by move=> unmapped mapped fuel st; apply: stress_loop_break.
Qed.

Lemma fatal_remap_failure_witness :
  remap_order_from true stuck (iota 0 N_PAGES) N_PAGES 0 (fresh 4096)
  = ((-1)%Z,
     pr_fail remap_fail_msg
             (remap_page true stuck (iota 0 N_PAGES) 0 (fresh 4096)).2).
Proof.
have [abort _ _ _] := fatal_remap_failure true stuck 4096.
apply: (abort (iota 0 N_PAGES) N_PAGES 0 (fresh 4096)); reflexivity.
Defined.

Section Metrics.
Variable HAVE_MLOCK : bool.
Variable o : oracle.
Variable page_size : nat.

Lemma metrics_log (e : event) (st : state) :
  metrics (log e st) = if is_metric e then rcons (metrics st) e else metrics st.
Proof. by rewrite /metrics /= filter_rcons. Qed.


Lemma remap_page_sample (order : seq nat) (i : nat) (st : state) :
  (duration (remap_page HAVE_MLOCK o order i st).2,
   count (remap_page HAVE_MLOCK o order i st).2)
  = if remap_ok o (n_remap st)
    then ((duration st + (time_now o (n_time st).+1 - time_now o (n_time st)))%float,
          (count st + 1)%float)
    else (duration st, count st).
Proof.
rewrite /remap_page /timed_remap /mlock /munlock /remap_file_pages /=.
case: HAVE_MLOCK => /=; last by case: (remap_ok o (n_remap st)).
by case: (remap_ok o (n_remap st)); case: (mlock_ok o (n_mlock st)).
Qed.

Lemma metrics_remap_page (order : seq nat) (i : nat) (st : state) :
  metrics (remap_page HAVE_MLOCK o order i st).2 = metrics st.
Proof.
rewrite /metrics; have [-> _] := remap_page_trace HAVE_MLOCK o order i st.
rewrite filter_cat /page_calls.
by case: HAVE_MLOCK; case: (mlock_ok o _); case: (remap_ok o _);
   rewrite /= ?cats0.
Qed.








Lemma init_loop_frame (l : seq nat) (st : state) :
  let st' := foldl (fun st i => data_set page_size st (i * stride page_size)
                                         (to_mapdata i)) st l in
  [/\ trace st' = trace st, count st' = count st & duration st' = duration st].
Proof. by elim: l st => [|x l IH] st //=; have [-> -> ->] := IH (data_set page_size st (x * stride page_size) (to_mapdata x)). Qed.



Lemma report_rate_zero (st : state) :
  count st = 0%float ->
  report_rate st = log (Metric metric_label 0%float) st.
Proof. by rewrite /report_rate => ->. Qed.

(** A run in which no remap call ever works. *)
Lemma remap_page_stuck (order : seq nat) (i : nat) (st : state) :
  (forall n, remap_ok o n = false) ->
  ((remap_page HAVE_MLOCK o order i st).1 <? 0)%Z = true
  /\ count (remap_page HAVE_MLOCK o order i st).2 = count st.
Proof.
move=> no; have := remap_page_sample order i st; rewrite no; case=> _ ->.
have [_ ->] := remap_page_trace HAVE_MLOCK o order i st.
by rewrite /page_ret !no; case: HAVE_MLOCK.
Qed.

Lemma stress_remap_stuck (fuel : nat) :
  mmap_data_ok o -> (forall n, remap_ok o n = false) ->
  exists st, stress_remap HAVE_MLOCK o page_size fuel.+1 = Some (EXIT_SUCCESS, st)
             /\ metrics st = [:: Metric metric_label 0%float].
Proof.
move=> mm no; rewrite /stress_remap mm [~~ true]/=.
set st0 := init_tags _ _.
have [tr0 c0 _] := init_loop_frame (iota 0 N_PAGES) (fresh page_size).
rewrite -/(init_tags page_size (fresh page_size)) -/st0 in tr0 c0.
set order1 := order_reverse (nseq N_PAGES 0).
have [bad cnt] := remap_page_stuck order1 0 st0 no.
have brk := @iteration_fatal HAVE_MLOCK o page_size (unmapped_ok o)
              (mmap_mapped_ok o && munmap_tail_ok o) st0 0 isT.
have E1 : remap_order HAVE_MLOCK o order1 st0
          = ((-1)%Z, pr_fail remap_fail_msg (remap_page HAVE_MLOCK o order1 0 st0).2).
  by apply: remap_order_abort.
have {}brk : iteration HAVE_MLOCK o page_size (unmapped_ok o)
              (mmap_mapped_ok o && munmap_tail_ok o) st0
             = (Break, pr_fail remap_fail_msg (remap_page HAVE_MLOCK o order1 0 st0).2).
  rewrite brk //; rewrite /passes [nth _ _ _]/= -/order1 E1 //.
rewrite stress_loop_break brk //.
eexists; split; first by [].
have c1 : count (pr_fail remap_fail_msg
                    (remap_page HAVE_MLOCK o order1 0 st0).2) = 0%float.
  by rewrite [count _]/= cnt c0.
rewrite (report_rate_zero c1).
rewrite metrics_log [is_metric _]/= /pr_fail metrics_log [is_metric _]/=.
by rewrite metrics_remap_page /metrics tr0.
Qed.

End Metrics.



(** C10.  When [count] is zero at teardown the rate is 0 whatever
    [duration] holds, and so is the reported metric; in particular a run
    in which no remap call ever succeeds reports exactly 0. *)
Theorem rate_without_success :
  (forall st, count st = 0%float ->
     report_rate st = log (Metric metric_label 0%float) st)
  /\ (forall HAVE_MLOCK o page_size fuel,
        mmap_data_ok o -> (forall n, remap_ok o n = false) ->
        exists st,
          stress_remap HAVE_MLOCK o page_size fuel.+1
          = Some (EXIT_SUCCESS, st)
          /\ metrics st = [:: Metric metric_label 0%float]).
Proof.
split; first exact: report_rate_zero.
by move=> H o page_size fuel; apply: stress_remap_stuck.
Qed.

Lemma rate_without_success_witness :
  exists st,
    stress_remap true stuck 4096 1 = Some (EXIT_SUCCESS, st)
    /\ metrics st = [:: Metric metric_label 0%float].
Proof.
have [_ run] := rate_without_success.
apply: (run true stuck 4096 0); first by reflexivity.
move=> n; reflexivity.
Defined.

(** ** Properties of a whole run *)

Section Frames.
Variable HAVE_MLOCK : bool.
Variable o : oracle.
Variable page_size : nat.

Lemma remap_page_frame (order : seq nat) (i : nat) (st : state) :
  [/\ shmem (remap_page HAVE_MLOCK o order i st).2 = shmem st,
      n_keep (remap_page HAVE_MLOCK o order i st).2 = n_keep st
    & n_rand (remap_page HAVE_MLOCK o order i st).2 = n_rand st].
Proof.
rewrite /remap_page /timed_remap /mlock /munlock /remap_file_pages /=.
rewrite !ret_of_eq0.
case: HAVE_MLOCK => /=; last by case: (remap_ok o (n_remap st)).
by case: (remap_ok o (n_remap st)); case: (mlock_ok o (n_mlock st)) => /=.
Qed.

Lemma remap_order_from_frame (order : seq nat) (n i : nat) (st : state) :
  [/\ shmem (remap_order_from HAVE_MLOCK o order n i st).2 = shmem st,
      n_keep (remap_order_from HAVE_MLOCK o order n i st).2 = n_keep st
    & n_rand (remap_order_from HAVE_MLOCK o order n i st).2 = n_rand st].
Proof.
elim: n i st => [|n IH] i st //=.
have [sh nk nr] := remap_page_frame order i st.
case: (remap_page _ _ _ _ _) sh nk nr => ret st1 /= sh nk nr.
case: (ret <? 0)%Z; first by [].
by have [-> -> ->] := IH i.+1 st1.
Qed.

Lemma check_order_frame (order : seq nat) (ordering : string) (st : state) :
  [/\ shmem (check_order page_size order ordering st) = shmem st,
      pgtab (check_order page_size order ordering st) = pgtab st,
      n_keep (check_order page_size order ordering st) = n_keep st
    & n_rand (check_order page_size order ordering st) = n_rand st].
Proof. by rewrite check_order_cases; case: (check_order_from _ _ _ _ _). Qed.

Lemma illegal_remaps_frame (a : addr) (order : seq nat) (st : state) :
  (if a is Data_page _ then false else true) ->
  [/\ shmem (illegal_remaps o a order st) = shmem st,
      pgtab (illegal_remaps o a order st) = pgtab st,
      n_keep (illegal_remaps o a order st) = n_keep st
    & exists r1 r2 r3,
        trace (illegal_remaps o a order st)
        = trace st ++ [:: Remap_file_pages a 0 0 0 r1;
                          Remap_file_pages a 0 0 all_ones r2;
                          Remap_file_pages a all_ones (nth 0 order 0) 0 r3]].
Proof.
rewrite /illegal_remaps /remap_file_pages /=.
case: a => [i|_|_] //; split=> //; do 3!eexists; by rewrite -!cats1 -!catA.
Qed.

End Frames.

Lemma order_random_state (o : oracle) (order : seq nat) (st : state) :
  (order_random o order st).2
  = State (pgtab st) (shmem st) (duration st) (count st) (n_mlock st)
          (n_remap st) (n_time st) (n_rand st + N_PAGES) (n_keep st)
          (trace st).
Proof. exact: shuffle_from_state. Qed.

Lemma order_random_size (o : oracle) (order : seq nat) (st : state) :
  (forall k, mwc32modn o k < N_PAGES) -> size order <= N_PAGES ->
  size (order_random o order st).1 = N_PAGES.
Proof.
move=> lt_draw le_sz; have := perm_size (order_random_perm st lt_draw le_sz).
by move=> ->; rewrite size_iota.
Qed.

Section Invariant.
Variable HAVE_MLOCK : bool.
Variable o : oracle.
Variable page_size : nat.
Variable P : pred event.

Hypothesis P_page : forall order i st,
  in_range order -> i < N_PAGES -> all P (page_calls HAVE_MLOCK o order i st).
Hypothesis P_fatal : P (Pr_fail remap_fail_msg).
Hypothesis P_probe : forall a prot pgoff flags ret,
  (if a is Data_page _ then false else true) ->
  P (Remap_file_pages a prot pgoff flags ret).
Hypothesis P_inc : P Inc_counter.

Lemma pass_keeps (order : seq nat) (n i : nat) (st : state) :
  in_range order -> i + n <= N_PAGES -> all P (trace st) ->
  all P (trace (remap_order_from HAVE_MLOCK o order n i st).2).
Proof.
move=> rng; elim: n i st => [|n IH] i st //= le_n all_st.
have lt_i : i < N_PAGES by apply: leq_trans le_n; rewrite -addSnnS leq_addr.
have [tr _] := remap_page_trace HAVE_MLOCK o order i st.
have all_1 : all P (trace (remap_page HAVE_MLOCK o order i st).2).
  by rewrite tr all_cat all_st P_page.
case: (remap_page _ _ _ _ _) all_1 {tr} => ret st1 /= all_1.
case: (ret <? 0)%Z; first by rewrite /= all_rcons P_fatal.
by apply: IH => //; rewrite addSnnS.
Qed.

Lemma pass_kept (order : seq nat) (ordering : string) (st : state) :
  0 < stride page_size -> in_range order -> kept page_size P st ->
  kept page_size P (remap_order HAVE_MLOCK o order st).2
  /\ (((remap_order HAVE_MLOCK o order st).1 <? 0)%Z = false ->
      check_order page_size order ordering (remap_order HAVE_MLOCK o order st).2
      = (remap_order HAVE_MLOCK o order st).2).
Proof.
move=> gt0 rng [tg all_st].
have [sh _ _] := remap_order_from_frame HAVE_MLOCK o order N_PAGES 0 st.
split.
  split; first by rewrite (tagged_shmem _ sh).
  exact: pass_keeps.
move=> nneg; have rd := remap_order_verified gt0 tg rng nneg.
rewrite check_order_cases check_order_fromE.
suff -> : all (fun k => data_get page_size
                 (remap_order HAVE_MLOCK o order st).2
                 (k * stride page_size) == nth 0 order k)
              (iota 0 N_PAGES) by [].
by apply/allP => k; rewrite mem_iota add0n /= => /rd ->.
Qed.

Lemma illegal_kept (a : addr) (order : seq nat) (st : state) :
  (if a is Data_page _ then false else true) ->
  kept page_size P st -> kept page_size P (illegal_remaps o a order st).
Proof.
move=> na [tg all_st]; have [sh _ _ [r1 [r2 [r3 tr]]]] := illegal_remaps_frame o order st na.
split; first by rewrite (tagged_shmem _ sh).
by rewrite tr all_cat all_st /= !P_probe.
Qed.

Lemma iteration_kept (unmapped mapped : bool) (st : state) :
  0 < stride page_size -> (forall k, mwc32modn o k < N_PAGES) ->
  kept page_size P st ->
  kept page_size P (iteration HAVE_MLOCK o page_size unmapped mapped st).2.
Proof.
move=> gt0 lt_draw inv0; rewrite /iteration.
have sz0 : size (nseq N_PAGES 0) <= N_PAGES by rewrite size_nseq.
set order1 := order_reverse _.
have rng1 : in_range order1.
  rewrite /order1 (order_reverseE sz0) mkseq_reverse; apply: perm_in_range.
  rewrite perm_rev; exact: perm_refl.
have sz1 : size order1 <= N_PAGES.
  by rewrite /order1 (order_reverseE sz0) size_mkseq.
have [inv1 chk1] := pass_kept "reverse" gt0 rng1 inv0.
case: (remap_order HAVE_MLOCK o order1 st) inv1 chk1 => r1 s1.
cbv beta iota zeta; rewrite [(r1, s1).2]/= [(r1, s1).1]/= => inv1 chk1.
case neg1: (r1 <? 0)%Z; first by [].
rewrite (chk1 neg1).
have rng2 := perm_in_range (order_random_perm s1 lt_draw sz1).
have sz2 := order_random_size s1 lt_draw sz1.
have st2 := order_random_state o order1 s1.
case: (order_random o order1 s1) rng2 sz2 st2 => order2 s1'.
cbv beta iota zeta; rewrite [(order2, s1').1]/= [(order2, s1').2]/= => rng2 sz2 st2.
have inv1' : kept page_size P s1'.
  by case: inv1 => tg1 all1; split; rewrite st2.
have [inv2 chk2] := pass_kept "random" gt0 rng2 inv1'.
case: (remap_order HAVE_MLOCK o order2 s1') inv2 chk2 => r2 s2.
cbv beta iota zeta; rewrite [(r2, s2).2]/= [(r2, s2).1]/= => inv2 chk2.
case neg2: (r2 <? 0)%Z; first by [].
rewrite (chk2 neg2).
have le2 : size order2 <= N_PAGES by rewrite sz2.
set order3 := order_all_to_1 _.
have rng3 : in_range order3.
  by rewrite /order3 (order_all_to_1E le2); apply: in_range_all_to_1.
have le3 : size order3 <= N_PAGES.
  by rewrite /order3 (order_all_to_1E le2) size_nseq.
have [inv3 chk3] := pass_kept "all-to-1" gt0 rng3 inv2.
case: (remap_order HAVE_MLOCK o order3 s2) inv3 chk3 => r3 s3.
cbv beta iota zeta; rewrite [(r3, s3).2]/= [(r3, s3).1]/= => inv3 chk3.
case neg3: (r3 <? 0)%Z; first by [].
rewrite (chk3 neg3).
set order4 := order_forward _.
have rng4 : in_range order4.
  rewrite /order4 (order_forwardE le3); apply: perm_in_range; exact: perm_refl.
have [inv4 chk4] := pass_kept "forward" gt0 rng4 inv3.
case: (remap_order HAVE_MLOCK o order4 s3) inv4 chk4 => r4 s4.
cbv beta iota zeta; rewrite [(r4, s4).2]/= [(r4, s4).1]/= => inv4 chk4.
case neg4: (r4 <? 0)%Z; first by [].
rewrite (chk4 neg4) [(_, _).2]/=.
have inv5 : kept page_size P (if unmapped then illegal_remaps o Unmapped order4 s4 else s4).
  by case: (unmapped); [apply: illegal_kept | exact: inv4].
move: inv5; set s5 := if unmapped then _ else s4 => inv5.
have : kept page_size P (if mapped then illegal_remaps o Mapped_end order4 s5 else s5).
  by case: (mapped); [apply: illegal_kept | exact: inv5].
set s6 := if mapped then _ else s5; case=> tg6 all6.
split; first exact: tg6.
by rewrite [trace _]/= all_rcons P_inc.
Qed.

Hypothesis P_metric : forall label v, P (Metric label v).
Hypothesis P_skip : forall msg, P (Pr_inf_skip msg).

Lemma stress_loop_kept (unmapped mapped : bool) (fuel : nat) (st st' : state) :
  0 < stride page_size -> (forall k, mwc32modn o k < N_PAGES) ->
  kept page_size P st ->
  stress_loop HAVE_MLOCK o page_size unmapped mapped fuel st = Some st' ->
  kept page_size P st'.
Proof.
move=> gt0 lt_draw; elim: fuel st => [|fuel IH] st //= inv.
have := iteration_kept unmapped mapped gt0 lt_draw inv.
case: (iteration _ _ _ _ _ _) => fl s1; rewrite [(fl, s1).2]/= => inv1.
case: fl; last by case=> <-.
case: (keep_stressing o (n_keep s1)); last by case=> <-.
by apply: IH.
Qed.

Lemma stress_remap_kept (fuel : nat) (rc : exit_status) (st : state) :
  0 < stride page_size -> (forall k, mwc32modn o k < N_PAGES) ->
  stress_remap HAVE_MLOCK o page_size fuel = Some (rc, st) ->
  all P (trace st).
Proof.
move=> gt0 lt_draw; rewrite /stress_remap.
case: (mmap_data_ok o) => /=; last by case=> _ <-; rewrite /= P_skip.
case E: (stress_loop _ _ _ _ _ _ _) => [s1|] //; case=> _ <-.
have inv0 : kept page_size P (init_tags page_size (fresh page_size)).
  split; first exact: tagged_init.
  have [-> _ _] := init_loop_frame page_size (iota 0 N_PAGES) (fresh page_size).
  by [].
have [_ all1] := stress_loop_kept gt0 lt_draw inv0 E.
by rewrite /report_rate [trace _]/= all_rcons P_metric.
Qed.

End Invariant.

Lemma sane_page_calls HAVE_MLOCK o order i st :
  in_range order -> i < N_PAGES -> all sane (page_calls HAVE_MLOCK o order i st).
Proof.
move=> rng lt_i; rewrite /page_calls.
have lt_o := rng i lt_i.
by case: HAVE_MLOCK; case: (mlock_ok o _); case: (remap_ok o _);
   rewrite /= ?lt_i ?lt_o.
Qed.

Lemma quiet_page_calls HAVE_MLOCK o order i st :
  all (fun e => ~~ order_failure e) (page_calls HAVE_MLOCK o order i st).
Proof.
rewrite /page_calls.
by case: HAVE_MLOCK; case: (mlock_ok o _); case: (remap_ok o _).
Qed.

(** X1.  Whenever the stressor returns, every mlock, munlock and
    remap_file_pages call it has made on the data region names one of
    the [N_PAGES] pages, and every such remap call asks for a file offset
    inside the backing object, with [prot] and [flags] zero. *)
Theorem remap_calls_in_range (HAVE_MLOCK : bool) (o : oracle)
    (page_size fuel : nat) (rc : exit_status) (st : state) :
  0 < stride page_size -> (forall k, mwc32modn o k < N_PAGES) ->
  stress_remap HAVE_MLOCK o page_size fuel = Some (rc, st) ->
  all sane (trace st).
Proof.
move=> gt0 lt_draw; apply: stress_remap_kept => //.
- by move=> order i s; apply: sane_page_calls.
- by move=> a prot pgoff flags ret; case: a.
Qed.

Lemma remap_calls_in_range_witness :
  exists rc st,
    stress_remap true calm 4096 1 = Some (rc, st) /\ all sane (trace st).
Proof.
have gt0 : 0 < stride 4096 by reflexivity.
have lt_draw k : mwc32modn calm k < N_PAGES by apply: ltn_pmod.
have some : isSome (stress_remap true calm 4096 1) by reflexivity.
case run: (stress_remap true calm 4096 1) some => [[rc st]|] some;
  last discriminate some.
exists rc, st; split; first reflexivity.
exact: (remap_calls_in_range gt0 lt_draw run).
Defined.

(** X2.  With a kernel that applies every remap it reports as done, a run
    never reports an order failure: the messages of [check_order] are
    such failures, and no event of a finished run is one.  The only
    failure a run can report is the fatal one of [remap_order]. *)
Theorem no_order_failure (HAVE_MLOCK : bool) (o : oracle)
    (page_size fuel : nat) (rc : exit_status) (st : state) :
  0 < stride page_size -> (forall k, mwc32modn o k < N_PAGES) ->
  stress_remap HAVE_MLOCK o page_size fuel = Some (rc, st) ->
  (forall ordering, order_failure (Pr_fail (check_order_msg ordering)))
  /\ all (fun e => ~~ order_failure e) (trace st).
Proof.
move=> gt0 lt_draw run; split; first by [].
apply: (stress_remap_kept _ _ _ _ _ _ gt0 lt_draw run) => //.
by move=> order i s _ _; apply: quiet_page_calls.
Qed.

Lemma no_order_failure_witness :
  exists rc st,
    stress_remap true stuck 4096 1 = Some (rc, st)
    /\ (forall ordering, order_failure (Pr_fail (check_order_msg ordering)))
    /\ all (fun e => ~~ order_failure e) (trace st).
Proof.
have gt0 : 0 < stride 4096 by reflexivity.
have lt_draw k : mwc32modn stuck k < N_PAGES by apply: ltn_pmod.
have some : isSome (stress_remap true stuck 4096 1) by reflexivity.
case run: (stress_remap true stuck 4096 1) some => [[rc st]|] some;
  last discriminate some.
exists rc, st; split; first reflexivity.
exact: (no_order_failure gt0 lt_draw run).
Defined.

Section Quiet.
Variable HAVE_MLOCK : bool.
Variable o : oracle.
Variable page_size : nat.
Variable p : pred event.
Hypothesis p_mlock : forall a r, p (Mlock a r) = false.
Hypothesis p_munlock : forall a, p (Munlock a) = false.
Hypothesis p_remap : forall a prot pgoff flags r,
  p (Remap_file_pages a prot pgoff flags r) = false.
Hypothesis p_fail : forall msg, p (Pr_fail msg) = false.

Lemma count_page_calls (order : seq nat) (i : nat) (st : state) :
  seq.count p (page_calls HAVE_MLOCK o order i st) = 0.
Proof.
rewrite /page_calls.
by case: HAVE_MLOCK; case: (mlock_ok o _); case: (remap_ok o _);
   rewrite /= ?p_mlock ?p_munlock ?p_remap.
Qed.

Lemma count_remap_order_from (order : seq nat) (n i : nat) (st : state) :
  seq.count p (trace (remap_order_from HAVE_MLOCK o order n i st).2)
  = seq.count p (trace st).
Proof.
elim: n i st => [|n IH] i st //=.
have [tr _] := remap_page_trace HAVE_MLOCK o order i st.
have c1 : seq.count p (trace (remap_page HAVE_MLOCK o order i st).2)
          = seq.count p (trace st).
  by rewrite tr count_cat count_page_calls addn0.
case: (remap_page _ _ _ _ _) c1 {tr} => ret st1 /= c1.
case: (ret <? 0)%Z; last by rewrite IH.
by rewrite /= -cats1 count_cat /= p_fail !addn0.
Qed.

Lemma count_check_order (order : seq nat) (ordering : string) (st : state) :
  seq.count p (trace (check_order page_size order ordering st))
  = seq.count p (trace st).
Proof.
rewrite check_order_cases; case: (check_order_from _ _ _ _ _) => //.
by rewrite /= -cats1 count_cat /= p_fail !addn0.
Qed.

Lemma count_illegal_remaps (a : addr) (order : seq nat) (st : state) :
  seq.count p (trace (illegal_remaps o a order st)) = seq.count p (trace st).
Proof.
rewrite /illegal_remaps /remap_file_pages /= -!cats1 !count_cat /=.
by rewrite !p_remap !addn0.
Qed.

(** What a turn of the loop does to the rest of the state. *)
Lemma iteration_shape (unmapped mapped : bool) (st : state) :
  p Inc_counter ->
  let r := iteration HAVE_MLOCK o page_size unmapped mapped st in
  [/\ shmem r.2 = shmem st,
      n_keep r.2 = n_keep st,
      r.1 = Continue -> forall i, i < N_PAGES -> nth 0 (pgtab r.2) i = i
    & seq.count p (trace r.2)
      = seq.count p (trace st) + (if r.1 is Continue then 1 else 0)].
Proof.
move=> p_inc; rewrite /iteration.
set order1 := order_reverse _.
have [sh1 nk1 _] := remap_order_from_frame HAVE_MLOCK o order1 N_PAGES 0 st.
have := count_remap_order_from order1 N_PAGES 0 st.
rewrite -/(remap_order HAVE_MLOCK o order1 st) in sh1 nk1 *.
case: (remap_order HAVE_MLOCK o order1 st) sh1 nk1 => r1 s1.
cbv beta iota zeta; rewrite [(r1, s1).2]/= => sh1 nk1 c1.
case: (r1 <? 0)%Z; first by rewrite /= addn0.
have [shc1 _ nkc1 _] := check_order_frame page_size order1 "reverse" s1.
have cc1 := count_check_order order1 "reverse" s1.
have st2 := order_random_state o order1
              (check_order page_size order1 "reverse" s1).
case: (order_random o order1 _) st2 => order2 s1'.
cbv beta iota zeta; rewrite [(order2, s1').2]/= => st2.
have [sh2 nk2 _] := remap_order_from_frame HAVE_MLOCK o order2 N_PAGES 0 s1'.
have := count_remap_order_from order2 N_PAGES 0 s1'.
rewrite -/(remap_order HAVE_MLOCK o order2 s1') in sh2 nk2 *.
case: (remap_order HAVE_MLOCK o order2 s1') sh2 nk2 => r2 s2.
cbv beta iota zeta; rewrite [(r2, s2).2]/= => sh2 nk2 c2.
have e2 : [/\ shmem s2 = shmem st, n_keep s2 = n_keep st
            & seq.count p (trace s2) = seq.count p (trace st)].
  by rewrite sh2 nk2 c2 st2 /= shc1 nkc1 cc1 sh1 nk1 c1.
case: (r2 <? 0)%Z; first by case: e2 => -> -> ->; rewrite /= addn0.
case: e2 => {}sh2 {}nk2 {}c2.
have [shc2 _ nkc2 _] := check_order_frame page_size order2 "random" s2.
have cc2 := count_check_order order2 "random" s2.
set order3 := order_all_to_1 _.
set s2c := check_order page_size order2 "random" s2 in shc2 nkc2 cc2 *.
have [sh3 nk3 _] := remap_order_from_frame HAVE_MLOCK o order3 N_PAGES 0 s2c.
have := count_remap_order_from order3 N_PAGES 0 s2c.
rewrite -/(remap_order HAVE_MLOCK o order3 s2c) in sh3 nk3 *.
case: (remap_order HAVE_MLOCK o order3 s2c) sh3 nk3 => r3 s3.
cbv beta iota zeta; rewrite [(r3, s3).2]/= => sh3 nk3 c3.
have e3 : [/\ shmem s3 = shmem st, n_keep s3 = n_keep st
            & seq.count p (trace s3) = seq.count p (trace st)].
  by rewrite sh3 nk3 c3 shc2 nkc2 cc2 sh2 nk2 c2.
case: (r3 <? 0)%Z; first by case: e3 => -> -> ->; rewrite /= addn0.
case: e3 => {}sh3 {}nk3 {}c3.
have [shc3 _ nkc3 _] := check_order_frame page_size order3 "all-to-1" s3.
have cc3 := count_check_order order3 "all-to-1" s3.
set order4 := order_forward _.
set s3c := check_order page_size order3 "all-to-1" s3 in shc3 nkc3 cc3 *.
have [sh4 nk4 _] := remap_order_from_frame HAVE_MLOCK o order4 N_PAGES 0 s3c.
have ok4 := @remap_order_from_ok HAVE_MLOCK o order4 N_PAGES 0 s3c.
have := count_remap_order_from order4 N_PAGES 0 s3c.
rewrite -/(remap_order HAVE_MLOCK o order4 s3c) in sh4 nk4 ok4 *.
case: (remap_order HAVE_MLOCK o order4 s3c) sh4 nk4 ok4 => r4 s4.
cbv beta iota zeta; rewrite [(r4, s4).2]/= [(r4, s4).1]/= => sh4 nk4 ok4 c4.
have e4 : [/\ shmem s4 = shmem st, n_keep s4 = n_keep st
            & seq.count p (trace s4) = seq.count p (trace st)].
  by rewrite sh4 nk4 c4 shc3 nkc3 cc3 sh3 nk3 c3.
case neg4: (r4 <? 0)%Z; first by case: e4 => -> -> ->; rewrite /= addn0.
case: e4 => {}sh4 {}nk4 {}c4.
have [_ pg4] := ok4 neg4.
have [shc4 pgc4 nkc4 _] := check_order_frame page_size order4 "forward" s4.
have cc4 := count_check_order order4 "forward" s4.
set s4c := check_order page_size order4 "forward" s4 in shc4 pgc4 nkc4 cc4 *.
have e5 : [/\ shmem (if unmapped then illegal_remaps o Unmapped order4 s4c else s4c) = shmem s4c,
              pgtab (if unmapped then illegal_remaps o Unmapped order4 s4c else s4c) = pgtab s4c,
              n_keep (if unmapped then illegal_remaps o Unmapped order4 s4c else s4c) = n_keep s4c
            & seq.count p (trace (if unmapped then illegal_remaps o Unmapped order4 s4c else s4c))
              = seq.count p (trace s4c)].
  case: (unmapped); last by [].
  have [-> -> -> _] := @illegal_remaps_frame o Unmapped order4 s4c isT.
  by rewrite count_illegal_remaps.
move: e5; set s5 := if unmapped then _ else s4c; case=> sh5 pg5 nk5 c5.
have e6 : [/\ shmem (if mapped then illegal_remaps o Mapped_end order4 s5 else s5) = shmem s5,
              pgtab (if mapped then illegal_remaps o Mapped_end order4 s5 else s5) = pgtab s5,
              n_keep (if mapped then illegal_remaps o Mapped_end order4 s5 else s5) = n_keep s5
            & seq.count p (trace (if mapped then illegal_remaps o Mapped_end order4 s5 else s5))
              = seq.count p (trace s5)].
  case: (mapped); last by [].
  have [-> -> -> _] := @illegal_remaps_frame o Mapped_end order4 s5 isT.
  by rewrite count_illegal_remaps.
move: e6; set s6 := if mapped then _ else s5; case=> sh6 pg6 nk6 c6.
rewrite [(_, _).2]/= [(_, _).1]/=; split.
- by rewrite [shmem _]/= sh6 sh5 shc4 sh4.
- by rewrite [n_keep _]/= nk6 nk5 nkc4 nk4.
- move=> _ i lt_i; rewrite [pgtab _]/= pg6 pg5 pgc4 pg4 add0n /= lt_i.
  by rewrite /order4 /order_forward /fill_order nth_fill_loop lt_i.
- by rewrite [trace _]/= -cats1 count_cat /= p_inc c6 c5 cc4 c4.
Qed.

End Quiet.


Section Turns.
Variable HAVE_MLOCK : bool.
Variable o : oracle.
Variable page_size : nat.
Variables unmapped mapped : bool.

Lemma iteration_bogo (st : state) :
  let r := iteration HAVE_MLOCK o page_size unmapped mapped st in
  [/\ shmem r.2 = shmem st,
      n_keep r.2 = n_keep st,
      r.1 = Continue -> forall i, i < N_PAGES -> nth 0 (pgtab r.2) i = i
    & bogo_ops r.2 = bogo_ops st + (if r.1 is Continue then 1 else 0)].
Proof. exact: (@iteration_shape HAVE_MLOCK o page_size is_inc). Qed.

Lemma stress_loopS (fuel : nat) (st : state) :
  stress_loop HAVE_MLOCK o page_size unmapped mapped fuel.+1 st
  = let r := iteration HAVE_MLOCK o page_size unmapped mapped st in
    if r.1 is Continue then
      if (keep_stressing_call o r.2).1
      then stress_loop HAVE_MLOCK o page_size unmapped mapped fuel
                       (keep_stressing_call o r.2).2
      else Some (keep_stressing_call o r.2).2
    else Some r.2.
Proof. by rewrite /=; case: (iteration _ _ _ _ _ _) => [[|] s1]. Qed.

Lemma stress_loop_bogo (fuel : nat) (st st' : state) :
  stress_loop HAVE_MLOCK o page_size unmapped mapped fuel st = Some st' ->
  bogo_ops st' + n_keep st = bogo_ops st + n_keep st'.
Proof.
elim: fuel st => [|fuel IH] st //; rewrite stress_loopS.
have [_ nk _ bg] := iteration_bogo st.
move: nk bg; set r := iteration _ _ _ _ _ _; cbv zeta.
case: (r.1) => nk bg; last by case=> <-; rewrite bg nk addn0.
have k1 : n_keep (keep_stressing_call o r.2).2 = (n_keep st).+1.
  by rewrite /= nk.
have b1 : bogo_ops (keep_stressing_call o r.2).2 = (bogo_ops st).+1.
  by rewrite /bogo_ops /= -/(bogo_ops r.2) bg addn1.
case: ((keep_stressing_call o r.2).1).
  by move/IH; rewrite k1 b1 addnS addSn => -[].
by case=> <-; rewrite k1 b1 addnS addSn.
Qed.

Lemma stress_loop_stops (k : nat) (st : state) :
  keep_stressing o (n_keep st + k) = false ->
  exists st', forall fuel, k < fuel ->
    stress_loop HAVE_MLOCK o page_size unmapped mapped fuel st = Some st'.
Proof.
elim: k st => [|k IH] st stop;
  have [_ nk _ _] := iteration_bogo st;
  move: nk; set r := iteration _ _ _ _ _ _ => nk.
  exists (if r.1 is Continue then (keep_stressing_call o r.2).2 else r.2).
  case=> [|fuel] // _; rewrite stress_loopS -/r; cbv zeta.
  case: (r.1) => //.
  by rewrite [(keep_stressing_call o r.2).1]/= nk -(addn0 (n_keep st)) stop.
case keep: (keep_stressing o (n_keep st)); last first.
  exists (if r.1 is Continue then (keep_stressing_call o r.2).2 else r.2).
  case=> [|fuel] // _; rewrite stress_loopS -/r; cbv zeta.
  by case: (r.1) => //; rewrite [(keep_stressing_call o r.2).1]/= nk keep.
have [|st' run] := IH (keep_stressing_call o r.2).2.
  by rewrite [n_keep _]/= nk addSnnS.
exists (if r.1 is Continue then st' else r.2).
case=> [|fuel] // lt_k; rewrite stress_loopS -/r; cbv zeta.
case: (r.1) => //.
by rewrite [(keep_stressing_call o r.2).1]/= nk keep; apply: run.
Qed.

End Turns.

(** X3.  After the initialisation loop, with at least one slot per page,
    the first slot of page [i] of the region reads [i]: the pages start
    out in order, and no tag is cut short by the 16-bit slot. *)
Theorem tags_after_init (page_size i : nat) :
  0 < stride page_size -> i < N_PAGES ->
  data_get page_size (init_tags page_size (fresh page_size))
           (i * stride page_size) = i.
Proof.
move=> gt0 lt_i; rewrite data_get_page // /init_tags pgtab_init_loop.
have -> : pgtab (fresh page_size) = iota 0 N_PAGES by [].
rewrite nth_iota // add0n.
have /allP tg := tagged_init gt0.
by apply/eqP/tg; rewrite mem_iota.
Qed.

Lemma tags_after_init_witness :
  data_get 4096 (init_tags 4096 (fresh 4096)) (7 * stride 4096) = 7.
Proof. apply: tags_after_init; reflexivity. Defined.

(** X4.  A turn of the loop that is not cut short by a fatal failure
    ends with the pages of the region back in their original order,
    whatever the random order was: page [i] is backed by page [i] of the
    object and reads its own tag again. *)
Theorem turn_restores_identity (HAVE_MLOCK : bool) (o : oracle)
    (page_size : nat) (unmapped mapped : bool) (st : state) (i : nat) :
  0 < stride page_size -> tagged page_size st ->
  (iteration HAVE_MLOCK o page_size unmapped mapped st).1 = Continue ->
  i < N_PAGES ->
  nth 0 (pgtab (iteration HAVE_MLOCK o page_size unmapped mapped st).2) i = i
  /\ data_get page_size
              (iteration HAVE_MLOCK o page_size unmapped mapped st).2
              (i * stride page_size) = i.
Proof.
move=> gt0 /allP tg cont lt_i.
have [sh _ pg _] := iteration_bogo HAVE_MLOCK o page_size unmapped mapped st.
rewrite data_get_page // sh (pg cont i lt_i); split=> //.
by apply/eqP/tg; rewrite mem_iota.
Qed.

Lemma turn_restores_identity_witness :
  nth 0 (pgtab (iteration true calm 8 true true
                          (init_tags 8 (fresh 8))).2) 7 = 7
  /\ data_get 8 (iteration true calm 8 true true (init_tags 8 (fresh 8))).2
              (7 * stride 8) = 7.
Proof.
have gt0 : 0 < stride 8 by reflexivity.
have tg : tagged 8 (init_tags 8 (fresh 8)) by vm_compute.
have cont : (iteration true calm 8 true true (init_tags 8 (fresh 8))).1
            = Continue by reflexivity.
have lt_i : 7 < N_PAGES by reflexivity.
exact: (turn_restores_identity gt0 tg cont lt_i).
Defined.

(** X5.  After a pass with the collapse order that did not fail, every
    page of the region is backed by page 0 of the object and reads tag
    0: all [N_PAGES] virtual pages alias one page. *)
Theorem collapse_aliases_all_pages (HAVE_MLOCK : bool) (o : oracle)
    (page_size : nat) (order0 : seq nat) (st : state) (i : nat) :
  0 < stride page_size -> tagged page_size st -> size order0 <= N_PAGES ->
  ((remap_order HAVE_MLOCK o (order_all_to_1 order0) st).1 <? 0)%Z = false ->
  i < N_PAGES ->
  nth 0 (pgtab (remap_order HAVE_MLOCK o (order_all_to_1 order0) st).2) i = 0
  /\ data_get page_size
              (remap_order HAVE_MLOCK o (order_all_to_1 order0) st).2
              (i * stride page_size) = 0.
Proof.
move=> gt0 tg le_sz nneg lt_i.
have rng : in_range (order_all_to_1 order0).
  by rewrite (order_all_to_1E le_sz); apply: in_range_all_to_1.
have [_ pg] := remap_order_from_ok nneg.
rewrite (remap_order_verified gt0 tg rng nneg lt_i) /remap_order pg add0n /= lt_i.
by rewrite (order_all_to_1E le_sz) nth_nseq lt_i.
Qed.

Lemma collapse_aliases_all_pages_witness :
  nth 0 (pgtab (remap_order true calm (order_all_to_1 (nseq N_PAGES 0))
                            (init_tags 8 (fresh 8))).2) 7 = 0
  /\ data_get 8 (remap_order true calm (order_all_to_1 (nseq N_PAGES 0))
                             (init_tags 8 (fresh 8))).2
              (7 * stride 8) = 0.
Proof.
have gt0 : 0 < stride 8 by reflexivity.
have tg : tagged 8 (init_tags 8 (fresh 8)) by vm_compute.
have le_sz : size (nseq N_PAGES 0) <= N_PAGES by reflexivity.
have nneg : Z.ltb (remap_order true calm (order_all_to_1 (nseq N_PAGES 0))
                               (init_tags 8 (fresh 8))).1 0 = false.
  reflexivity.
have lt_i : 7 < N_PAGES by reflexivity.
exact: (collapse_aliases_all_pages gt0 tg le_sz nneg lt_i).
Defined.

Lemma pins_page_calls HAVE_MLOCK o order i st :
  pins_taken (page_calls HAVE_MLOCK o order i st)
  = pins_released (page_calls HAVE_MLOCK o order i st)
  /\ pins_taken (page_calls HAVE_MLOCK o order i st)
     <= (if HAVE_MLOCK then 1 else 0).
Proof.
rewrite /page_calls /pins_taken /pins_released.
by case: HAVE_MLOCK; case: (mlock_ok o _); case: (remap_ok o _).
Qed.

(** X6.  A pass of [remap_order], finished or cut short, releases every
    pin it takes: among the calls it adds there are as many munlock
    calls as successful mlock calls, at most one per page, and none at
    all in a build without mlock. *)
Theorem pass_releases_its_pins (HAVE_MLOCK : bool) (o : oracle)
    (order : seq nat) (n i : nat) (st : state) :
  exists tl,
    [/\ trace (remap_order_from HAVE_MLOCK o order n i st).2 = trace st ++ tl,
        pins_taken tl = pins_released tl
      & pins_taken tl <= (if HAVE_MLOCK then n else 0)].
Proof.
elim: n i st => [|n IH] i st /=.
  by exists [::]; rewrite cats0; split=> //; case: (HAVE_MLOCK).
have [tr _] := remap_page_trace HAVE_MLOCK o order i st.
have [bal le1] := pins_page_calls HAVE_MLOCK o order i st.
move: tr bal le1; set pc := page_calls _ _ _ _ _.
case: (remap_page _ _ _ _ _) => ret st1 /= tr bal le1.
case: (ret <? 0)%Z.
  exists (rcons pc (Pr_fail remap_fail_msg)).
  rewrite /= tr -!cats1 catA; split=> //.
    by rewrite /pins_taken /pins_released !count_cat /= !addn0.
  rewrite /pins_taken count_cat /= addn0 -/(pins_taken pc) addn0.
  by apply: (leq_trans le1); case: (HAVE_MLOCK).
have [tl [tr' bal' le']] := IH i.+1 st1.
exists (pc ++ tl); rewrite tr' tr catA; split=> //.
  by rewrite /pins_taken /pins_released !count_cat -/(pins_taken pc)
             -/(pins_released pc) -/(pins_taken tl) -/(pins_released tl) bal bal'.
rewrite /pins_taken count_cat -/(pins_taken pc) -/(pins_taken tl).
by apply: (leq_trans (leq_add le1 le')); case: (HAVE_MLOCK).
Qed.

Lemma remap_calls_page_calls HAVE_MLOCK o order i st :
  0 < remap_calls (page_calls HAVE_MLOCK o order i st)
    <= (if HAVE_MLOCK then 2 else 1).
Proof.
rewrite /page_calls /remap_calls.
by case: HAVE_MLOCK; case: (mlock_ok o _); case: (remap_ok o _).
Qed.

(** X7.  A pass of [remap_order] over [n] pages makes at most [n] remap
    calls in a build without mlock and at most [2 * n] in a build with
    it, a page being tried at most twice; a pass that does not fail makes
    at least [n], one or more for every page. *)
Theorem pass_makes_bounded_calls (HAVE_MLOCK : bool) (o : oracle)
    (order : seq nat) (n i : nat) (st : state) :
  exists tl,
    [/\ trace (remap_order_from HAVE_MLOCK o order n i st).2 = trace st ++ tl,
        remap_calls tl <= (if HAVE_MLOCK then 2 else 1) * n
      & ((remap_order_from HAVE_MLOCK o order n i st).1 <? 0)%Z
        || (n <= remap_calls tl)].
Proof.
elim: n i st => [|n IH] i st /=.
  by exists [::]; rewrite cats0 muln0.
have [tr _] := remap_page_trace HAVE_MLOCK o order i st.
have /andP [ge1 le2] := remap_calls_page_calls HAVE_MLOCK o order i st.
move: tr ge1 le2; set pc := page_calls _ _ _ _ _.
case: (remap_page _ _ _ _ _) => ret st1 /= tr ge1 le2.
case: (ret <? 0)%Z.
  exists (rcons pc (Pr_fail remap_fail_msg)).
  rewrite /= tr -!cats1 catA; split=> //.
  rewrite /remap_calls count_cat /= addn0 -/(remap_calls pc) addn0 mulnS.
  exact: (leq_trans le2 (leq_addr _ _)).
have [tl [tr' le' ge']] := IH i.+1 st1.
exists (pc ++ tl); rewrite tr' tr catA; split=> //.
  rewrite /remap_calls count_cat -/(remap_calls pc) -/(remap_calls tl) mulnS.
  exact: leq_add.
case/orP: ge' => [->//|ge']; apply/orP; right.
rewrite /remap_calls count_cat -/(remap_calls pc) -/(remap_calls tl) -add1n.
exact: leq_add.
Qed.

Lemma n_keep_init (page_size : nat) :
  n_keep (init_tags page_size (fresh page_size)) = 0.
Proof.
have -> : 0 = n_keep (fresh page_size) by [].
rewrite /init_tags; elim: (iota 0 N_PAGES) (fresh page_size) => [|x l IH] s0 //=.
by rewrite IH.
Qed.

(** X8.  Whenever the stressor returns, the bogo-op counter equals the
    number of times the loop condition was evaluated: every finished turn
    is counted exactly once, and a turn cut short by a fatal failure is
    not counted. *)
Theorem bogo_counter_counts_turns (HAVE_MLOCK : bool) (o : oracle)
    (page_size fuel : nat) (rc : exit_status) (st : state) :
  stress_remap HAVE_MLOCK o page_size fuel = Some (rc, st) ->
  bogo_ops st = n_keep st.
Proof.
rewrite /stress_remap; case: (mmap_data_ok o) => /=; last by case=> _ <-.
case E: (stress_loop _ _ _ _ _ _ _) => [s1|] //; case=> _ <-.
have := stress_loop_bogo E.
have [tr0 _ _] := init_loop_frame page_size (iota 0 N_PAGES) (fresh page_size).
have nk0 := n_keep_init page_size.
rewrite /bogo_ops -/(init_tags page_size (fresh page_size)) in tr0 *.
rewrite tr0.
have -> : trace (fresh page_size) = [::] by [].
rewrite nk0 addn0 [seq.count _ [::]]/= add0n => eq_b.
by rewrite /report_rate [trace _]/= [n_keep _]/= -cats1 count_cat /= !addn0.
Qed.

Lemma bogo_counter_counts_turns_witness :
  exists rc st,
    stress_remap true calm 4096 1 = Some (rc, st) /\ bogo_ops st = n_keep st.
Proof.
have some : isSome (stress_remap true calm 4096 1) by reflexivity.
case run: (stress_remap true calm 4096 1) some => [[rc st]|] some;
  last discriminate some.
exists rc, st; split; first reflexivity.
exact: (bogo_counter_counts_turns run).
Defined.

(** X9.  Once the first mapping is there, the stressor returns with the
    success status as soon as [keep_stressing] says stop: if its answer
    to the [k]-th question is no, [k] + 1 turns of the loop are enough,
    and more fuel does not change the result. *)
Theorem stress_remap_terminates (HAVE_MLOCK : bool) (o : oracle)
    (page_size k : nat) :
  mmap_data_ok o -> keep_stressing o k = false ->
  exists st, forall fuel, k < fuel ->
    stress_remap HAVE_MLOCK o page_size fuel = Some (EXIT_SUCCESS, st).
Proof.
move=> mm stop.
have nk0 := n_keep_init page_size.
have [|st' run] := @stress_loop_stops HAVE_MLOCK o page_size (unmapped_ok o)
         (mmap_mapped_ok o && munmap_tail_ok o) k
         (init_tags page_size (fresh page_size)).
  by rewrite nk0.
exists (report_rate st') => fuel lt_k.
by rewrite /stress_remap mm /= run.
Qed.

Lemma stress_remap_terminates_witness :
  exists st, forall fuel, 0 < fuel ->
    stress_remap true calm 4096 fuel = Some (EXIT_SUCCESS, st).
Proof.
have mm : mmap_data_ok calm by reflexivity.
have stop : keep_stressing calm 0 = false by reflexivity.
exact: (@stress_remap_terminates true calm 4096 0 mm stop).
Defined.

Section Reach.
Variable p : seq nat.
Hypothesis uniq_p : uniq p.

Lemma reach_from (n i : nat) (a pfx : seq nat) (st : state) :
  size a = size p -> perm_eq a p -> i + n = size p ->
  (forall k, k < i -> nth 0 a k = nth 0 p k) ->
  n_rand st = size pfx ->
  exists ds,
    [/\ size ds = n, all (fun j => j < size p) ds
      & (shuffle_from (with_draws (pfx ++ ds)) n i a st).1 = p].
Proof.
elim: n i a pfx st => [|n IH] i a pfx st sz_a pe_a eq_n pre eq_r.
  exists [::]; split=> //=.
  apply: (@eq_from_nth _ 0) => // k; rewrite sz_a -eq_n addn0.
  exact: pre.
have lt_i : i < size p by rewrite -eq_n -addSnnS leq_addr.
pose x := nth 0 p i; pose j := index x a.
have x_in : x \in a by rewrite (perm_mem pe_a) mem_nth.
have lt_j : j < size a by rewrite index_mem.
have nth_j : nth 0 a j = x by rewrite nth_index.
have le_ij : i <= j.
  rewrite leqNgt; apply/negP => lt_ji.
  have := pre j lt_ji; rewrite nth_j /x => /eqP.
  by rewrite nth_uniq // ?(ltn_trans lt_ji) // (gtn_eqF lt_ji).
have lt_ia : i < size a by rewrite sz_a.
have [] := IH i.+1 (swap a i j) (rcons pfx j)
              (stress_mwc32modn_N_PAGES (with_draws [::]) st).2.
- by rewrite size_swap.
- exact: perm_trans (perm_swap lt_ia lt_j) pe_a.
- by rewrite addSnnS.
- move=> k; rewrite ltnS leq_eqVlt nth_swap /exch => /orP [/eqP ->|lt_k].
    rewrite eqxx; have -> : (if i == j then i else j) = j by case: eqP.
    exact: nth_j.
  rewrite (ltn_eqF (leq_trans lt_k le_ij)) (ltn_eqF lt_k).
  exact: pre.
- by rewrite /= eq_r size_rcons.
move=> ds [sz_ds all_ds run]; exists (j :: ds); split.
- by rewrite /= sz_ds.
- by rewrite /= all_ds andbT -sz_a.
- rewrite /=.
  have -> : nth 0 (pfx ++ j :: ds) (n_rand st) = j.
    by rewrite eq_r nth_cat ltnn subnn.
  by rewrite -cat_rcons; exact: run.
Qed.

End Reach.

Lemma shuffledE (d : seq nat) :
  shuffled d = (shuffle_from (with_draws d) N_PAGES 0 (iota 0 N_PAGES)
                             (fresh 4096)).1.
Proof.
have le_sz : size (nseq N_PAGES 0) <= N_PAGES by rewrite size_nseq.
by rewrite /shuffled /order_random (order_forwardE le_sz).
Qed.

(** X10.  The shuffle can produce every order: for each permutation of
    the page indices there are [N_PAGES] draws below [N_PAGES] for which
    the random order of the turn is that permutation. *)
Theorem every_order_reachable (p : seq nat) :
  perm_eq p (iota 0 N_PAGES) ->
  exists d,
    [/\ size d = N_PAGES, all (fun j => j < N_PAGES) d & shuffled d = p].
Proof.
move=> pe.
have uq : uniq p by rewrite (perm_uniq pe) iota_uniq.
have sz : size p = N_PAGES by rewrite (perm_size pe) size_iota.
have [] := @reach_from p uq N_PAGES 0 (iota 0 N_PAGES) [::] (fresh 4096).
- by rewrite size_iota.
- by rewrite perm_sym.
- by rewrite add0n.
- by [].
- by [].
move=> d [sz_d all_d run]; exists d; split.
- exact: sz_d.
- by rewrite -sz.
- by rewrite shuffledE; exact: run.
Qed.

Lemma every_order_reachable_witness :
  exists d,
    [/\ size d = N_PAGES, all (fun j => j < N_PAGES) d
      & shuffled d = rev (iota 0 N_PAGES)].
Proof.
apply: every_order_reachable.
rewrite perm_rev; exact: perm_refl.
Defined.

(** ** A turn of the loop, pass by pass *)

Lemma trace_extends_refl (st : state) : extends st st.
Proof. by exists [::]; rewrite cats0. Qed.

Lemma trace_extends_trans (st2 st1 st3 : state) :
  extends st1 st2 -> extends st2 st3 -> extends st1 st3.
Proof. by move=> [t1 e1] [t2 e2]; exists (t1 ++ t2); rewrite e2 e1 catA. Qed.

Lemma trace_extends_same (st st' : state) : trace st' = trace st -> extends st st'.
Proof. by move=> e; exists [::]; rewrite cats0. Qed.

Lemma trace_extends_log (e : event) (st : state) : extends st (log e st).
Proof. by exists [:: e]; rewrite /= cats1. Qed.

Section Turn.
Variable HAVE_MLOCK : bool.
Variable o : oracle.
Variable page_size : nat.

Lemma extends_remap_order_from (order : seq nat) (n i : nat) (st : state) :
  extends st (remap_order_from HAVE_MLOCK o order n i st).2.
Proof.
elim: n i st => [|n IH] i st /=; first exact: trace_extends_refl.
have [tr _] := remap_page_trace HAVE_MLOCK o order i st.
have e1 : extends st (remap_page HAVE_MLOCK o order i st).2.
  by exists (page_calls HAVE_MLOCK o order i st).
case: (remap_page _ _ _ _ _) e1 {tr} => ret st1 /= e1.
case: (ret <? 0)%Z; last exact: trace_extends_trans e1 (IH _ _).
exact: trace_extends_trans e1 (trace_extends_log _ _).
Qed.

Lemma extends_remap_order (order : seq nat) (st : state) :
  extends st (remap_order HAVE_MLOCK o order st).2.
Proof. exact: extends_remap_order_from. Qed.

Lemma extends_check_order (order : seq nat) (ordering : string)
    (st : state) :
  extends st (check_order page_size order ordering st).
Proof.
rewrite check_order_cases; case: (check_order_from _ _ _ _ _).
  exact: trace_extends_log.
exact: trace_extends_refl.
Qed.

Lemma extends_order_random (order : seq nat) (st : state) :
  extends st (order_random o order st).2.
Proof. by apply: trace_extends_same; rewrite order_random_state. Qed.

Lemma extends_illegal_remaps (a : addr) (order : seq nat) (st : state) :
  extends st (illegal_remaps o a order st).
Proof.
have one prot pgoff flags s :
    extends s (remap_file_pages o a prot pgoff flags s).2.
  by eexists; rewrite /remap_file_pages /= -cats1.
rewrite /illegal_remaps.
exact: trace_extends_trans (trace_extends_trans (one _ _ _ _) (one _ _ _ _)) (one _ _ _ _).
Qed.

(** After a pass that did not fail, from a state with the tags in place
    and with an order of page indices, the tags read back are the order
    and [check_order] reports nothing. *)
Lemma pass_checked (order : seq nat) (ordering : string) (st : state) :
  0 < stride page_size -> tagged page_size st -> in_range order ->
  ((remap_order HAVE_MLOCK o order st).1 <? 0)%Z = false ->
  [/\ forall i, i < N_PAGES ->
        data_get page_size (remap_order HAVE_MLOCK o order st).2
                 (i * stride page_size) = nth 0 order i,
      check_order page_size order ordering
                  (remap_order HAVE_MLOCK o order st).2
      = (remap_order HAVE_MLOCK o order st).2
    & tagged page_size (remap_order HAVE_MLOCK o order st).2].
Proof.
move=> gt0 tg rng nneg.
have rd := remap_order_verified gt0 tg rng nneg.
split=> //.
  rewrite check_order_cases check_order_fromE.
  suff -> : all (fun k => data_get page_size
                   (remap_order HAVE_MLOCK o order st).2
                   (k * stride page_size) == nth 0 order k)
                (iota 0 N_PAGES) by [].
  by apply/allP => k; rewrite mem_iota add0n /= => /rd ->.
by have [sh _] := remap_order_from_ok nneg; rewrite (tagged_shmem _ sh).
Qed.

Lemma check_order_mismatch (order : seq nat) (ordering : string)
    (st : state) (i : nat) :
  i < N_PAGES ->
  data_get page_size st (i * stride page_size) <> nth 0 order i ->
  check_order page_size order ordering st
  = pr_fail (check_order_msg ordering) st.
Proof.
move=> lt_i neq; rewrite check_order_cases check_order_fromE.
suff -> : all (fun k => data_get page_size st (k * stride page_size)
                       == nth 0 order k) (iota 0 N_PAGES) = false by [].
apply/negbTE/allPn; exists i; first by rewrite mem_iota.
exact/eqP.
Qed.

Lemma orders_in_range (order0 : seq nat) (st : state) :
  size order0 <= N_PAGES -> (forall k, mwc32modn o k < N_PAGES) ->
  [/\ in_range (order_reverse order0),
      in_range (order_random o order0 st).1,
      in_range (order_all_to_1 order0)
    & in_range (order_forward order0)].
Proof.
move=> le_sz lt_draw; split.
- rewrite (order_reverseE le_sz) mkseq_reverse; apply: perm_in_range.
  rewrite perm_rev; exact: perm_refl.
- exact/perm_in_range/order_random_perm.
- rewrite (order_all_to_1E le_sz); exact: in_range_all_to_1.
- rewrite (order_forwardE le_sz); apply: perm_in_range; exact: perm_refl.
Qed.

Variables unmapped mapped : bool.

Local Abbreviation pass st k :=
  (nth (0%Z, st) (passes HAVE_MLOCK o page_size st) k).
Local Abbreviation turn st :=
  (iteration HAVE_MLOCK o page_size unmapped mapped st).
Local Abbreviation after st k := (checked HAVE_MLOCK o page_size st k).
Local Abbreviation finish st :=
  (turn_end HAVE_MLOCK o page_size unmapped mapped st).

(** The body of the loop in terms of its passes: it stops at the first
    pass that fails and otherwise goes through to the end. *)
Lemma iterationE (st : state) :
  turn st = first_fail (passes HAVE_MLOCK o page_size st)
                       (Continue, finish st).
Proof.
rewrite /iteration /turn_end /checked /orders /passes.
set order1 := order_reverse _.
case: (remap_order HAVE_MLOCK o order1 st) => r1 s1; cbv beta iota zeta.
rewrite [(r1, s1).2]/=.
case: (order_random o order1 _) => order2 s1'; cbv beta iota zeta.
rewrite [(order2, s1').1]/= [(order2, s1').2]/=.
case: (remap_order HAVE_MLOCK o order2 s1') => r2 s2; cbv beta iota zeta.
rewrite [(r2, s2).2]/=.
set order3 := order_all_to_1 _.
case: (remap_order HAVE_MLOCK o order3 _) => r3 s3; cbv beta iota zeta.
rewrite [(r3, s3).2]/=.
set order4 := order_forward _.
case: (remap_order HAVE_MLOCK o order4 _) => r4 s4; cbv beta iota zeta.
rewrite [first_fail _ _]/= ?[nth _ _ _]/=.
by case: (r1 <? 0)%Z; case: (r2 <? 0)%Z; case: (r3 <? 0)%Z;
   case: (r4 <? 0)%Z.
Qed.

Lemma size_passes (st : state) :
  size (passes HAVE_MLOCK o page_size st) = 4.
Proof. by []. Qed.

Lemma first_fail_none (d : Z * state) (ps : seq (Z * state))
    (y : flow * state) :
  (forall k, k < size ps -> ((nth d ps k).1 <? 0)%Z = false) ->
  first_fail ps y = y.
Proof.
elim: ps => [|p ps IH] //= nn.
by rewrite (nn 0 isT) IH // => k lt_k; apply: (nn k.+1).
Qed.

Lemma first_fail_after (d : Z * state) (P : state -> Prop)
    (ps : seq (Z * state)) (y : flow * state) (k : nat) :
  k < size ps ->
  (forall j, j <= k -> ((nth d ps j).1 <? 0)%Z = false) ->
  (forall m, k < m -> m < size ps -> P (nth d ps m).2) ->
  P y.2 ->
  P (first_fail ps y).2.
Proof.
move=> lt_k nn later last.
have: forall m, m < size ps -> m <= k \/ P (nth d ps m).2.
  move=> m lt_m; case: (leqP m k) => [le_m|lt_km]; first by left.
  by right; apply: later.
have: forall j, j < size ps -> j <= k -> ((nth d ps j).1 <? 0)%Z = false.
  by move=> j _; apply: nn.
elim: ps k {lt_k nn later} => [|p ps IH] k //= nn later.
case neg: (p.1 <? 0)%Z.
  case: (later 0 isT) => [le0|//].
  by have := nn 0 isT le0; rewrite /= neg.
case: k nn later => [|k] nn later.
  have all_later m : m < size ps -> P (nth d ps m).2.
    by move=> lt_m; case: (later m.+1 lt_m).
  elim: ps {IH nn later} all_later => [|q ps IH] //= all_later.
  case: (q.1 <? 0)%Z; first exact: (all_later 0 isT).
  by apply: IH => m lt_m; apply: (all_later m.+1).
apply: (IH k) => [j lt_j le_j|m lt_m].
  exact: (nn j.+1 lt_j le_j).
by case: (later m.+1 lt_m) => [le_m|]; [left | right].
Qed.

Lemma iteration_complete (st : state) :
  (forall k, k < 4 -> ((pass st k).1 <? 0)%Z = false) ->
  turn st = (Continue, finish st).
Proof.
move=> nn; rewrite iterationE; apply: (@first_fail_none (0%Z, st)).
by rewrite size_passes.
Qed.

(** After a turn in which no pass failed the loop asks [keep_stressing],
    whatever the checks reported. *)
Lemma stress_loop_goes_on (fuel : nat) (st : state) :
  (forall k, k < 4 -> ((pass st k).1 <? 0)%Z = false) ->
  stress_loop HAVE_MLOCK o page_size unmapped mapped fuel.+1 st
  = if keep_stressing o (n_keep (finish st))
    then stress_loop HAVE_MLOCK o page_size unmapped mapped fuel
                     (keep_stressing_call o (finish st)).2
    else Some (keep_stressing_call o (finish st)).2.
Proof. by move=> nn; rewrite stress_loopS (iteration_complete nn). Qed.

Lemma pass_to_checked (st : state) (k : nat) :
  extends (pass st k).2 (after st k).
Proof. exact: extends_check_order. Qed.

Lemma pass_0 (st : state) :
  pass st 0
  = remap_order HAVE_MLOCK o (nth [::] (orders HAVE_MLOCK o page_size st) 0)
                st.
Proof. by cbv beta iota zeta delta [nth passes orders orderings checked]. Qed.

Lemma checked_k (st : state) (k : nat) :
  after st k
  = check_order page_size (nth [::] (orders HAVE_MLOCK o page_size st) k)
                (nth ""%string orderings k) (pass st k).2.
Proof. by cbv beta iota zeta delta [nth passes orders orderings checked]. Qed.

Lemma orders_0 (st : state) :
  nth [::] (orders HAVE_MLOCK o page_size st) 0
  = order_reverse (nseq N_PAGES 0).
Proof. by cbv beta iota zeta delta [nth passes orders orderings checked]. Qed.

Lemma orders_1 (st : state) :
  nth [::] (orders HAVE_MLOCK o page_size st) 1
  = (order_random o (order_reverse (nseq N_PAGES 0)) (after st 0)).1.
Proof. by cbv beta iota zeta delta [nth passes orders orderings checked]. Qed.

Lemma pass_1 (st : state) :
  pass st 1
  = remap_order HAVE_MLOCK o (nth [::] (orders HAVE_MLOCK o page_size st) 1)
      (order_random o (order_reverse (nseq N_PAGES 0)) (after st 0)).2.
Proof. by cbv beta iota zeta delta [nth passes orders orderings checked]. Qed.

Lemma orders_2 (st : state) :
  nth [::] (orders HAVE_MLOCK o page_size st) 2
  = order_all_to_1 (nth [::] (orders HAVE_MLOCK o page_size st) 1).
Proof. by cbv beta iota zeta delta [nth passes orders orderings checked]. Qed.

Lemma pass_2 (st : state) :
  pass st 2
  = remap_order HAVE_MLOCK o (nth [::] (orders HAVE_MLOCK o page_size st) 2)
                (after st 1).
Proof. by cbv beta iota zeta delta [nth passes orders orderings checked]. Qed.

Lemma orders_3 (st : state) :
  nth [::] (orders HAVE_MLOCK o page_size st) 3
  = order_forward (nth [::] (orders HAVE_MLOCK o page_size st) 2).
Proof. by cbv beta iota zeta delta [nth passes orders orderings checked]. Qed.

Lemma pass_3 (st : state) :
  pass st 3
  = remap_order HAVE_MLOCK o (nth [::] (orders HAVE_MLOCK o page_size st) 3)
                (after st 2).
Proof. by cbv beta iota zeta delta [nth passes orders orderings checked]. Qed.

Lemma checked_to_pass (st : state) (k : nat) :
  k < 3 -> extends (after st k) (pass st k.+1).2.
Proof.
case: k => [|[|[|k]]] lt3; last by suff: false by [].
- rewrite pass_1.
  apply: (@trace_extends_trans (order_random o (order_reverse (nseq N_PAGES 0))
                                        (after st 0)).2).
    exact: extends_order_random.
  exact: extends_remap_order.
- rewrite pass_2; exact: extends_remap_order.
- rewrite pass_3; exact: extends_remap_order.
Qed.

Lemma checked_to_later (st : state) (k d : nat) :
  k + d < 3 -> extends (after st k) (pass st (k + d).+1).2.
Proof.
elim: d => [|d IH]; first by rewrite addn0; apply: checked_to_pass.
rewrite addnS => lt3.
apply: (trace_extends_trans (IH (ltnW lt3))).
apply: (trace_extends_trans (pass_to_checked _ _)).
exact: checked_to_pass.
Qed.

Lemma checked_to_end (st : state) (k : nat) :
  k < 4 -> extends (after st k) (finish st).
Proof.
move=> lt4.
have last : extends (after st 3) (finish st).
  rewrite /turn_end; cbv zeta.
  set s5 := if unmapped then _ else _.
  set s6 := if mapped then _ else _.
  have e5 : extends (after st 3) s5.
    by rewrite /s5; case: (unmapped);
       [apply: extends_illegal_remaps | apply: trace_extends_refl].
  have e6 : extends s5 s6.
    by rewrite /s6; case: (mapped);
       [apply: extends_illegal_remaps | apply: trace_extends_refl].
  exact: trace_extends_trans (trace_extends_trans e5 e6) (trace_extends_log _ _).
have via k' d : k' + d = 2 -> extends (after st k') (finish st).
  move=> eq2; apply: (@trace_extends_trans (after st 3)); last exact: last.
  apply: (@trace_extends_trans (pass st 3).2); last exact: pass_to_checked.
  by have := @checked_to_later st k' d; rewrite eq2; apply.
case: k lt4 => [|[|[|[|k]]]] lt4.
- exact: (via 0 2).
- exact: (via 1 1).
- exact: (via 2 0).
- exact: last.
- by suff: false by [].
Qed.

(** Whatever [check_order] reports after pass [k], the turn goes on from
    the state it leaves. *)
Lemma iteration_after_check (st : state) (k : nat) :
  k < 4 ->
  (forall j, j <= k -> ((pass st j).1 <? 0)%Z = false) ->
  extends (after st k) (turn st).2.
Proof.
move=> lt4 nn; rewrite iterationE.
apply: (@first_fail_after (0%Z, st) (extends (after st k))) nn _ _.
- by rewrite size_passes.
- rewrite size_passes => m lt_km lt_m; rewrite -(subnKC lt_km) addSn.
  by apply: checked_to_later; rewrite -ltnS -addSn subnKC.
- exact: checked_to_end.
Qed.

Lemma tagged_remap_order (order : seq nat) (st : state) :
  tagged page_size st ->
  tagged page_size (remap_order HAVE_MLOCK o order st).2.
Proof.
have [sh _ _] := remap_order_from_frame HAVE_MLOCK o order N_PAGES 0 st.
by rewrite (tagged_shmem _ sh).
Qed.

Lemma tagged_check_order (order : seq nat) (ordering : string)
    (st : state) :
  tagged page_size st ->
  tagged page_size (check_order page_size order ordering st).
Proof.
have [sh _ _ _] := check_order_frame page_size order ordering st.
by rewrite (tagged_shmem _ sh).
Qed.

Lemma tagged_order_random (order : seq nat) (st : state) :
  tagged page_size st -> tagged page_size (order_random o order st).2.
Proof. by rewrite order_random_state. Qed.

(** The tags stay in place through a turn, and its orders are orders of
    page indices. *)
Lemma turn_tagged (st : state) :
  (forall j, mwc32modn o j < N_PAGES) -> tagged page_size st ->
  [/\ tagged page_size (after st 0), tagged page_size (after st 1)
    & tagged page_size (after st 2)]
  /\ [/\ in_range (nth [::] (orders HAVE_MLOCK o page_size st) 0),
         in_range (nth [::] (orders HAVE_MLOCK o page_size st) 1),
         in_range (nth [::] (orders HAVE_MLOCK o page_size st) 2)
       & in_range (nth [::] (orders HAVE_MLOCK o page_size st) 3)].
Proof.
move=> lt_draw tg0.
have sz0 : size (nseq N_PAGES 0) <= N_PAGES by rewrite size_nseq.
have tg_a0 : tagged page_size (after st 0).
  rewrite checked_k pass_0.
  exact: tagged_check_order (tagged_remap_order _ tg0).
have tg_a1 : tagged page_size (after st 1).
  rewrite checked_k pass_1.
  apply: tagged_check_order; apply: tagged_remap_order.
  exact: tagged_order_random.
have tg_a2 : tagged page_size (after st 2).
  rewrite checked_k pass_2.
  exact: tagged_check_order (tagged_remap_order _ tg_a1).
split; first by split.
have [rng0 _ _ _] := orders_in_range st sz0 lt_draw.
have sz1 : size (order_reverse (nseq N_PAGES 0)) <= N_PAGES.
  by rewrite (order_reverseE sz0) size_mkseq.
have [_ rng1 _ _] := orders_in_range (after st 0) sz1 lt_draw.
have sz2 := order_random_size (after st 0) lt_draw sz1.
have le2 : size (nth [::] (orders HAVE_MLOCK o page_size st) 1) <= N_PAGES.
  by rewrite orders_1 sz2.
have [_ _ rng2 _] := orders_in_range st le2 lt_draw.
have le3 : size (nth [::] (orders HAVE_MLOCK o page_size st) 2) <= N_PAGES.
  by rewrite orders_2 (order_all_to_1E le2) size_nseq.
have [_ _ _ rng3] := orders_in_range st le3 lt_draw.
split.
- by rewrite orders_0.
- by rewrite orders_1.
- by rewrite orders_2.
- by rewrite orders_3.
Qed.

(** With the tags in place every pass of the turn that does not fail is
    verified: the tags read back are its order, and the check reports
    nothing. *)
Lemma turn_verified (st : state) (k : nat) :
  0 < stride page_size -> (forall j, mwc32modn o j < N_PAGES) ->
  tagged page_size st -> k < 4 ->
  ((pass st k).1 <? 0)%Z = false ->
  (forall i, i < N_PAGES ->
     data_get page_size (pass st k).2 (i * stride page_size)
     = nth 0 (nth [::] (orders HAVE_MLOCK o page_size st) k) i)
  /\ after st k = (pass st k).2.
Proof.
move=> gt0 lt_draw tg0 lt4.
have [[tg_a0 tg_a1 tg_a2] [rng0 rng1 rng2 rng3]] := turn_tagged lt_draw tg0.
have tg_r : tagged page_size
    (order_random o (order_reverse (nseq N_PAGES 0)) (after st 0)).2.
  exact: tagged_order_random.
rewrite checked_k.
case: k lt4 => [|[|[|[|k]]]] lt4; last by suff: false by [].
- rewrite pass_0 => nneg.
  have [rd chk _] := pass_checked (nth ""%string orderings 0) gt0 tg0 rng0 nneg.
  by split; [exact: rd | exact: chk].
- rewrite pass_1 => nneg.
  have [rd chk _] := pass_checked (nth ""%string orderings 1) gt0 tg_r rng1 nneg.
  by split; [exact: rd | exact: chk].
- rewrite pass_2 => nneg.
  have [rd chk _] := pass_checked (nth ""%string orderings 2) gt0 tg_a1 rng2 nneg.
  by split; [exact: rd | exact: chk].
- rewrite pass_3 => nneg.
  have [rd chk _] := pass_checked (nth ""%string orderings 3) gt0 tg_a2 rng3 nneg.
  by split; [exact: rd | exact: chk].
Qed.

End Turn.

(** C1.  A turn of the loop makes its four passes, with the reverse, the
    random, the collapse and the identity order, and calls [check_order]
    on each pass that did not fail, with the order of that pass, before
    it goes on: it is cut short only by a pass that fails, and otherwise
    runs to its end whatever the checks report.  With the tags in place
    (as they are after initialisation, and as every pass and check
    leaves them) and the kernel applying the remaps it reports as done,
    the tag read back through every page [i] after such a pass is
    [order[i]], and the check reports nothing.  Whenever some page reads
    back another tag, [check_order] logs one failure and changes nothing
    else, and the turn goes on from there; at its end the loop asks
    [keep_stressing] as after any other turn. *)
Theorem check_order_after_pass (HAVE_MLOCK : bool) (o : oracle)
    (page_size : nat) :
  0 < stride page_size ->
  (forall order ordering st,
      tagged page_size st -> in_range order ->
      ((remap_order HAVE_MLOCK o order st).1 <? 0)%Z = false ->
      (forall i, i < N_PAGES ->
         data_get page_size (remap_order HAVE_MLOCK o order st).2
                  (i * stride page_size) = nth 0 order i)
      /\ check_order page_size order ordering
                     (remap_order HAVE_MLOCK o order st).2
         = (remap_order HAVE_MLOCK o order st).2
      /\ tagged page_size (remap_order HAVE_MLOCK o order st).2)
  /\ tagged page_size (init_tags page_size (fresh page_size))
  /\ (forall order0 st,
        size order0 <= N_PAGES -> (forall k, mwc32modn o k < N_PAGES) ->
        [/\ in_range (order_reverse order0),
            in_range (order_random o order0 st).1,
            in_range (order_all_to_1 order0)
          & in_range (order_forward order0)])
  /\ (forall order ordering st i,
        i < N_PAGES ->
        data_get page_size st (i * stride page_size) <> nth 0 order i ->
        check_order page_size order ordering st
        = pr_fail (check_order_msg ordering) st)
  /\ (forall unmapped mapped st st',
        iteration HAVE_MLOCK o page_size unmapped mapped st = (Break, st') ->
        exists tr, trace st' = rcons tr (Pr_fail remap_fail_msg))
  /\ (forall unmapped mapped st,
        (forall k, k < 4 ->
           ((nth (0%Z, st) (passes HAVE_MLOCK o page_size st) k).1 <? 0)%Z
           = false) ->
        iteration HAVE_MLOCK o page_size unmapped mapped st
        = (Continue, turn_end HAVE_MLOCK o page_size unmapped mapped st))
  /\ (forall unmapped mapped st k,
        k < 4 ->
        (forall j, j <= k ->
           ((nth (0%Z, st) (passes HAVE_MLOCK o page_size st) j).1 <? 0)%Z
           = false) ->
        exists tl,
          trace (iteration HAVE_MLOCK o page_size unmapped mapped st).2
          = trace (checked HAVE_MLOCK o page_size st k) ++ tl)
  /\ (forall st k,
        (forall j, mwc32modn o j < N_PAGES) -> tagged page_size st ->
        k < 4 ->
        ((nth (0%Z, st) (passes HAVE_MLOCK o page_size st) k).1 <? 0)%Z
        = false ->
        (forall i, i < N_PAGES ->
           data_get page_size
                    (nth (0%Z, st) (passes HAVE_MLOCK o page_size st) k).2
                    (i * stride page_size)
           = nth 0 (nth [::] (orders HAVE_MLOCK o page_size st) k) i)
        /\ checked HAVE_MLOCK o page_size st k
           = (nth (0%Z, st) (passes HAVE_MLOCK o page_size st) k).2)
  /\ (forall st k i,
        i < N_PAGES ->
        data_get page_size
                 (nth (0%Z, st) (passes HAVE_MLOCK o page_size st) k).2
                 (i * stride page_size)
        <> nth 0 (nth [::] (orders HAVE_MLOCK o page_size st) k) i ->
        checked HAVE_MLOCK o page_size st k
        = pr_fail (check_order_msg (nth ""%string orderings k))
                  (nth (0%Z, st) (passes HAVE_MLOCK o page_size st) k).2)
  /\ (forall unmapped mapped fuel st,
        (forall k, k < 4 ->
           ((nth (0%Z, st) (passes HAVE_MLOCK o page_size st) k).1 <? 0)%Z
           = false) ->
        stress_loop HAVE_MLOCK o page_size unmapped mapped fuel.+1 st
        = if keep_stressing o
               (n_keep (turn_end HAVE_MLOCK o page_size unmapped mapped st))
          then stress_loop HAVE_MLOCK o page_size unmapped mapped fuel
                 (keep_stressing_call o
                    (turn_end HAVE_MLOCK o page_size unmapped mapped st)).2
          else Some (keep_stressing_call o
                       (turn_end HAVE_MLOCK o page_size unmapped mapped st)).2).
Proof.
move=> gt0.
split; [|split; [|split; [|split; [|split; [|split; [|split; [|split; [|split]]]]]]]].
- move=> order ordering st tg rng nneg.
  by have [rd chk tg'] := pass_checked ordering gt0 tg rng nneg.
- exact: tagged_init.
- by move=> order0 st; apply: orders_in_range.
- by move=> order ordering st i; apply: check_order_mismatch.
- by move=> unmapped mapped st st'; apply: iteration_break.
- by move=> unmapped mapped st; apply: iteration_complete.
- by move=> unmapped mapped st k; apply: iteration_after_check.
- by move=> st k lt_draw tg lt4; apply: turn_verified.
- by move=> st k i lt_i; apply: check_order_mismatch.
- by move=> unmapped mapped fuel st; apply: stress_loop_goes_on.
Qed.

Lemma check_order_after_pass_witness :
  check_order 4096 (order_reverse (nseq N_PAGES 0)) "reverse"
    (remap_order true calm (order_reverse (nseq N_PAGES 0))
                 (init_tags 4096 (fresh 4096))).2
  = (remap_order true calm (order_reverse (nseq N_PAGES 0))
                 (init_tags 4096 (fresh 4096))).2
  /\ iteration true calm 4096 true true (init_tags 4096 (fresh 4096))
     = (Continue, turn_end true calm 4096 true true
                           (init_tags 4096 (fresh 4096)))
  /\ exists tl,
       trace (iteration true calm 8 true true (fresh 8)).2
       = trace (pr_fail (check_order_msg (nth ""%string orderings 0))
                  (nth (0%Z, fresh 8) (passes true calm 8 (fresh 8)) 0).2)
         ++ tl.
Proof.
have gt0 : 0 < stride 4096 by vm_compute.
have gt0' : 0 < stride 8 by vm_compute.
have lt_draw : forall k, mwc32modn calm k < N_PAGES.
  by move=> k; apply: ltn_pmod.
have nneg : Z.ltb (remap_order true calm (order_reverse (nseq N_PAGES 0))
                               (init_tags 4096 (fresh 4096))).1 0 = false.
  reflexivity.
have all4 : forall k, k < 4 ->
    Z.ltb (nth (0%Z, init_tags 4096 (fresh 4096))
               (passes true calm 4096 (init_tags 4096 (fresh 4096))) k).1 0
    = false.
  by do 4 (case=> [_|]; first reflexivity).
have first : forall j, j <= 0 ->
    Z.ltb (nth (0%Z, fresh 8) (passes true calm 8 (fresh 8)) j).1 0 = false.
  by case=> [_|]; first reflexivity.
have bad : data_get 8 (nth (0%Z, fresh 8) (passes true calm 8 (fresh 8)) 0).2
                    (0 * stride 8)
           <> nth 0 (nth [::] (orders true calm 8 (fresh 8)) 0) 0.
  by vm_compute.
have := @check_order_after_pass true calm 4096 gt0.
move=> [pass [tg [rng [_ [_ [complete _]]]]]].
have := @check_order_after_pass true calm 8 gt0'.
move=> [_ [_ [_ [_ [_ [_ [goes_on [_ [report _]]]]]]]]].
have := rng (nseq N_PAGES 0) (fresh 4096) (leqnn _) lt_draw.
move=> [rv _ _ _].
have := pass _ "reverse"%string _ tg rv nneg.
move=> [_ [H _]].
split; first exact H.
split; first exact: (complete true true _ all4).
have [tl tr] := goes_on true true (fresh 8) 0 isT first.
exists tl.
exact: (etrans tr (congr1 (fun s => trace s ++ tl)
                          (report (fresh 8) 0 0 isT bad))).
Defined.

End RemapFacts.

(** * Properties of the user-syscall-dispatch stressor *)
Module UsersyscallFacts.
Import Usersyscall.

(** ** The scan of /proc/self/maps *)

Lemma prefixP (p s : string) :
  String.prefix p s <-> exists post, s = (p ++ post)%string.
Proof.
elim: p s => [|a p IH] s.
  by split=> _; [exists s | case: s].
case: s => [|b s] /=.
  by split=> [//|[post]].
case: (ascii_dec a b) => [->|ne].
  split=> [/IH [post ->]|[post [eq_s]]]; first by exists post.
  by apply/IH; exists post.
by split=> [//|[post [eq_ab _]]]; case: ne.
Qed.

Lemma strstr_nil (needle : string) :
  strstr "" needle = String.prefix needle "".
Proof. by rewrite /= orbF. Qed.

Lemma strstr_cons (a : ascii) (hay needle : string) :
  strstr (String a hay) needle
  = String.prefix needle (String a hay) || strstr hay needle.
Proof. by []. Qed.

Lemma strstrP (hay needle : string) :
  strstr hay needle <-> contains needle hay.
Proof.
elim: hay => [|a hay IH].
  rewrite strstr_nil; split.
    by move/prefixP => [post ->]; exists ""%string, post.
  by case=> pre [post eq_h]; apply/prefixP; exists post; case: pre eq_h.
rewrite strstr_cons; split.
  case/orP; first by move/prefixP => [post ->]; exists ""%string, post.
  by move/IH => [pre [post ->]]; exists (String a pre), post.
case=> -[|b pre] [post] eq_h; apply/orP.
  by left; apply/prefixP; exists post.
by right; apply/IH; case: eq_h => _ ->; exists pre, post.
Qed.

Lemma substring_all (s : string) (n : nat) :
  String.length s <= n -> String.substring 0 n s = s.
Proof.
elim: s n => [|a s IH] [|n] //=.
by rewrite ltnS => /IH ->.
Qed.

Lemma matchesP (l : maps_line) :
  String.length (perm l) <= 4 -> matches l <-> libc_text l.
Proof.
move=> le4; rewrite /matches /strncmp_eq (substring_all le4) /=.
split.
  case/andP => /andP [/andP [/Z.eqb_eq n8 /String.eqb_eq pm] /strstrP so].
  by case/orP => /strstrP lc; split=> //; [left | right].
case=> n8 pm /strstrP so lc; rewrite so andbT.
apply/andP; split; first by apply/andP; split; [apply/Z.eqb_eq | apply/String.eqb_eq].
by apply/orP; case: lc => /strstrP ->; [left | right].
Qed.
Lemma scan_lineE (be : Z * Z) (l : maps_line) :
  scan_line be l
  = if matches l
    then ((if (map_begin l <? be.1)%Z then map_begin l else be.1),
          (if (be.2 <? map_end l)%Z then map_end l else be.2))
    else be.
Proof.
rewrite /scan_line /matches.
case: (_ && _) => //=.
Qed.

Lemma scan_fold (lines : seq maps_line) (b0 e0 : Z) :
  let be := foldl scan_line (b0, e0) lines in
  [/\ (be.1 <= b0)%Z, (e0 <= be.2)%Z,
      be.1 = b0 \/ exists l, [/\ List.In l lines, matches l & map_begin l = be.1]
    & be.2 = e0 \/ exists l, [/\ List.In l lines, matches l & map_end l = be.2]]
  /\ (forall l, List.In l lines -> matches l ->
        (be.1 <= map_begin l)%Z /\ (map_end l <= be.2)%Z).
Proof.
elim: lines b0 e0 => [|x lines IH] b0 e0 /=.
  by split; [split; try lia; left | move=> l []].
have := IH (scan_line (b0, e0) x).1 (scan_line (b0, e0) x).2.
rewrite -surjective_pairing.
set be := foldl scan_line _ lines.
rewrite scan_lineE /=.
case mx: (matches x) => /=; last first.
  move=> [[le_b le_e at_b at_e] bnd]; split; first split=> //.
  - by case: at_b => [|[l [l_in ml eq_l]]]; [left | right; exists l; split=> //; right].
  - by case: at_e => [|[l [l_in ml eq_l]]]; [left | right; exists l; split=> //; right].
  - by move=> l [<-|l_in] ml; [rewrite mx in ml | apply: bnd].
have in_x : List.In x (x :: lines) by left.
case: (Z.ltb_spec (map_begin x) b0) => cb;
  case: (Z.ltb_spec e0 (map_end x)) => ce [[le_b le_e at_b at_e] bnd].
all: split; [split; try lia | ].
all: try (by move=> l [<-|l_in] ml; [lia | have := bnd l l_in ml; lia]).
all: try (by case: at_b => [eq_b|[l [l_in ml eq_l]]];
            [ (left; lia) || (right; exists x; split=> //; lia)
            | right; exists l; split=> //; right ]).
all: try (by case: at_e => [eq_e|[l [l_in ml eq_l]]];
            [ (left; lia) || (right; exists x; split=> //; lia)
            | right; exists l; split=> //; right ]).
Qed.

(** ** The scan of a listing *)

Section Listing.
Local Open Scope Z_scope.

Lemma In_map (f : mapping -> maps_line) (ms : seq mapping) (l : maps_line) :
  List.In l [seq f m | m <- ms] <-> exists m, List.In m ms /\ l = f m.
Proof.
split.
  elim: ms => [|m0 ms IH] //=.
  case=> [<-|/IH [m [m_in ->]]]; first by exists m0; split=> //; left.
  by exists m; split=> //; right.
case=> m [m_in ->]; elim: ms m_in => [|m0 ms IH] //=.
by case=> [->|/IH]; [left | right].
Qed.

Lemma length_substring (n : nat) (s : string) :
  (String.length (String.substring 0 n s) <= n)%N.
Proof. by elim: s n => [|a s IH] [|n] //=; apply: IH. Qed.

Lemma no_space_skip (s : string) : no_space s -> skip_space s = s.
Proof. by case: s => [|c s] //= /andP [/negbTE ->]. Qed.

Lemma no_space_word (s : string) : no_space s -> word s = s.
Proof. by elim: s => [|c s IH] //= /andP [/negbTE -> /IH ->]. Qed.

Lemma scan_s_id (width : nat) (s : string) :
  no_space s -> (String.length s <= width)%N -> scan_s width s = s.
Proof.
move=> ns le_w.
by rewrite /scan_s (no_space_skip ns) (no_space_word ns) substring_all.
Qed.

Lemma contains_nonempty (needle hay : string) :
  needle <> EmptyString -> contains needle hay -> hay <> EmptyString.
Proof.
move=> ne [pre [post eq_h]] eq0; move: eq_h; rewrite eq0.
by case: pre => [|c pre] //=; case: needle ne.
Qed.

Lemma listed_well_formed (m : mapping) :
  listed m -> well_formed (sscanf_line m).
Proof.
case=> rng e_max _ _ _; split=> //.
exact: length_substring.
Qed.

Lemma libc_text_sscanf (m : mapping) :
  listed m -> libc_text (sscanf_line m) <-> libc_region m.
Proof.
case=> _ _ len4 ns _.
have pm : scan_s 4 (m_perm m) = m_perm m.
  by apply: scan_s_id => //; rewrite len4.
rewrite /libc_text /libc_region /sscanf_line /= pm.
split; first by case.
case=> eq_p so lc; split=> //.
have ne : ".so"%string <> EmptyString by [].
have nz := contains_nonempty ne so.
by case: (scan_s PATH_MAX (m_path m)) nz => [|c w] // /(_ erefl).
Qed.

Lemma scan_lines_bounds (lines : seq maps_line) :
  (forall l, List.In l lines -> n_conv l = 8 -> well_formed l) ->
  ((forall l, List.In l lines -> ~ libc_text l) ->
     stress_sigsys_libc_mapping (Some lines) = (-1, (0, 0)))
  /\ ((exists l, List.In l lines /\ libc_text l) ->
      exists b e,
        [/\ stress_sigsys_libc_mapping (Some lines) = (0, (b, e)),
            exists l, [/\ List.In l lines, libc_text l & map_begin l = b],
            forall l, List.In l lines -> libc_text l -> b <= map_begin l,
            exists l, [/\ List.In l lines, libc_text l & map_end l = e]
          & forall l, List.In l lines -> libc_text l -> map_end l <= e]).
Proof.
move=> wf.
have mP l : List.In l lines -> matches l <-> libc_text l.
  move=> l_in; split.
    move=> ml; have n8 : n_conv l = 8%Z.
      by move: ml; rewrite /matches; case: Z.eqb_spec.
    by have [le4 _ _] := wf l l_in n8; apply/matchesP.
  by move=> lt; have [n8 _ _ _] := lt; have [le4 _ _] := wf l l_in n8; apply/matchesP.
have [[le_b le_e at_b at_e] bnd] := scan_fold lines UINTPTR_MAX 0.
rewrite /stress_sigsys_libc_mapping.
move: le_b le_e at_b at_e bnd; set be := foldl _ _ _ => le_b le_e at_b at_e bnd.
split.
  move=> none.
  case: at_b => [->|[l [l_in ml _]]]; first by rewrite Z.eqb_refl.
  by case: (none l l_in); apply/mP.
case=> l0 [l0_in /mP -/(_ l0_in) m0].
have [n8 _ _ _] : libc_text l0 by apply/mP.
have [_ rng0 max0] := wf l0 l0_in n8.
have [lo0 hi0] := bnd l0 l0_in m0.
have nb : (be.1 =? UINTPTR_MAX)%Z = false by apply/Z.eqb_neq; lia.
have ne : (be.2 =? 0)%Z = false by apply/Z.eqb_neq; lia.
rewrite nb ne /=; exists be.1, be.2; split.
- by rewrite -surjective_pairing.
- case: at_b => [eq_b|[l [l_in ml eq_l]]]; first by lia.
  by exists l; split=> //; apply/mP.
- by move=> l l_in /mP -/(_ l_in) ml; have [] := bnd l l_in ml.
- case: at_e => [eq_e|[l [l_in ml eq_l]]]; first by lia.
  by exists l; split=> //; apply/mP.
- by move=> l l_in /mP -/(_ l_in) ml; have [] := bnd l l_in ml.
Qed.

Lemma scan_listing_bounds (ms : seq mapping) :
  (forall m, List.In m ms -> listed m) ->
  ((forall m, List.In m ms -> ~ libc_region m) ->
     scan_listing ms = (-1, (0, 0)))
  /\ ((exists m, List.In m ms /\ libc_region m) ->
      exists b e,
        [/\ scan_listing ms = (0, (b, e)),
            exists m, [/\ List.In m ms, libc_region m & m_begin m = b],
            forall m, List.In m ms -> libc_region m -> b <= m_begin m,
            exists m, [/\ List.In m ms, libc_region m & m_end m = e]
          & forall m, List.In m ms -> libc_region m -> m_end m <= e]).
Proof.
move=> ls.
have wf l : List.In l [seq sscanf_line m | m <- ms] -> n_conv l = 8 ->
            well_formed l.
  by move/In_map => [m [m_in ->]] _; apply/listed_well_formed/ls.
have [none found] := scan_lines_bounds wf.
split.
  move=> no; apply: none => l /In_map [m [m_in ->]] lt.
  by apply: (no m m_in); apply/(libc_text_sscanf (ls m m_in)).
case=> m0 [m0_in r0].
have [|b [e [scan [lb [lb_in tb eq_b]] lo [le [le_in te eq_e]] hi]]] := found.
  exists (sscanf_line m0); split; first by apply/In_map; exists m0.
  exact/(libc_text_sscanf (ls m0 m0_in)).
exists b, e; split=> //.
- move/In_map: lb_in => [m [m_in eq_l]]; exists m; split=> //.
    by apply/(libc_text_sscanf (ls m m_in)); rewrite -eq_l.
  by rewrite -eq_b eq_l.
- move=> m m_in rm.
  apply: (lo (sscanf_line m)); first by apply/In_map; exists m.
  exact/(libc_text_sscanf (ls m m_in)).
- move/In_map: le_in => [m [m_in eq_l]]; exists m; split=> //.
    by apply/(libc_text_sscanf (ls m m_in)); rewrite -eq_l.
  by rewrite -eq_e eq_l.
- move=> m m_in rm.
  apply: (hi (sscanf_line m)); first by apply/In_map; exists m.
  exact/(libc_text_sscanf (ls m m_in)).
Qed.

(** C8.  The scan fails, with both bounds 0, when /proc/self/maps cannot
    be opened or no line of it, as [sscanf] converts it, describes an
    executable region of the C library; otherwise it succeeds and [begin]
    is the least start and [end] the greatest end of the regions so
    described.  For a listing this means: the regions mapped r-xp whose
    path, cut at its first white space, contains [.so] and [/libc-] or
    [/libc.so].  For a path without white space that is the path
    itself. *)
Theorem libc_mapping_bounds :
  stress_sigsys_libc_mapping None = (-1, (0, 0))
  /\ (forall lines,
       (forall l, List.In l lines -> n_conv l = 8 -> well_formed l) ->
       ((forall l, List.In l lines -> ~ libc_text l) ->
          stress_sigsys_libc_mapping (Some lines) = (-1, (0, 0)))
       /\ ((exists l, List.In l lines /\ libc_text l) ->
           exists b e,
             [/\ stress_sigsys_libc_mapping (Some lines) = (0, (b, e)),
                 exists l, [/\ List.In l lines, libc_text l & map_begin l = b],
                 forall l, List.In l lines -> libc_text l -> b <= map_begin l,
                 exists l, [/\ List.In l lines, libc_text l & map_end l = e]
               & forall l, List.In l lines -> libc_text l -> map_end l <= e]))
  /\ (forall ms,
       (forall m, List.In m ms -> listed m) ->
       ((forall m, List.In m ms -> ~ libc_region m) ->
          scan_listing ms = (-1, (0, 0)))
       /\ ((exists m, List.In m ms /\ libc_region m) ->
           exists b e,
             [/\ scan_listing ms = (0, (b, e)),
                 exists m, [/\ List.In m ms, libc_region m & m_begin m = b],
                 forall m, List.In m ms -> libc_region m -> b <= m_begin m,
                 exists m, [/\ List.In m ms, libc_region m & m_end m = e]
               & forall m, List.In m ms -> libc_region m -> m_end m <= e]))
  /\ (forall m,
       no_space (m_path m) -> (String.length (m_path m) <= PATH_MAX)%N ->
       libc_region m <-> names_libc m).
Proof.
split=> //; split; first exact: scan_lines_bounds.
split; first exact: scan_listing_bounds.
by move=> m ns le_p; rewrite /libc_region /names_libc (scan_s_id ns le_p).
Qed.

Lemma libc_mapping_bounds_witness :
  exists b e,
    [/\ scan_listing sample_listing = (0, (b, e)),
        exists m, [/\ List.In m sample_listing, libc_region m & m_begin m = b],
        forall m, List.In m sample_listing -> libc_region m -> b <= m_begin m,
        exists m, [/\ List.In m sample_listing, libc_region m & m_end m = e]
      & forall m, List.In m sample_listing -> libc_region m -> m_end m <= e].
Proof.
have [_ [_ [scan _]]] := libc_mapping_bounds.
have ls : forall m, List.In m sample_listing -> listed m.
  move=> m; rewrite /sample_listing /=.
  by case=> [<-|[<-|[<-|[<-|[<-|[]]]]]]; split=> //; rewrite /UINTPTR_MAX /=; lia.
have [_ found] := scan sample_listing ls.
apply: found.
exists (Mapping 0x7f3a10400000 0x7f3a10420000 "r-xp" 73
                "/opt/compat/lib/libc-2.31.so (deleted)").
split; first by right; right; left.
split=> //.
  by exists "/opt/compat/lib/libc-2.31"%string, ""%string.
by left; exists "/opt/compat/lib"%string, "2.31.so"%string.
Defined.

(** C8, as worded: a C library under a path with a space in it is mapped
    r-xp and its path contains [/libc.so] and [.so], but [%s] stops at
    the space, the line does not pass the test, and the scan of a
    listing that holds this region alone fails. *)
Theorem libc_path_with_space :
  [/\ listed spaced_libc, names_libc spaced_libc
    & scan_listing [:: spaced_libc] = (-1, (0, 0))].
Proof.
split=> //; split=> //.
  by exists "/opt/my libs/libc"%string, ".6"%string.
by right; exists "/opt/my libs"%string, ".6"%string.
Qed.

End Listing.

(** ** The probes *)

Section Probes.

Variable NR_syscalls : option Z.
Variable EXERCISE_X86_SYSCALL : bool.
Variable o : oracle.

Lemma errno_syscall (number : Z) (st : state) :
  errno (syscall o number st).2 = errno_after (sys o (n_sys st)) (errno st).
Proof.
rewrite /syscall /enter_kernel /errno_after /stress_sigsys_handler.
by case: (sys o (n_sys st)) => [[[i|]|] v [e|]].
Qed.

Lemma trace_syscall (number : Z) (st : state) :
  trace (syscall o number st).2
  = rcons (trace st) (Syscall number (selector st)).
Proof.
rewrite /syscall /enter_kernel /stress_sigsys_handler.
by case: (sys o (n_sys st)) => [[[i|]|] v [e|]].
Qed.

Lemma test_case_1_trace (st : state) :
  (prctl_res o (n_prctl st)).1 ->
  (test_case_1 NR_syscalls o st).1 = Fall
  /\ trace (test_case_1 NR_syscalls o st).2
     = trace st
       ++ [:: Prctl PR_SYS_DISPATCH_ON 0 0 true 0;
              Syscall (USR_SYSCALL NR_syscalls) SYSCALL_DISPATCH_FILTER_ALLOW]
       ++ (if (errno_after (sys o (n_sys st)) 0 =? ENOSYS)%Z then [::]
           else [:: Pr_fail enosys_msg]).
Proof.
rewrite /test_case_1 /prctl /syscall /enter_kernel /stress_sigsys_handler
        /errno_after /=.
case: (prctl_res o (n_prctl st)) => ok e /= ->.
case: (sys o (n_sys st)) => [[[i|]|] v [e'|]] /=.
all: by try case: (e' =? ENOSYS)%Z; rewrite /= -!cats1 -!catA.
Qed.

Lemma test_case_2_skip (st : state) :
  to_int (value (sys o (n_sys st))) <> USR_SYSCALL NR_syscalls ->
  errno_after (sys o (n_sys st)) (errno st) = ENOSYS ->
  (test_case_2 NR_syscalls o st).1 = Goto_err
  /\ trace (test_case_2 NR_syscalls o st).2
     = trace st
       ++ [:: Syscall (USR_SYSCALL NR_syscalls) SYSCALL_DISPATCH_FILTER_BLOCK;
              Pr_inf_skip skip_msg].
Proof.
move=> /Z.eqb_neq ne.
rewrite /test_case_2 /syscall /enter_kernel /stress_sigsys_handler
        /errno_after /=.
case: (sys o (n_sys st)) ne => [[[i|]|] v [e'|]] /= -> /= ->;
  by rewrite /= -!cats1 -!catA.
Qed.

Lemma test_case_2_mismatch (st : state) :
  to_int (value (sys o (n_sys st))) <> USR_SYSCALL NR_syscalls ->
  errno_after (sys o (n_sys st)) (errno st) <> ENOSYS ->
  (test_case_2 NR_syscalls o st).1 = Continue
  /\ trace (test_case_2 NR_syscalls o st).2
     = trace st
       ++ [:: Syscall (USR_SYSCALL NR_syscalls) SYSCALL_DISPATCH_FILTER_BLOCK;
              Pr_fail ret_msg].
Proof.
move=> /Z.eqb_neq ne.
rewrite /test_case_2 /syscall /enter_kernel /stress_sigsys_handler
        /errno_after /=.
case: (sys o (n_sys st)) ne => [[[i|]|] v [e'|]] /= -> /= /Z.eqb_neq ->;
  by rewrite /= -!cats1 -!catA.
Qed.

Lemma extends_refl st : extends st st.
Proof. by exists [::]; rewrite cats0. Qed.

Lemma extends_trans st2 st1 st3 :
  extends st1 st2 -> extends st2 st3 -> extends st1 st3.
Proof. by move=> [t1 e1] [t2 e2]; exists (t1 ++ t2); rewrite e2 e1 catA. Qed.

Lemma extends_log e st : extends st (log e st).
Proof. by exists [:: e]; rewrite /= cats1. Qed.

Lemma extends_prctl m a b w st : extends st (prctl o m a b w st).2.
Proof.
rewrite /prctl /extends; case: (prctl_res o _) => ok e.
by rewrite [trace _]/= -cats1; eexists.
Qed.

Lemma extends_syscall nr st : extends st (syscall o nr st).2.
Proof. by rewrite /extends trace_syscall -cats1; eexists. Qed.

Lemma extends_raw nr st : extends st (x86_64_syscall0 o nr st).2.
Proof.
rewrite /x86_64_syscall0 /enter_kernel /stress_sigsys_handler.
rewrite /extends.
by case: (sys o (n_sys st)) => [[[i|]|] v e'] /=; case: (v <? 0)%Z;
   rewrite [trace _]/= -cats1; eexists.
Qed.

(** The second probe always starts with its system call, issued with
    the selector on Block. *)
Lemma test_case_2_starts (st : state) :
  exists tl,
    trace (test_case_2 NR_syscalls o st).2
    = trace st
      ++ Syscall (USR_SYSCALL NR_syscalls) SYSCALL_DISPATCH_FILTER_BLOCK :: tl.
Proof.
rewrite /test_case_2.
set st1 := dispatcher_on _.
have := trace_syscall (USR_SYSCALL NR_syscalls) st1.
case: (syscall o _ st1) => r st2; cbv beta iota zeta.
rewrite [(r, st2).2]/= [trace st1]/= [selector st1]/= => tr2.
have start st' : extends (dispatcher_off st2) st' ->
    exists tl, trace st' = trace st
      ++ Syscall (USR_SYSCALL NR_syscalls) SYSCALL_DISPATCH_FILTER_BLOCK :: tl.
  by case=> tl ->; exists tl; rewrite [trace (dispatcher_off st2)]/= tr2 -cats1 -catA.
case: (~~ _); first by case: (_ =? _)%Z; apply: start; apply: extends_log.
case: (~~ _); first by apply: start; apply: extends_log.
case: (~~ _); first by apply: start; apply: extends_log.
by apply: start; apply: extends_prctl.
Qed.

Lemma extends_same st st' : trace st' = trace st -> extends st st'.
Proof. by move=> eq_tr; exists [::]; rewrite cats0. Qed.

Lemma extends_test_case_3 pid b e st : extends st (test_case_3 o pid b e st).
Proof.
rewrite /test_case_3.
have := extends_prctl PR_SYS_DISPATCH_ON b ((e - b) mod 2 ^ 64) true st.
case: (prctl o _ _ _ _ st) => r1 s1; cbv beta iota zeta.
rewrite [(r1, s1).2]/= => x1.
set s2 := dispatcher_on (set_errno 0 _).
have x2 : extends st s2.
  apply: extends_trans x1 _; rewrite /s2; case: (~~ _).
    by apply: extends_trans (extends_log (Pr_inf dispatch_msg) s1) _;
       apply: extends_same.
  exact: extends_same.
have := extends_syscall NR_getpid s2.
case: (syscall o NR_getpid s2) => r3 s3; rewrite [(r3, s3).2]/= => x3.
set s4 := dispatcher_on (set_errno 0 _).
have x4 : extends st s4.
  by apply: extends_trans x2 _; apply: extends_trans x3 _; apply: extends_same.
have := extends_raw NR_getpid s4.
case: (x86_64_syscall0 o NR_getpid s4) => r5 s5; rewrite [(r5, s5).2]/= => x5.
set s6 := (prctl o _ _ _ _ _).2.
have x6 : extends st s6.
  apply: extends_trans x4 _; apply: extends_trans x5 _.
  apply: extends_trans (extends_prctl _ _ _ _ (dispatcher_off s5)).
  exact: extends_same.
case: (~~ _); case: (~~ _) => //.
- exact: extends_trans (extends_trans x6 (extends_log _ _)) (extends_log _ _).
- exact: extends_trans x6 (extends_log _ _).
- exact: extends_trans x6 (extends_log _ _).
Qed.

End Probes.

(** ** The loop *)

Section Loop.
Variable NR_syscalls : option Z.
Variable EXERCISE_X86_SYSCALL : bool.
Variable o : oracle.
Variable libc_ok : bool.
Variables pid begin end_ : Z.

Lemma iteration_after_test_case_1 (st : state) :
  (test_case_1 NR_syscalls o st).1 = Fall ->
  exists tl,
    trace (iteration NR_syscalls EXERCISE_X86_SYSCALL o libc_ok pid begin end_ st).2
    = trace (test_case_1 NR_syscalls o st).2
      ++ Syscall (USR_SYSCALL NR_syscalls) SYSCALL_DISPATCH_FILTER_BLOCK :: tl.
Proof.
rewrite /iteration.
case: (test_case_1 NR_syscalls o st) => fl s1; rewrite [(fl, s1).1]/= [(fl, s1).2]/= => ->.
have [tl2 e2] := test_case_2_starts NR_syscalls o s1.
case: (test_case_2 NR_syscalls o s1) e2 => fl2 s2; rewrite [(fl2, s2).2]/= => e2.
case: fl2; try by exists tl2.
set s3 := if _ then _ else s2.
have [tl3 e3] : extends s2 s3.
  by rewrite /s3; case: (_ && _); [apply: extends_test_case_3 | apply: extends_refl].
exists (tl2 ++ rcons tl3 Inc_counter).
by rewrite [(_, _).2]/= [trace (log _ _)]/= e3 e2 -!cats1 -!catA cat_cons.
Qed.

Lemma iteration_goto_err (st : state) :
  (test_case_1 NR_syscalls o st).1 = Fall ->
  (test_case_2 NR_syscalls o (test_case_1 NR_syscalls o st).2).1 = Goto_err ->
  iteration NR_syscalls EXERCISE_X86_SYSCALL o libc_ok pid begin end_ st
  = (Goto_err, (test_case_2 NR_syscalls o (test_case_1 NR_syscalls o st).2).2).
Proof.
rewrite /iteration.
case: (test_case_1 NR_syscalls o st) => fl s1; rewrite [(fl, s1).1]/= [(fl, s1).2]/= => ->.
by case: (test_case_2 NR_syscalls o s1) => fl2 s2 /= ->.
Qed.

Lemma stress_loop_goto_err (fuel : nat) (st : state) :
  (iteration NR_syscalls EXERCISE_X86_SYSCALL o libc_ok pid begin end_ st).1
    = Goto_err ->
  stress_loop NR_syscalls EXERCISE_X86_SYSCALL o libc_ok pid begin end_ fuel.+1 st
  = Some (EXIT_NOT_IMPLEMENTED,
          (iteration NR_syscalls EXERCISE_X86_SYSCALL o libc_ok pid begin end_ st).2).
Proof. by rewrite /=; case: (iteration _ _ _ _ _ _ _ _) => fl s1 /= ->. Qed.

End Loop.


(** C7.  With the selector on Allow and dispatch enabled, the reserved
    system call is expected to leave ENOSYS in errno: then nothing is
    reported.  Any other errno is reported as one failure.  Either way
    the body goes on to the probe with the selector on Block. *)
Theorem enosys_expected_without_dispatch (NR_syscalls : option Z)
    (EXERCISE_X86_SYSCALL : bool) (o : oracle) (st : state) :
  (prctl_res o (n_prctl st)).1 ->
  [/\ (test_case_1 NR_syscalls o st).1 = Fall,
      trace (test_case_1 NR_syscalls o st).2
      = trace st
        ++ [:: Prctl PR_SYS_DISPATCH_ON 0 0 true 0;
               Syscall (USR_SYSCALL NR_syscalls) SYSCALL_DISPATCH_FILTER_ALLOW]
        ++ (if (errno_after (sys o (n_sys st)) 0 =? ENOSYS)%Z then [::]
            else [:: Pr_fail enosys_msg])
    & forall libc_ok pid begin end_,
      exists tl,
        trace (iteration NR_syscalls EXERCISE_X86_SYSCALL o libc_ok pid
                         begin end_ st).2
        = trace (test_case_1 NR_syscalls o st).2
          ++ Syscall (USR_SYSCALL NR_syscalls) SYSCALL_DISPATCH_FILTER_BLOCK
             :: tl].
Proof.
move=> ok; have [fall tr] := test_case_1_trace NR_syscalls ok; split=> //.
by move=> libc_ok pid begin end_; apply: iteration_after_test_case_1.
Qed.

Lemma enosys_expected_without_dispatch_witness :
  trace (test_case_1 None odd_errno fresh).2
  = [:: Prctl PR_SYS_DISPATCH_ON 0 0 true 0;
        Syscall 0xe000 SYSCALL_DISPATCH_FILTER_ALLOW;
        Pr_fail enosys_msg].
Proof.
have ok : (prctl_res odd_errno (n_prctl fresh)).1 by reflexivity.
have [_ -> _] := @enosys_expected_without_dispatch None true odd_errno fresh ok.
reflexivity.
Defined.

(** C6.  In the probe with the selector on Block, when the value that
    comes back is not the reserved number and errno is ENOSYS, the body
    logs an informational skip, reports no failure and jumps to [err]:
    the loop ends there and the stressor returns the not-implemented
    status. *)
Theorem enosys_skips_stressor (NR_syscalls : option Z)
    (EXERCISE_X86_SYSCALL : bool) (o : oracle) (st : state) :
  to_int (value (sys o (n_sys st))) <> USR_SYSCALL NR_syscalls ->
  errno_after (sys o (n_sys st)) (errno st) = ENOSYS ->
  [/\ (test_case_2 NR_syscalls o st).1 = Goto_err,
      trace (test_case_2 NR_syscalls o st).2
      = trace st
        ++ [:: Syscall (USR_SYSCALL NR_syscalls) SYSCALL_DISPATCH_FILTER_BLOCK;
               Pr_inf_skip skip_msg]
    & forall libc_ok pid begin end_ fuel st0,
        test_case_1 NR_syscalls o st0 = (Fall, st) ->
        stress_loop NR_syscalls EXERCISE_X86_SYSCALL o libc_ok pid begin end_
                    fuel.+1 st0
        = Some (EXIT_NOT_IMPLEMENTED, (test_case_2 NR_syscalls o st).2)].
Proof.
move=> ne enosys; have [skip tr] := test_case_2_skip ne enosys; split=> //.
move=> libc_ok pid begin end_ fuel st0 t1.
have it := @iteration_goto_err NR_syscalls EXERCISE_X86_SYSCALL o libc_ok pid
             begin end_ st0.
rewrite t1 /= in it; rewrite stress_loop_goto_err it //.
Qed.

Lemma enosys_skips_stressor_witness :
  stress_usersyscall None true no_dispatch 1
  = Some (EXIT_NOT_IMPLEMENTED,
          (test_case_2 None no_dispatch
             (test_case_1 None no_dispatch
                (log (Sigaction 0) fresh)).2).2).
Proof.
have ne : to_int (value (sys no_dispatch
                     (n_sys (test_case_1 None no_dispatch
                               (log (Sigaction 0) fresh)).2)))
          <> USR_SYSCALL None by [].
have en : errno_after (sys no_dispatch
                         (n_sys (test_case_1 None no_dispatch
                                   (log (Sigaction 0) fresh)).2))
                      (errno (test_case_1 None no_dispatch
                                (log (Sigaction 0) fresh)).2) = ENOSYS.
  reflexivity.
have [_ _ run] := @enosys_skips_stressor None true no_dispatch _ ne en.
rewrite /stress_usersyscall [(ret_of _ <? 0)%Z]/=.
by apply: run.
Defined.

(** ** Properties of a whole run *)

Section Run.
Local Open Scope Z_scope.

Section Steady.
Variable NR_syscalls : option Z.
Variable EXERCISE_X86_SYSCALL : bool.
Variable o : oracle.

Lemma steady_refl st : steady st st.
Proof. by []. Qed.

Lemma steady_trans st2 st1 st3 : steady st1 st2 -> steady st2 st3 -> steady st1 st3.
Proof. by move=> [k1 b1] [k2 b2]; split; rewrite ?k2 ?b2. Qed.

Lemma steady_same st st' :
  n_keep st' = n_keep st -> trace st' = trace st -> steady st st'.
Proof. by move=> nk tr; split=> //; rewrite /bogo_ops tr. Qed.

Lemma steady_log e st : ~~ is_inc e -> steady st (log e st).
Proof.
move=> ninc; split=> //; rewrite /bogo_ops /= -cats1 count_cat /=.
by rewrite (negbTE ninc) !addn0.
Qed.

Lemma steady_prctl m a b w st : steady st (prctl o m a b w st).2.
Proof.
rewrite /prctl; case: (prctl_res o _) => ok e; split=> //.
by rewrite /bogo_ops /= -cats1 count_cat /= !addn0.
Qed.

Lemma selector_prctl m a b w st :
  selector (prctl o m a b w st).2 = selector st.
Proof. by rewrite /prctl; case: (prctl_res o _). Qed.

Lemma steady_syscall nr st : steady st (syscall o nr st).2.
Proof.
split; last by rewrite /bogo_ops trace_syscall -cats1 count_cat /= !addn0.
rewrite /syscall /enter_kernel /stress_sigsys_handler.
by case: (sys o (n_sys st)) => [[[i|]|] v [e|]].
Qed.

Lemma steady_raw nr st : steady st (x86_64_syscall0 o nr st).2.
Proof.
rewrite /x86_64_syscall0 /enter_kernel /stress_sigsys_handler.
by case: (sys o (n_sys st)) => [[[i|]|] v e] /=; case: (v <? 0); split=> //;
   rewrite /bogo_ops /= -cats1 count_cat /= !addn0.
Qed.

Lemma test_case_1_steady st :
  steady st (test_case_1 NR_syscalls o st).2
  /\ selector (test_case_1 NR_syscalls o st).2 = SYSCALL_DISPATCH_FILTER_ALLOW.
Proof.
rewrite /test_case_1.
have := steady_prctl PR_SYS_DISPATCH_ON 0 0 true (dispatcher_off st).
have := selector_prctl PR_SYS_DISPATCH_ON 0 0 true (dispatcher_off st).
case: (prctl o _ _ _ _ _) => r1 s1; cbv beta iota zeta.
rewrite [(r1, s1).2]/= [selector (dispatcher_off st)]/= => sel1 x1.
have x0 : steady st (dispatcher_off st) by apply: steady_same.
case: (~~ _).
  rewrite [(_, _).2]/=; split; last by [].
  have x01 := steady_trans x0 x1.
  apply: (steady_trans x01).
  by apply: steady_log.
have := steady_syscall (USR_SYSCALL NR_syscalls) (set_errno 0 s1).
have sel2 : selector (syscall o (USR_SYSCALL NR_syscalls) (set_errno 0 s1)).2
            = SYSCALL_DISPATCH_FILTER_ALLOW.
  rewrite /syscall /enter_kernel /stress_sigsys_handler.
  by case: (sys o _) => [[[i|]|] v [e|]] /=.
case: (syscall o _ _) sel2 => r2 s2; rewrite [(r2, s2).2]/= => sel2 x2.
have x12 : steady st s2.
  apply: steady_trans x0 _; apply: steady_trans x1 _.
  by apply: steady_trans x2; apply: steady_same.
rewrite [(_, _).2]/=; case: (~~ _); last by [].
by split=> //; apply: steady_trans x12 _; apply: steady_log.
Qed.

Lemma test_case_2_steady st :
  steady st (test_case_2 NR_syscalls o st).2
  /\ selector (test_case_2 NR_syscalls o st).2 = SYSCALL_DISPATCH_FILTER_ALLOW.
Proof.
rewrite /test_case_2.
set st1 := dispatcher_on _.
have x0 : steady st st1 by apply: steady_same.
have := steady_syscall (USR_SYSCALL NR_syscalls) st1.
case: (syscall o _ st1) => r st2; cbv beta iota zeta.
rewrite [(r, st2).2]/= => x1.
have x2 : steady st (dispatcher_off st2).
  by apply: steady_trans x0 _; apply: steady_trans x1 _; apply: steady_same.
have fin fl e : ~~ is_inc e ->
    steady st (fl, log e (dispatcher_off st2)).2
    /\ selector (fl, log e (dispatcher_off st2)).2
       = SYSCALL_DISPATCH_FILTER_ALLOW.
  by move=> ninc; split=> //; apply: steady_trans x2 _; apply: steady_log.
case: (~~ _); first by case: (_ =? _); apply: fin.
case: (~~ _); first exact: fin.
case: (~~ _); first exact: fin.
rewrite [(_, _).2]/= selector_prctl; split=> //.
exact: steady_trans x2 (steady_prctl _ _ _ _ _).
Qed.

Lemma test_case_3_steady pid b e st :
  steady st (test_case_3 o pid b e st)
  /\ selector (test_case_3 o pid b e st) = SYSCALL_DISPATCH_FILTER_ALLOW.
Proof.
rewrite /test_case_3.
have := steady_prctl PR_SYS_DISPATCH_ON b ((e - b) mod 2 ^ 64) true st.
case: (prctl o _ _ _ _ st) => r1 s1; cbv beta iota zeta.
rewrite [(r1, s1).2]/= => x1.
set s2 := dispatcher_on (set_errno 0 _).
have x2 : steady st s2.
  apply: steady_trans x1 _; rewrite /s2; case: (~~ _).
    by apply: steady_trans (steady_log s1 (e := Pr_inf dispatch_msg) isT) _;
       apply: steady_same.
  exact: steady_same.
have := steady_syscall NR_getpid s2.
case: (syscall o NR_getpid s2) => r3 s3; rewrite [(r3, s3).2]/= => x3.
set s4 := dispatcher_on (set_errno 0 _).
have x4 : steady st s4.
  by apply: steady_trans x2 _; apply: steady_trans x3 _; apply: steady_same.
have := steady_raw NR_getpid s4.
case: (x86_64_syscall0 o NR_getpid s4) => r5 s5; rewrite [(r5, s5).2]/= => x5.
set s6 := (prctl o _ _ _ _ _).2.
have x6 : steady st s6.
  apply: steady_trans x4 _; apply: steady_trans x5 _.
  apply: steady_trans (steady_prctl _ _ _ _ (dispatcher_off s5)).
  exact: steady_same.
have sel6 : selector s6 = SYSCALL_DISPATCH_FILTER_ALLOW.
  by rewrite /s6 selector_prctl.
have lg msg s : steady st s -> steady st (log (Pr_fail msg) s).
  by move=> xs; apply: steady_trans xs _; apply: steady_log.
case: (~~ _); case: (~~ _); split=> //.
- by apply: (lg); apply: (lg).
- exact: (lg _ _ x6).
- exact: (lg _ _ x6).
Qed.

End Steady.

Section Turn.
Variable NR_syscalls : option Z.
Variable EXERCISE_X86_SYSCALL : bool.
Variable o : oracle.

Lemma test_case_2_flow (st : state) :
  (test_case_2 NR_syscalls o st).1 = Fall
  <-> dispatched NR_syscalls (sys o (n_sys st)).
Proof.
rewrite /test_case_2 /syscall /enter_kernel /stress_sigsys_handler
        /dispatched /=.
case: (sys o (n_sys st)) => [[[[c e]|]|] v [ne|]] /=;
  case: (to_int v =? _) => /=;
  try (by case: (_ =? ENOSYS));
  try (by case: (c =? _) => //=; case: (e =? 0)).
Qed.

Lemma test_case_1_flow (st : state) :
  (test_case_1 NR_syscalls o st).1
  = (if (prctl_res o (n_prctl st)).1 then Fall else Break)
  /\ n_sys (test_case_1 NR_syscalls o st).2
     = (if (prctl_res o (n_prctl st)).1 then (n_sys st).+1 else n_sys st).
Proof.
rewrite /test_case_1 /prctl /syscall /enter_kernel /stress_sigsys_handler /=.
case: (prctl_res o (n_prctl st)) => [[|] e] //=.
by case: (sys o (n_sys st)) => [[[i|]|] v [e'|]] /=; try case: (_ =? ENOSYS).
Qed.

Lemma test_case_1_break (st : state) :
  (prctl_res o (n_prctl st)).1 = false ->
  test_case_1 NR_syscalls o st
  = (Break,
     log (Pr_inf dispatch_msg)
         (prctl o PR_SYS_DISPATCH_ON 0 0 true (dispatcher_off st)).2)
  /\ trace (test_case_1 NR_syscalls o st).2
     = (trace st ++ [:: Prctl PR_SYS_DISPATCH_ON 0 0 true (-1);
                       Pr_inf dispatch_msg])%SEQ.
Proof.
rewrite /test_case_1 /prctl /=.
by case: (prctl_res o (n_prctl st)) => [[|] e] //= _; rewrite -!cats1 -catA.
Qed.

Variable libc_ok : bool.
Variables pid begin end_ : Z.

Lemma usr_iteration_steady (st : state) :
  let r := iteration NR_syscalls EXERCISE_X86_SYSCALL o libc_ok pid begin end_ st in
  [/\ n_keep r.2 = n_keep st,
      selector r.2 = SYSCALL_DISPATCH_FILTER_ALLOW
    & bogo_ops r.2
      = (bogo_ops st
         + (if (prctl_res o (n_prctl st)).1
               && dispatched NR_syscalls (sys o (n_sys st).+1)
            then 1 else 0))%N].
Proof.
rewrite /iteration.
have [[nk1 bg1] sel1] := test_case_1_steady NR_syscalls o st.
have [fl1 ns1] := test_case_1_flow st.
case: (test_case_1 NR_syscalls o st) nk1 bg1 sel1 fl1 ns1 => f1 s1.
rewrite [(f1, s1).2]/= [(f1, s1).1]/= => nk1 bg1 sel1 -> ns1.
case ok: ((prctl_res o (n_prctl st)).1) ns1 => ns1;
  last by rewrite /= addn0.
have [[nk2 bg2] sel2] := test_case_2_steady NR_syscalls o s1.
have fl2 := test_case_2_flow s1.
rewrite ns1 in fl2.
case: (test_case_2 NR_syscalls o s1) nk2 bg2 sel2 fl2 => f2 s2.
rewrite [(f2, s2).2]/= [(f2, s2).1]/= => nk2 bg2 sel2 fl2.
rewrite andTb.
case dp: (dispatched NR_syscalls (sys o (n_sys st).+1)) fl2 => fl2.
  have -> : f2 = Fall by apply/fl2.
  have : steady s2 (if EXERCISE_X86_SYSCALL && libc_ok
                    then test_case_3 o pid begin end_ s2 else s2)
         /\ selector (if EXERCISE_X86_SYSCALL && libc_ok
                      then test_case_3 o pid begin end_ s2 else s2)
            = SYSCALL_DISPATCH_FILTER_ALLOW.
    by case: (_ && _); [apply: test_case_3_steady | ].
  set s3 := if _ then _ else s2; case=> -[nk3 bg3] sel3.
  rewrite [(_, _).2]/=; split.
  - by rewrite [n_keep _]/= nk3 nk2 nk1.
  - by [].
  - by rewrite /bogo_ops /= -cats1 count_cat /= -/(bogo_ops s3) bg3 bg2 bg1.
have nf : f2 <> Fall by move/fl2.
by case: f2 nf {fl2} => //= _; rewrite nk2 nk1 bg2 bg1 addn0.
Qed.

Lemma usr_loopS (fuel : nat) (st : state) :
  stress_loop NR_syscalls EXERCISE_X86_SYSCALL o libc_ok pid begin end_ fuel.+1 st
  = let r := iteration NR_syscalls EXERCISE_X86_SYSCALL o libc_ok pid begin end_ st in
    match r.1 with
    | Goto_err => Some (EXIT_NOT_IMPLEMENTED, r.2)
    | Break => Some (EXIT_SUCCESS, r.2)
    | _ => if (keep_stressing_call o r.2).1
           then stress_loop NR_syscalls EXERCISE_X86_SYSCALL o libc_ok pid
                            begin end_ fuel (keep_stressing_call o r.2).2
           else Some (EXIT_SUCCESS, (keep_stressing_call o r.2).2)
    end.
Proof. by rewrite /=; case: (iteration _ _ _ _ _ _ _ _) => [[| | |] s1]. Qed.

Lemma usr_loop_selector (fuel : nat) (st : state) rc st' :
  stress_loop NR_syscalls EXERCISE_X86_SYSCALL o libc_ok pid begin end_ fuel st
  = Some (rc, st') ->
  selector st' = SYSCALL_DISPATCH_FILTER_ALLOW.
Proof.
elim: fuel st => [|fuel IH] st //; rewrite usr_loopS.
have [_ sel _] := usr_iteration_steady st.
move: sel; set r := iteration _ _ _ _ _ _ _ _ => sel; cbv zeta.
have next : (if (keep_stressing_call o r.2).1
             then stress_loop NR_syscalls EXERCISE_X86_SYSCALL o libc_ok pid
                    begin end_ fuel (keep_stressing_call o r.2).2
             else Some (EXIT_SUCCESS, (keep_stressing_call o r.2).2))
            = Some (rc, st') ->
            selector st' = SYSCALL_DISPATCH_FILTER_ALLOW.
  case: ((keep_stressing_call o r.2).1); first exact: IH.
  by case=> _ <-.
by case: (r.1) => //; case=> _ <-.
Qed.

Lemma usr_loop_stops (k : nat) (st : state) :
  keep_stressing o (n_keep st + k) = false ->
  exists res, forall fuel, (k < fuel)%N ->
    stress_loop NR_syscalls EXERCISE_X86_SYSCALL o libc_ok pid begin end_ fuel st
    = Some res.
Proof.
elim: k st => [|k IH] st stop;
  have [nk _ _] := usr_iteration_steady st;
  move: nk; set r := iteration _ _ _ _ _ _ _ _ => nk.
  exists (match r.1 with
          | Goto_err => (EXIT_NOT_IMPLEMENTED, r.2)
          | Break => (EXIT_SUCCESS, r.2)
          | _ => (EXIT_SUCCESS, (keep_stressing_call o r.2).2)
          end).
  case=> [|fuel] // _; rewrite usr_loopS -/r; cbv zeta.
  by case: (r.1) => //;
     rewrite [(keep_stressing_call o r.2).1]/= nk -(addn0 (n_keep st)) stop.
case keep: (keep_stressing o (n_keep st)); last first.
  exists (match r.1 with
          | Goto_err => (EXIT_NOT_IMPLEMENTED, r.2)
          | Break => (EXIT_SUCCESS, r.2)
          | _ => (EXIT_SUCCESS, (keep_stressing_call o r.2).2)
          end).
  case=> [|fuel] // _; rewrite usr_loopS -/r; cbv zeta.
  by case: (r.1) => //; rewrite [(keep_stressing_call o r.2).1]/= nk keep.
have [|res run] := IH (keep_stressing_call o r.2).2.
  by rewrite [n_keep _]/= nk addSnnS.
exists (match r.1 with
        | Goto_err => (EXIT_NOT_IMPLEMENTED, r.2)
        | Break => (EXIT_SUCCESS, r.2)
        | _ => res
        end).
case=> [|fuel] // lt_k; rewrite usr_loopS -/r; cbv zeta.
by case: (r.1) => //;
   rewrite [(keep_stressing_call o r.2).1]/= nk keep; apply: run.
Qed.

End Turn.

Section LastPrctl.
Variable NR_syscalls : option Z.
Variable EXERCISE_X86_SYSCALL : bool.
Variable o : oracle.

Lemma last_prctl_log (e : event) (st : state) :
  last_prctl (trace (log e st))
  = if e is Prctl mode _ _ _ _ then Some mode else last_prctl (trace st).
Proof. by rewrite /last_prctl /= -cats1 foldl_cat. Qed.

Lemma last_prctl_prctl m a b w st :
  last_prctl (trace (prctl o m a b w st).2) = Some m.
Proof.
by rewrite /prctl; case: (prctl_res o _) => ok e; rewrite last_prctl_log.
Qed.

Lemma last_prctl_syscall nr st :
  last_prctl (trace (syscall o nr st).2) = last_prctl (trace st).
Proof. by rewrite trace_syscall /last_prctl -cats1 foldl_cat. Qed.

Lemma last_prctl_test_case_1 st :
  last_prctl (trace (test_case_1 NR_syscalls o st).2)
  = Some PR_SYS_DISPATCH_ON.
Proof.
rewrite /test_case_1.
have := last_prctl_prctl PR_SYS_DISPATCH_ON 0 0 true (dispatcher_off st).
case: (prctl o _ _ _ _ _) => r1 s1; cbv beta iota zeta.
rewrite [(r1, s1).2]/= => lp1.
case: (~~ _); first by rewrite [(_, _).2]/= last_prctl_log.
have := last_prctl_syscall (USR_SYSCALL NR_syscalls) (set_errno 0 s1).
case: (syscall o _ _) => r2 s2; rewrite [(r2, s2).2]/= [(_, _).2]/= => lp2.
by case: (~~ _); rewrite ?last_prctl_log lp2.
Qed.

Lemma last_prctl_test_case_2 st :
  last_prctl (trace (test_case_2 NR_syscalls o st).2)
  = if (test_case_2 NR_syscalls o st).1 is Fall then Some PR_SYS_DISPATCH_OFF
    else last_prctl (trace st).
Proof.
rewrite /test_case_2.
set st1 := dispatcher_on _.
have := last_prctl_syscall (USR_SYSCALL NR_syscalls) st1.
case: (syscall o _ st1) => r st2; cbv beta iota zeta.
rewrite [(r, st2).2]/= [trace st1]/= => lp.
case: (~~ _); first by case: (_ =? _); rewrite /= last_prctl_log.
case: (~~ _); first by rewrite /= last_prctl_log.
case: (~~ _); first by rewrite /= last_prctl_log.
by rewrite [(_, _).2]/= [(_, _).1]/= last_prctl_prctl.
Qed.

Lemma last_prctl_test_case_3 pid b e st :
  last_prctl (trace (test_case_3 o pid b e st)) = Some PR_SYS_DISPATCH_OFF.
Proof.
rewrite /test_case_3.
case: (prctl o _ _ _ _ st) => r1 s1; cbv beta iota zeta.
case: (syscall o NR_getpid _) => r3 s3.
case: (x86_64_syscall0 o NR_getpid _) => r5 s5.
by case: (~~ _); case: (~~ _); rewrite ?last_prctl_log last_prctl_prctl.
Qed.

Lemma last_prctl_iteration libc_ok pid b e st :
  last_prctl (trace (iteration NR_syscalls EXERCISE_X86_SYSCALL o libc_ok
                               pid b e st).2)
  = Some (if (prctl_res o (n_prctl st)).1
             && dispatched NR_syscalls (sys o (n_sys st).+1)
          then PR_SYS_DISPATCH_OFF else PR_SYS_DISPATCH_ON).
Proof.
rewrite /iteration.
have lp1 := last_prctl_test_case_1 st.
have [fl1 ns1] := test_case_1_flow NR_syscalls o st.
case: (test_case_1 NR_syscalls o st) lp1 fl1 ns1 => f1 s1.
rewrite [(f1, s1).2]/= [(f1, s1).1]/= => lp1 -> ns1.
case ok: ((prctl_res o (n_prctl st)).1) ns1 => ns1; last by [].
have lp2 := last_prctl_test_case_2 s1.
have fl2 := test_case_2_flow NR_syscalls o s1.
rewrite ns1 in fl2.
case: (test_case_2 NR_syscalls o s1) lp2 fl2 => f2 s2.
rewrite [(f2, s2).2]/= [(f2, s2).1]/= andTb => lp2 fl2.
case dp: (dispatched NR_syscalls (sys o (n_sys st).+1)) fl2 => fl2.
  have eq_f : f2 = Fall by apply/fl2.
  rewrite eq_f in lp2 *; rewrite [(_, _).2]/= last_prctl_log.
  by case: (_ && _); rewrite ?last_prctl_test_case_3.
have nf : f2 <> Fall by move/fl2.
by case: f2 nf lp2 {fl2} => //= _ ->.
Qed.

End LastPrctl.

(** X11.  The dispatcher is never left blocking: after every turn of the
    loop, however it ends, and whenever the stressor returns, the
    selector byte is on Allow. *)
Theorem selector_allow_on_return (NR_syscalls : option Z)
    (EXERCISE_X86_SYSCALL : bool) (o : oracle) :
  (forall libc_ok pid begin end_ st,
     selector (iteration NR_syscalls EXERCISE_X86_SYSCALL o libc_ok pid
                         begin end_ st).2
     = SYSCALL_DISPATCH_FILTER_ALLOW)
  /\ (forall fuel rc st,
        stress_usersyscall NR_syscalls EXERCISE_X86_SYSCALL o fuel
        = Some (rc, st) ->
        selector st = SYSCALL_DISPATCH_FILTER_ALLOW).
Proof.
split=> [libc_ok pid begin end_ st|fuel rc st].
  by have [_ sel _] := usr_iteration_steady NR_syscalls EXERCISE_X86_SYSCALL o
                         libc_ok pid begin end_ st.
rewrite /stress_usersyscall; case: (ret_of _ <? 0); first by case=> _ <-.
exact: usr_loop_selector.
Qed.

Lemma selector_allow_on_return_witness :
  exists st,
    stress_usersyscall None false dispatching 4 = Some (EXIT_SUCCESS, st)
    /\ selector st = SYSCALL_DISPATCH_FILTER_ALLOW.
Proof.
have [_ ret] := selector_allow_on_return None false dispatching.
have [st run] : {st | stress_usersyscall None false dispatching 4
                      = Some (EXIT_SUCCESS, st)}.
  by eexists; vm_compute; reflexivity.
by exists st; split; [exact: run | exact: ret run].
Defined.

(** X12.  The probe with the selector on Block passes exactly when the
    kernel dispatched the call: SIGSYS was delivered with a siginfo whose
    code is SYS_USER_DISPATCH and whose errno is 0, and the reserved
    number came back.  A siginfo left over from an earlier turn cannot
    make it pass, because the probe clears it first. *)
Theorem block_probe_passes_iff_dispatched (NR_syscalls : option Z)
    (o : oracle) (st : state) :
  (test_case_2 NR_syscalls o st).1 = Fall
  <-> dispatched NR_syscalls (sys o (n_sys st)).
Proof. exact: test_case_2_flow. Qed.

Lemma block_probe_passes_iff_dispatched_witness :
  (test_case_2 None dispatching
               (test_case_1 None dispatching fresh).2).1 = Fall.
Proof.
have dp : dispatched None
            (sys dispatching
                 (n_sys (test_case_1 None dispatching fresh).2)).
  reflexivity.
exact: (proj2 (block_probe_passes_iff_dispatched None dispatching _) dp).
Defined.

(** X13.  A turn of the loop adds one to the bogo-op counter when the
    dispatcher could be switched on and the kernel dispatched the probe
    made with the selector on Block, and leaves the counter alone
    otherwise; the third test, run or not, passed or failed, has no
    part in it. *)
Theorem turn_counts_iff_dispatched (NR_syscalls : option Z)
    (EXERCISE_X86_SYSCALL : bool) (o : oracle) (libc_ok : bool)
    (pid begin end_ : Z) (st : state) :
  bogo_ops (iteration NR_syscalls EXERCISE_X86_SYSCALL o libc_ok pid
                      begin end_ st).2
  = (bogo_ops st
     + (if (prctl_res o (n_prctl st)).1
           && dispatched NR_syscalls (sys o (n_sys st).+1)
        then 1 else 0))%N.
Proof.
by have [_ _] := usr_iteration_steady NR_syscalls EXERCISE_X86_SYSCALL o
                   libc_ok pid begin end_ st.
Qed.

(** X14.  A turn of the loop switches the dispatcher off again, with
    prctl, only when it is counted.  In every other turn, and so on the
    way out through [err] or [break], the last prctl call made is the
    one that asked for the dispatcher to be switched on. *)
Theorem dispatch_off_only_when_counted (NR_syscalls : option Z)
    (EXERCISE_X86_SYSCALL : bool) (o : oracle) (libc_ok : bool)
    (pid begin end_ : Z) (st : state) :
  last_prctl (trace (iteration NR_syscalls EXERCISE_X86_SYSCALL o libc_ok
                               pid begin end_ st).2)
  = Some (if (prctl_res o (n_prctl st)).1
             && dispatched NR_syscalls (sys o (n_sys st).+1)
          then PR_SYS_DISPATCH_OFF else PR_SYS_DISPATCH_ON).
Proof. exact: last_prctl_iteration. Qed.

(** X15.  When the prctl call that switches the dispatcher on fails at
    the start of a turn, the turn makes no system call of its own: it
    logs an informational message, not a failure, and the loop ends there
    with the success status, without asking [keep_stressing]. *)
Theorem dispatch_failure_ends_run (NR_syscalls : option Z)
    (EXERCISE_X86_SYSCALL : bool) (o : oracle) (libc_ok : bool)
    (pid begin end_ : Z) (fuel : nat) (st : state) :
  (prctl_res o (n_prctl st)).1 = false ->
  exists st',
    [/\ stress_loop NR_syscalls EXERCISE_X86_SYSCALL o libc_ok pid begin end_
                    fuel.+1 st = Some (EXIT_SUCCESS, st'),
        trace st' = (trace st ++ [:: Prctl PR_SYS_DISPATCH_ON 0 0 true (-1);
                                    Pr_inf dispatch_msg])%SEQ,
        n_sys st' = n_sys st
      & n_keep st' = n_keep st].
Proof.
move=> no; have [t1 tr] := test_case_1_break NR_syscalls no.
exists (test_case_1 NR_syscalls o st).2; split=> //.
- by rewrite usr_loopS /iteration t1.
- by have [_] := test_case_1_flow NR_syscalls o st; rewrite no.
- by have [[]] := test_case_1_steady NR_syscalls o st.
Qed.

Lemma dispatch_failure_ends_run_witness :
  exists st',
    [/\ stress_loop None true no_prctl true 4242 0 0 1 (log (Sigaction 0) fresh)
        = Some (EXIT_SUCCESS, st'),
        trace st' = [:: Sigaction 0; Prctl PR_SYS_DISPATCH_ON 0 0 true (-1);
                        Pr_inf dispatch_msg],
        n_sys st' = 0%N
      & n_keep st' = 0%N].
Proof.
have no : (prctl_res no_prctl (n_prctl (log (Sigaction 0) fresh))).1 = false.
  reflexivity.
exact: (@dispatch_failure_ends_run None true no_prctl true 4242 0 0 0%N _ no).
Defined.

(** X16.  The stressor returns as soon as [keep_stressing] says stop: if
    its answer to the [k]-th question is no, [k] + 1 turns of the loop
    are enough, whatever the kernel answers, and more fuel does not
    change the result. *)
Theorem stress_usersyscall_terminates (NR_syscalls : option Z)
    (EXERCISE_X86_SYSCALL : bool) (o : oracle) (k : nat) :
  keep_stressing o k = false ->
  exists res, forall fuel, (k < fuel)%N ->
    stress_usersyscall NR_syscalls EXERCISE_X86_SYSCALL o fuel = Some res.
Proof.
move=> stop; rewrite /stress_usersyscall.
case: (ret_of _ <? 0); first by eexists.
by apply: usr_loop_stops.
Qed.

Lemma stress_usersyscall_terminates_witness :
  exists res, forall fuel, (3 < fuel)%N ->
    stress_usersyscall None false dispatching fuel = Some res.
Proof.
have stop : keep_stressing dispatching 3 = false by reflexivity.
exact: (@stress_usersyscall_terminates None false dispatching 3 stop).
Defined.

(** X17.  When the scan succeeds on a listing whose converted lines
    describe regions that are not empty and lie in the address space,
    the bounds it returns are those of a region that is not empty either,
    and the length the third test passes to prctl, computed in
    [uintptr_t], is [end - begin] without wrap-around. *)
Theorem libc_range_fits (lines : seq maps_line) (b e : Z) :
  (forall l, List.In l lines -> n_conv l = 8 -> well_formed l) ->
  stress_sigsys_libc_mapping (Some lines) = (0, (b, e)) ->
  [/\ 0 <= b, b < e, e <= UINTPTR_MAX & (e - b) mod 2 ^ 64 = e - b].
Proof.
move=> wf; rewrite /stress_sigsys_libc_mapping.
have [[le_b le_e at_b at_e] bnd] := scan_fold lines UINTPTR_MAX 0.
move: le_b le_e at_b at_e bnd; set be := foldl _ _ _ => le_b le_e at_b at_e bnd.
case nb: (be.1 =? UINTPTR_MAX) => //=; case ne: (be.2 =? 0) => //= -[eq_be].
rewrite eq_be /= in nb ne at_b at_e bnd.
move/Z.eqb_neq: nb => nb; move/Z.eqb_neq: ne => ne.
case: at_b => [//|[lb [lb_in mb eq_b]]]; case: at_e => [//|[le [le_in me eq_e]]].
have n8 l : matches l -> n_conv l = 8.
  by rewrite /matches; case: Z.eqb_spec.
have [_ rb maxb] := wf lb lb_in (n8 _ mb).
have [_ re maxe] := wf le le_in (n8 _ me).
have [_ hi] := bnd lb lb_in mb.
have rng : 0 <= b /\ b < e /\ e <= UINTPTR_MAX by rewrite /UINTPTR_MAX in maxe *; lia.
case: rng => b0 [lt_be e_max]; split=> //.
by apply: Z.mod_small; rewrite /UINTPTR_MAX in e_max; lia.
Qed.

Lemma libc_range_fits_witness :
  [/\ 0 <= 0x7f3a10028000, 0x7f3a10028000 < 0x7f3a10420000,
      0x7f3a10420000 <= UINTPTR_MAX
    & (0x7f3a10420000 - 0x7f3a10028000) mod 2 ^ 64
      = 0x7f3a10420000 - 0x7f3a10028000].
Proof.
have wf l : List.In l sample_maps -> n_conv l = 8 -> well_formed l.
  by rewrite /=; (do 5 case=> [<- _|] //); split.
have scan : stress_sigsys_libc_mapping (Some sample_maps)
            = (0, (0x7f3a10028000, 0x7f3a10420000)) by reflexivity.
exact: (libc_range_fits wf scan).
Defined.

(** X18.  The result of the scan depends only on which lines describe
    executable code of the C library: two listings with the same such
    lines, in any order, repeated or not, and with any other lines
    between them, give the same result. *)
Theorem scan_depends_on_libc_lines (lines lines' : seq maps_line) :
  (forall l, matches l -> List.In l lines <-> List.In l lines') ->
  stress_sigsys_libc_mapping (Some lines)
  = stress_sigsys_libc_mapping (Some lines').
Proof.
move=> same; rewrite /stress_sigsys_libc_mapping.
have [[le_b le_e at_b at_e] bnd] := scan_fold lines UINTPTR_MAX 0.
have [[le_b' le_e' at_b' at_e'] bnd'] := scan_fold lines' UINTPTR_MAX 0.
move: le_b le_e at_b at_e bnd le_b' le_e' at_b' at_e' bnd'.
set be := foldl _ _ lines; set be' := foldl _ _ lines'.
move=> le_b le_e at_b at_e bnd le_b' le_e' at_b' at_e' bnd'.
have eb : be.1 = be'.1.
  have l1 : be.1 <= be'.1.
    case: at_b' => [->//|[l [l_in ml <-]]].
    by have [] := bnd l (proj2 (same l ml) l_in) ml.
  have l2 : be'.1 <= be.1.
    case: at_b => [->//|[l [l_in ml <-]]].
    by have [] := bnd' l (proj1 (same l ml) l_in) ml.
  lia.
have ee : be.2 = be'.2.
  have l1 : be.2 <= be'.2.
    case: at_e => [->//|[l [l_in ml <-]]].
    by have [] := bnd' l (proj1 (same l ml) l_in) ml.
  have l2 : be'.2 <= be.2.
    case: at_e' => [->//|[l [l_in ml <-]]].
    by have [] := bnd l (proj2 (same l ml) l_in) ml.
  lia.
by rewrite (surjective_pairing be) (surjective_pairing be') eb ee.
Qed.

Lemma scan_depends_on_libc_lines_witness :
  stress_sigsys_libc_mapping (Some sample_maps)
  = stress_sigsys_libc_mapping (Some (rev sample_maps)).
Proof.
have same l : matches l -> List.In l sample_maps <-> List.In l (rev sample_maps).
  by move=> _; rewrite /=; tauto.
exact: (scan_depends_on_libc_lines same).
Defined.

End Run.

End UsersyscallFacts.
